(** * fronty.js: the reconciliation engine and the observable model

    A shallow embedding of [src/fronty.js-keyed/src/fronty.js]:
    [TreeComparator] (diff, child-list reconciliation, attribute and
    node-value patches), the parts of [Component] that feed it
    ([_tagTree], the parsing front of [render], the comparison policy of
    [_renderNewTree]) and [Model] (observers).

    DOM nodes live in a store and are referred to by reference, as in the
    source: patches carry references, [diff] only reads the store, and
    [applyPatches] writes it. *)

From Stdlib Require Import ZArith String Ascii List Lia DecimalString DecimalNat
  DecimalFacts.
From stdpp Require Import base option list strings gmap.

Local Open Scope string_scope.
Local Open Scope list_scope.
Local Open Scope nat_scope.

(* ===================================================================== *)
(** ** The DOM: nodes, the store, and the computation monad              *)
(* ===================================================================== *)

Module Dom.

(** A reference to a node object. *)
Definition nid := nat.

(** [Node.ELEMENT_NODE = 1], [Node.TEXT_NODE = 3], [Node.COMMENT_NODE = 8]. *)
Inductive NodeType := ELEMENT_NODE | TEXT_NODE | COMMENT_NODE.

#[global] Instance NodeType_eq_dec : EqDecision NodeType.
Proof. solve_decision. Defined.

(** One entry of [element.attributes]. *)
Record Attr := mkAttr { name : string; value : string }.

#[global] Instance Attr_eq_dec : EqDecision Attr.
Proof. solve_decision. Defined.

(** What an element carries: its tag, its ordered attribute list, its child
    list, and the two live properties that [applyPatches] writes
    ([element.value], [element.checked]; [None] is [undefined]). The two
    properties are what the engine has written, or what was there: the
    platform's own link from the content attributes of a form control to
    its live value (an [<input>] nobody has written to follows its
    ['value'] attribute, and is emptied when the attribute is removed)
    is not part of the record; what is stated below of the
    ['attributes'] patch is stated of the attribute lists. *)
Record ElementData := mkElement {
  el_tagName : string;
  el_attributes : list Attr;
  el_childNodes : list nid;
  el_value : option string;
  el_checked : option bool
}.

Inductive Node :=
| Element (e : ElementData)
| Text (data : string)
| Comment (data : string).

Definition nodeType (n : Node) : NodeType :=
  match n with
  | Element _ => ELEMENT_NODE
  | Text _ => TEXT_NODE
  | Comment _ => COMMENT_NODE
  end.

(** [node.tagName]: [undefined] on text and comment nodes. *)
Definition tagName (n : Node) : option string :=
  match n with Element e => Some (el_tagName e) | _ => None end.

(** [node.nodeValue]: [null] on elements. *)
Definition nodeValue (n : Node) : option string :=
  match n with Element _ => None | Text d | Comment d => Some d end.

(** [node.attributes]: [undefined] on text and comment nodes. *)
Definition attributes (n : Node) : option (list Attr) :=
  match n with Element e => Some (el_attributes e) | _ => None end.

(** [node.childNodes]: empty on text and comment nodes. *)
Definition childNodes (n : Node) : list nid :=
  match n with Element e => el_childNodes e | _ => [] end.

(** [element.getAttribute(a)]: the value of the first attribute named [a],
    [null] when there is none. *)
Fixpoint lookupAttr (a : string) (l : list Attr) : option string :=
  match l with
  | [] => None
  | x :: rest => if String.eqb (name x) a then Some (value x) else lookupAttr a rest
  end.

Definition getAttribute (n : Node) (a : string) : option string :=
  match n with Element e => lookupAttr a (el_attributes e) | _ => None end.

Definition hasAttribute (n : Node) (a : string) : bool :=
  match getAttribute n a with Some _ => true | None => false end.

(** [element.setAttribute(a, v)]: overwrite in place when present, else
    append at the end of the attribute list. *)
Fixpoint setAttr (a v : string) (l : list Attr) : list Attr :=
  match l with
  | [] => [mkAttr a v]
  | x :: rest =>
      if String.eqb (name x) a then mkAttr a v :: rest
      else x :: setAttr a v rest
  end.

(** [element.removeAttribute(a)]. *)
Fixpoint removeAttr (a : string) (l : list Attr) : list Attr :=
  match l with
  | [] => []
  | x :: rest =>
      if String.eqb (name x) a then rest else x :: removeAttr a rest
  end.

Definition withAttributes (f : list Attr → list Attr) (n : Node) : Node :=
  match n with
  | Element e =>
      Element (mkElement (el_tagName e) (f (el_attributes e)) (el_childNodes e)
                         (el_value e) (el_checked e))
  | _ => n
  end.

Definition setAttribute (a v : string) : Node → Node := withAttributes (setAttr a v).
Definition removeAttribute (a : string) : Node → Node := withAttributes (removeAttr a).

(** The heap of node objects. *)
Abbreviation store := (gmap nat Node).

(** What can be thrown: a [TypeError] (a property read on [undefined] or
    [null]) and the string thrown by [Component.render]. *)
Inductive error := TypeError | MustReturnSingleRoot.

(** How a computation ends: with a value, with an exception, or not within
    the given number of steps. *)
Inductive outcome (A : Type) :=
| Done (a : A)
| Throws (e : error)
| OutOfFuel.
Arguments Done {A} a.
Arguments Throws {A} e.
Arguments OutOfFuel {A}.

(** Computations over the store. The store is returned whatever the
    outcome: what was written before an exception stays written. *)
Definition M (A : Type) : Type := store → outcome A * store.

Definition ret {A} (a : A) : M A := λ σ, (Done a, σ).

Definition bind {A B} (m : M A) (k : A → M B) : M B :=
  λ σ, match m σ with
       | (Done a, σ') => k a σ'
       | (Throws e, σ') => (Throws e, σ')
       | (OutOfFuel, σ') => (OutOfFuel, σ')
       end.

Definition throw {A} (e : error) : M A := λ σ, (Throws e, σ).
Definition outOfFuel {A} : M A := λ σ, (OutOfFuel, σ).

(** Reading the object behind a reference. *)
Definition getNode (r : nid) : M Node :=
  λ σ, match σ !! r with
       | Some n => (Done n, σ)
       | None => (Throws TypeError, σ)
       end.

(** Reading the whole store (for callbacks that inspect nodes). *)
Definition getStore : M store := λ σ, (Done σ, σ).

(** Updating the object behind a reference in place. *)
Definition modifyNode (r : nid) (f : Node → Node) : M unit :=
  λ σ, match σ !! r with
       | Some n => (Done tt, <[r := f n]> σ)
       | None => (Throws TypeError, σ)
       end.

(** Dereferencing a possibly [undefined] value. *)
Definition defined {A} (o : option A) : M A :=
  match o with Some a => ret a | None => throw TypeError end.

Definition outcomeMap {A B} (f : A → B) (o : outcome A) : outcome B :=
  match o with
  | Done a => Done (f a)
  | Throws e => Throws e
  | OutOfFuel => OutOfFuel
  end.

(** A computation that leaves the store as it found it, however it ends. *)
Definition readsOnly {A} (m : M A) : Prop := ∀ σ, (m σ).2 = σ.

End Dom.

Export Dom.

#[global] Instance M_ret : MRet M := @ret.
#[global] Instance M_bind : MBind M := λ A B k m, bind m k.

(* ===================================================================== *)
(** ** TreeComparator: diff                                              *)
(* ===================================================================== *)

Module TreeComparator.

(** What a comparison policy answers. Any answer other than ['SKIP'] and
    ['REPLACE'] lets the comparison go on, like ['DIFF']. *)
Inductive PolicyAction := DIFF | SKIP | REPLACE.

(** A comparison policy looks at the two nodes and decides; it is a
    function of what it reads, and writes nothing. *)
Definition policy : Type := store → nid → nid → PolicyAction.

(** The patch objects [{mode, toReplace, replacement, beforePos}]. A patch
    without [mode] is the whole-subtree replacement (the [default] case of
    [applyPatches]). In a ['swap-nodes'] patch [replacement] is read from
    [node1.childNodes[...]] and may be [undefined]. *)
Inductive patch :=
| ReplaceSubtree (toReplace replacement : nid)
| Attributes (toReplace replacement : nid)
| NodeValue (toReplace replacement : nid)
| RemoveNode (toReplace : nid)
| AppendChild (toReplace replacement : nid)
| InsertNode (toReplace replacement : nid) (beforePos : Z)
| SwapNodes (toReplace : nid) (replacement : option nid).

#[global] Instance patch_eq_dec : EqDecision patch.
Proof. solve_decision. Defined.

Definition mode (p : patch) : option string :=
  match p with
  | ReplaceSubtree _ _ => None
  | Attributes _ _ => Some "attributes"
  | NodeValue _ _ => Some "node-value"
  | RemoveNode _ => Some "remove-node"
  | AppendChild _ _ => Some "append-child"
  | InsertNode _ _ _ => Some "insert-node"
  | SwapNodes _ _ => Some "swap-nodes"
  end.

(** *** The key tables

    [keyElementIndexNode1] and [keyElementIndexNode2] are plain objects
    [{}] used as maps from key to [{node, pos}]. A plain object inherits
    from [Object.prototype], which the [in] operator sees; and assigning
    to ["__proto__"] replaces the prototype instead of adding a property. *)

Record IndexEntry := mkEntry { node : nid; pos : nat }.

Record KeyIndex := mkIndex {
  own : gmap string IndexEntry;
  proto : option IndexEntry
}.

Definition emptyIndex : KeyIndex := mkIndex ∅ None.

Definition object_prototype_names : list string :=
  [ "constructor"; "__defineGetter__"; "__defineSetter__"; "hasOwnProperty";
    "__lookupGetter__"; "__lookupSetter__"; "isPrototypeOf";
    "propertyIsEnumerable"; "toString"; "valueOf"; "__proto__";
    "toLocaleString" ].

Definition mem (s : string) (l : list string) : bool := existsb (String.eqb s) l.

(** The property name a key is converted to: [null] becomes ["null"]. *)
Definition propertyName (key : option string) : string := default "null" key.

(** [index[key] = {node: n, pos: p}]. *)
Definition index_set (key : string) (e : IndexEntry) (idx : KeyIndex) : KeyIndex :=
  if String.eqb key "__proto__" then mkIndex (own idx) (Some e)
  else mkIndex (<[key := e]> (own idx)) (proto idx).

(** [key in index]. *)
Definition key_in (key : option string) (idx : KeyIndex) : bool :=
  let k := propertyName key in
  match own idx !! k with
  | Some _ => true
  | None =>
      mem k object_prototype_names
      || match proto idx with Some _ => mem k ["node"; "pos"] | None => false end
  end.

(** [index[key].pos], read after [key in index] held: an own entry gives
    its position; ["__proto__"] gives the position of the entry installed
    as prototype, if any; any other inherited value has no [pos]
    ([undefined]). *)
Definition key_pos (key : option string) (idx : KeyIndex) : option nat :=
  let k := propertyName key in
  match own idx !! k with
  | Some e => Some (pos e)
  | None => if String.eqb k "__proto__" then pos <$> proto idx else None
  end.

(** [if (key)]: neither [null] nor the empty string. *)
Definition truthy (key : option string) : option string :=
  match key with
  | Some "" => None
  | Some k => Some k
  | None => None
  end.

(** One loop of [_buildChildrenKeyIndex]: the children of one node, each
    element with a truthy [key] recorded under that key with its position
    (a later child with the same key overwrites an earlier one). *)
Fixpoint indexChildren (children : list nid) (i : nat) (idx : KeyIndex) : M KeyIndex :=
  match children with
  | [] => mret idx
  | c :: rest =>
      n ← getNode c;
      let idx' :=
        match nodeType n with
        | ELEMENT_NODE =>
            match truthy (getAttribute n "key") with
            | Some key => index_set key (mkEntry c i) idx
            | None => idx
            end
        | _ => idx
        end in
      indexChildren rest (S i) idx'
  end.

(** [_buildChildrenKeyIndex(node1, node2, keyElementIndexNode1,
    keyElementIndexNode2)]: first the table of [node2], then that of
    [node1]. *)
Definition _buildChildrenKeyIndex (node1 node2 : nid) : M (KeyIndex * KeyIndex) :=
  n2 ← getNode node2;
  keyElementIndexNode2 ← indexChildren (childNodes n2) 0 emptyIndex;
  n1 ← getNode node1;
  keyElementIndexNode1 ← indexChildren (childNodes n1) 0 emptyIndex;
  mret (keyElementIndexNode1, keyElementIndexNode2).

(** [_swapArrayElements(arr, indexA, indexB)] on the local copy of the
    child list. A slot holds a reference or [undefined]. A position read
    from the key table of [node1] is a position in its child list, hence
    within the array. [indexB] is [undefined] when the key table had no
    position: then [arr[indexA]] receives [arr[undefined]], which is
    [undefined], and the old value goes to the property ["undefined"] of
    the array, which nothing reads. *)
Definition _swapArrayElements (arr : list (option nid)) (indexA : nat)
    (indexB : option nat) : list (option nid) :=
  let temp := default None (arr !! indexA) in
  match indexB with
  | Some b => <[b := temp]> (<[indexA := default None (arr !! b)]> arr)
  | None => <[indexA := None]> arr
  end.

(** [_equalAttributes(node1, node2)]: position by position, on the
    attribute lists without ['frontyid']. *)
Definition skipAttributes (a : Attr) : bool := negb (String.eqb (name a) "frontyid").

Fixpoint sameAttributesFrom (l1 l2 : list Attr) : bool :=
  match l1, l2 with
  | [], _ => true
  | x :: r1, y :: r2 =>
      if negb (String.eqb (name x) (name y)) || negb (String.eqb (value x) (value y))
      then false
      else sameAttributesFrom r1 r2
  | _ :: _, [] => false
  end.

Definition _equalAttributes (n1 n2 : Node) : bool :=
  match attributes n1, attributes n2 with
  | None, None => true
  | None, Some _ | Some _, None => false
  | Some a1, Some a2 =>
      let node1Attributes := List.filter skipAttributes a1 in
      let node2Attributes := List.filter skipAttributes a2 in
      if negb (length node1Attributes =? length node2Attributes) then false
      else sameAttributesFrom node1Attributes node2Attributes
  end.

(** *** The child-list scan of [_compareChildren] *)

(** The local variables of the [while] loop. *)
Record scan := mkScan {
  child1pos : nat;
  child2pos : nat;
  insertions : nat;
  deletions : nat;
  child1Array : list (option nid);
  result : list patch
}.

Definition push (ps : list patch) (s : scan) : scan :=
  mkScan (child1pos s) (child2pos s) (insertions s) (deletions s)
         (child1Array s) (result s ++ ps).

(** [child1pos++; child2pos++]. *)
Definition advanceBoth (s : scan) : scan :=
  mkScan (S (child1pos s)) (S (child2pos s)) (insertions s) (deletions s)
         (child1Array s) (result s).

(** [push remove-node; child1pos++; deletions++]. *)
Definition removeHere (child1 : nid) (s : scan) : scan :=
  mkScan (S (child1pos s)) (child2pos s) (insertions s) (S (deletions s))
         (child1Array s) (result s ++ [RemoveNode child1]).

(** [push insert-node; insertions++; child2pos++]. *)
Definition insertHere (node1 child2 : nid) (s : scan) : scan :=
  mkScan (child1pos s) (S (child2pos s)) (S (insertions s)) (deletions s)
         (child1Array s)
         (result s ++ [InsertNode node1 child2
            (Z.of_nat (child1pos s) + Z.of_nat (insertions s) - Z.of_nat (deletions s))%Z]).

(** [push swap-nodes; _swapArrayElements(child1Array, child1pos, pos)]. *)
Definition swapHere (child1 : nid) (replacement : option nid) (p : option nat)
    (s : scan) : scan :=
  mkScan (child1pos s) (child2pos s) (insertions s) (deletions s)
         (_swapArrayElements (child1Array s) (child1pos s) p)
         (result s ++ [SwapNodes child1 replacement]).

Definition option_eqb (a b : option string) : bool := bool_decide (a = b).

(** The [while] condition. *)
Definition scanning (n1 n2 : Node) (s : scan) : bool :=
  (child1pos s <? length (childNodes n1)) && (child2pos s <? length (childNodes n2)).

(** The body of the [while] loop when both children are elements, with
    their keys; [diff] is the recursive call
    [TreeComparator.diff(child1, child2, comparePolicy)]. *)
Definition scanElements (diff : nid → nid → M (list patch))
    (node1 : nid) (n1 : Node) (child1 child2 : nid) (key1 key2 : option string)
    (keyElementIndexNode1 keyElementIndexNode2 : KeyIndex) (s : scan) : M scan :=
  if negb (option_eqb key1 key2) then
    if key_in key1 keyElementIndexNode2 && key_in key2 keyElementIndexNode1 then
      let p := key_pos key2 keyElementIndexNode1 in
      mret (swapHere child1 (p ≫= λ i, childNodes n1 !! i) p s)
    else
      let s1 := if negb (key_in key2 keyElementIndexNode1)
                then insertHere node1 child2 s else s in
      let s2 := if negb (key_in key1 keyElementIndexNode2)
                then removeHere child1 s1 else s1 in
      mret s2
  else
    ps ← diff child1 child2;
    mret (advanceBoth (push ps s)).

(** The body of the [while] loop. *)
Definition scanStep (diff : nid → nid → M (list patch))
    (node1 node2 : nid) (keyElementIndexNode1 keyElementIndexNode2 : KeyIndex)
    (s : scan) : M scan :=
  n1 ← getNode node1;
  n2 ← getNode node2;
  let slot1 := default None (child1Array s !! child1pos s) in
  let slot2 := childNodes n2 !! child2pos s in
  child1 ← defined slot1;
  c1 ← getNode child1;
  child2 ← defined slot2;
  c2 ← getNode child2;
  match nodeType c1, nodeType c2 with
  | ELEMENT_NODE, ELEMENT_NODE =>
      scanElements diff node1 n1 child1 child2
        (getAttribute c1 "key") (getAttribute c2 "key")
        keyElementIndexNode1 keyElementIndexNode2 s
  | ELEMENT_NODE, _ => mret (insertHere node1 child2 s)
  | _, ELEMENT_NODE => mret (removeHere child1 s)
  | _, _ =>
      partial ← diff child1 child2;
      mret (advanceBoth (push partial s))
  end.

(** After the loop: the rest of [node1.childNodes] is removed, or else the
    rest of [node2.childNodes] is appended. *)
Definition scanRest (node1 : nid) (n1 n2 : Node) (s : scan) : list patch :=
  if child1pos s <? length (childNodes n1) then
    result s ++ (RemoveNode <$> drop (child1pos s) (childNodes n1))
  else if child2pos s <? length (childNodes n2) then
    result s ++ (AppendChild node1 <$> drop (child2pos s) (childNodes n2))
  else result s.

(** [_compareChildren(node1, node2, comparePolicy, result)] around its
    [while] loop, which is given as [loop]: the copy of the child list,
    the key tables, the loop, and what follows the loop. The patches are
    those pushed onto [result], which [diff] passes empty. *)
Definition compareChildrenWith (loop : KeyIndex → KeyIndex → scan → M scan)
    (node1 node2 : nid) : M (list patch) :=
  n1 ← getNode node1;
  let child1Array := Some <$> childNodes n1 in
  '(keyElementIndexNode1, keyElementIndexNode2) ← _buildChildrenKeyIndex node1 node2;
  s ← loop keyElementIndexNode1 keyElementIndexNode2 (mkScan 0 0 0 0 child1Array []);
  n1 ← getNode node1;
  n2 ← getNode node2;
  mret (scanRest node1 n1 n2 s).

Definition isTextOrComment (n : Node) : bool :=
  match nodeType n with TEXT_NODE | COMMENT_NODE => true | ELEMENT_NODE => false end.

Definition differentValues (n1 n2 : Node) : bool :=
  match nodeValue n1, nodeValue n2 with
  | Some v1, Some v2 => negb (String.eqb v1 v2)
  | _, _ => false
  end.

(** The end of [diff], once the children are compared: a text or comment
    node whose value differs gives a fresh list with one ['node-value']
    patch; otherwise an ['attributes'] patch is added to [result] unless
    [_equalAttributes] holds. *)
Definition compareNodes (node1 node2 : nid) (n1 n2 : Node) (result : list patch)
    : list patch :=
  if isTextOrComment n1 && differentValues n1 n2
  then [NodeValue node1 node2]
  else if negb (_equalAttributes n1 n2)
  then result ++ [Attributes node1 node2]
  else result.

Definition consult (comparePolicy : option policy) (node1 node2 : nid) : M PolicyAction :=
  match comparePolicy with
  | Some f => σ ← getStore; mret (f σ node1 node2)
  | None => mret DIFF
  end.

(** [TreeComparator.diff(node1, node2, comparePolicy)] and the loop of
    [TreeComparator._compareChildren(node1, node2, comparePolicy, result)].
    Every call of [diff] and every turn of the loop takes one unit of
    fuel. [node1] is a reference to a node: the case [node1 === null] of
    the source, which gives the whole-subtree replacement, is that of a
    caller without a first tree. *)
Fixpoint diff (fuel : nat) (node1 node2 : nid) (comparePolicy : option policy)
    {struct fuel} : M (list patch) :=
  match fuel with
  | O => outOfFuel
  | S fuel' =>
      actionToDo ← consult comparePolicy node1 node2;
      match actionToDo with
      | SKIP => mret []
      | REPLACE => mret [ReplaceSubtree node1 node2]
      | DIFF =>
          n1 ← getNode node1;
          n2 ← getNode node2;
          if bool_decide (tagName n1 = tagName n2) && bool_decide (nodeType n1 = nodeType n2)
          then
            result ←
              (if (0 <? length (childNodes n1)) || (0 <? length (childNodes n2))
               then compareChildrenWith (scanLoop fuel' node1 node2 comparePolicy)
                      node1 node2
               else mret []);
            n1 ← getNode node1;
            n2 ← getNode node2;
            mret (compareNodes node1 node2 n1 n2 result)
          else mret [ReplaceSubtree node1 node2]
      end
  end
with scanLoop (fuel : nat) (node1 node2 : nid) (comparePolicy : option policy)
    (keyElementIndexNode1 keyElementIndexNode2 : KeyIndex) (s : scan)
    {struct fuel} : M scan :=
  match fuel with
  | O => outOfFuel
  | S fuel' =>
      n1 ← getNode node1;
      n2 ← getNode node2;
      if scanning n1 n2 s then
        s' ← scanStep (λ c1 c2, diff fuel' c1 c2 comparePolicy) node1 node2
               keyElementIndexNode1 keyElementIndexNode2 s;
        scanLoop fuel' node1 node2 comparePolicy
          keyElementIndexNode1 keyElementIndexNode2 s'
      else mret s
  end.

(** [TreeComparator._compareChildren(node1, node2, comparePolicy, [])]. *)
Definition _compareChildren (fuel : nat) (node1 node2 : nid)
    (comparePolicy : option policy) : M (list patch) :=
  compareChildrenWith (scanLoop fuel node1 node2 comparePolicy) node1 node2.

(** *** applyPatches: the cases that write attributes and text *)

(** [toReplace.value != attribute.value], the live property against the
    attribute's value; [undefined] differs from every string. *)
Definition valueDiffers (v : option string) (a : string) : bool :=
  match v with Some s => negb (String.eqb s a) | None => true end.

Definition setValue (v : string) (n : Node) : Node :=
  match n with
  | Element e =>
      Element (mkElement (el_tagName e) (el_attributes e) (el_childNodes e)
                         (Some v) (el_checked e))
  | _ => n
  end.

Definition setChecked (b : bool) (n : Node) : Node :=
  match n with
  | Element e =>
      Element (mkElement (el_tagName e) (el_attributes e) (el_childNodes e)
                         (el_value e) (Some b))
  | _ => n
  end.

Definition elementValue (n : Node) : option string :=
  match n with Element e => el_value e | _ => None end.

(** [skipAttributes === undefined || skipAttributes.indexOf(name) === -1
     || !toReplace.hasAttribute(name)]. *)
Definition mustSet (skip : option (list string)) (target : Node) (a : string) : bool :=
  match skip with
  | None => true
  | Some l => negb (mem a l) || negb (hasAttribute target a)
  end.

(** One turn of the first loop of the ['attributes'] case, for
    [replacement.attributes[i]]. *)
Definition copyAttribute (skip : option (list string)) (toReplace replacement : nid)
    (i : nat) : M unit :=
  r ← getNode replacement;
  attribute ← defined (attributes r ≫= λ l, l !! i);
  t ← getNode toReplace;
  (if String.eqb (name attribute) "value" && valueDiffers (elementValue t) (value attribute)
   then modifyNode toReplace (setValue (value attribute)) else mret tt);;
  (if String.eqb (name attribute) "checked"
   then modifyNode toReplace (setChecked true) else mret tt);;
  t ← getNode toReplace;
  if mustSet skip t (name attribute)
  then
    _ ← defined (attributes t);
    modifyNode toReplace (setAttribute (name attribute) (value attribute))
  else mret tt.

(** [for (i = from; i < from + count; i++)]. *)
Fixpoint copyAttributes (skip : option (list string)) (toReplace replacement : nid)
    (from count : nat) : M unit :=
  match count with
  | O => mret tt
  | S count' =>
      copyAttribute skip toReplace replacement from;;
      copyAttributes skip toReplace replacement (S from) count'
  end.

(** One turn of the second loop, for [toReplace.attributes[j]]. The
    engine writes [checked] here and leaves [value] to the platform. *)
Definition dropAttribute (toReplace replacement : nid) (j : nat) : M unit :=
  t ← getNode toReplace;
  attribute ← defined (attributes t ≫= λ l, l !! j);
  r ← getNode replacement;
  if negb (hasAttribute r (name attribute))
  then
    (if String.eqb (name attribute) "checked"
     then modifyNode toReplace (setChecked false) else mret tt);;
    modifyNode toReplace (removeAttribute (name attribute))
  else mret tt.

(** [for (j = count - 1; j >= 0; j--)]. *)
Fixpoint dropAttributes (toReplace replacement : nid) (count : nat) : M unit :=
  match count with
  | O => mret tt
  | S j =>
      dropAttribute toReplace replacement j;;
      dropAttributes toReplace replacement j
  end.

(** [case 'attributes']. The first loop runs over
    [replacement.attributes], whose length no turn changes (it writes the
    target only, and setting an attribute a node already has keeps the
    length). An [attributes] that is [undefined] has no [length]. *)
Definition applyAttributes (skip : option (list string)) (toReplace replacement : nid)
    : M unit :=
  r ← getNode replacement;
  attrs ← defined (attributes r);
  copyAttributes skip toReplace replacement 0 (length attrs);;
  t ← getNode toReplace;
  attrs ← defined (attributes t);
  dropAttributes toReplace replacement (length attrs).

(** The regular expression [/^(__FTN__:[0-9]+#)/]. *)
Definition isDigit (c : ascii) : bool :=
  (48 <=? nat_of_ascii c) && (nat_of_ascii c <=? 57).

Fixpoint stripPrefix (p s : string) : option string :=
  match p with
  | EmptyString => Some s
  | String a p' =>
      match s with
      | String b s' => if Ascii.eqb a b then stripPrefix p' s' else None
      | EmptyString => None
      end
  end.

Fixpoint spanDigits (s : string) : string * string :=
  match s with
  | String c s' =>
      if isDigit c then let '(ds, rest) := spanDigits s' in (String c ds, rest)
      else (EmptyString, s)
  | EmptyString => (EmptyString, EmptyString)
  end.

(** [reg.exec(v)]: the marker [match[1]], or [None] for [null]. The digits
    are taken greedily, and since ['#'] is no digit nothing shorter can
    match. *)
Definition matchMarker (v : string) : option string :=
  match stripPrefix "__FTN__:" v with
  | Some rest =>
      match spanDigits rest with
      | (String d ds, String "#" _) => Some ("__FTN__:" +:+ String d ds +:+ "#")
      | _ => None
      end
  | None => None
  end.

(** A value converted to a string: [null] reads ["null"]. *)
Definition toString (v : option string) : string := default "null" v.

(** [node.nodeValue = v]: no effect on an element. *)
Definition setNodeValue (v : string) (n : Node) : Node :=
  match n with
  | Element _ => n
  | Text _ => Text v
  | Comment _ => Comment v
  end.

(** [case 'node-value']. *)
Definition applyNodeValue (toReplace replacement : nid) : M unit :=
  t ← getNode toReplace;
  let tag := default "" (matchMarker (toString (nodeValue t))) in
  r ← getNode replacement;
  modifyNode toReplace (setNodeValue (tag +:+ toString (nodeValue r))).

(** *** Vocabulary of the statements *)

(** [diff] returns the patch list [ps] for the pair, without a policy, as
    soon as it is given enough steps. *)
Definition yields (σ : store) (node1 node2 : nid) (ps : list patch) : Prop :=
  ∃ enough, ∀ fuel, enough ≤ fuel → diff fuel node1 node2 None σ = (Done ps, σ).

(** An element child carrying the key [k]. *)
Definition keyed (σ : store) (r : nid) (k : string) : Prop :=
  ∃ e, σ !! r = Some (Element e) ∧ lookupAttr "key" (el_attributes e) = Some k.

(** The attribute lists of a DOM element name each attribute once. *)
Definition validAttributes (l : list Attr) : Prop := NoDup (name <$> l).

(** Two attribute lists that give every attribute but ['frontyid'] the
    same value, or none. *)
Definition attributeEqual (l1 l2 : list Attr) : Prop :=
  ∀ a, a ≠ "frontyid" → lookupAttr a l1 = lookupAttr a l2.

(** The [skipAttributes] argument the engine passes to [applyPatches]:
    absent, or naming ['frontyid'] only. *)
Definition skipsFrontyidOnly (skip : option (list string)) : Prop :=
  ∀ l a, skip = Some l → a ∈ l → a = "frontyid".

Fixpoint allDigits (s : string) : bool :=
  match s with
  | EmptyString => true
  | String c s' => isDigit c && allDigits s'
  end.

(** An identifier marker [__FTN__:<id>#], [<id>] being one digit or more. *)
Definition isMarker (m : string) : Prop :=
  ∃ ds, ds ≠ "" ∧ allDigits ds = true ∧ m = "__FTN__:" +:+ ds +:+ "#".

(** *** The loops of the ['attributes'] case, as functions

    What a turn of the first loop does to the attribute list of the
    target ([copyOne]) and to the target ([copyAttributeTo]); which
    attributes the second loop keeps ([kept]) and what a turn of it does
    to the target ([dropAttributeFrom]). *)
Definition wanted (skip : option (list string)) (l : list Attr) (a : string) : bool :=
  match skip with
  | None => true
  | Some sk => negb (mem a sk)
               || negb (match lookupAttr a l with Some _ => true | None => false end)
  end.

Definition copyOne (skip : option (list string)) (l : list Attr) (x : Attr) : list Attr :=
  if wanted skip l (name x) then setAttr (name x) (value x) l else l.

Definition kept (l2 : list Attr) (x : Attr) : bool :=
  match lookupAttr (name x) l2 with Some _ => true | None => false end.

Definition copyAttributeTo (skip : option (list string)) (x : Attr) (e : ElementData)
    : ElementData :=
  mkElement (el_tagName e) (copyOne skip (el_attributes e) x) (el_childNodes e)
    (if String.eqb (name x) "value" && valueDiffers (el_value e) (value x)
     then Some (value x) else el_value e)
    (if String.eqb (name x) "checked" then Some true else el_checked e).

Definition dropAttributeFrom (l2 : list Attr) (x : Attr) (e : ElementData) : ElementData :=
  if kept l2 x then e
  else mkElement (el_tagName e) (removeAttr (name x) (el_attributes e)) (el_childNodes e)
         (el_value e)
         (if String.eqb (name x) "checked" then Some false else el_checked e).

End TreeComparator.

(* ===================================================================== *)
(** ** Component: tagging, the parsing front of render, the policy       *)
(* ===================================================================== *)

Module Component.
Import TreeComparator.

(** The fields of a component that the modelled methods read or write. *)
Record Component := mkComponent {
  htmlNodeId : string;
  childComponentIds : list string;
  _previousVirtualDOM : option nid;
  _generatedIdsCounter : nat
}.

(** A number converted to a string, in decimal. *)
Definition decimal (n : nat) : string := NilZero.string_of_uint (Nat.to_uint n).

(** [_tagTree(tree)]: elements get a ['frontyid'] attribute, text and
    comment nodes get the prefix [__FTN__:<id>#]; the counter is
    incremented for each. The function takes and gives back
    [_generatedIdsCounter]; each call takes one unit of fuel. *)
Fixpoint _tagTree (fuel : nat) (tree : nid) (counter : nat) : M nat :=
  match fuel with
  | O => outOfFuel
  | S fuel' =>
      n ← getNode tree;
      match n with
      | Element e =>
          modifyNode tree (setAttribute "frontyid" (decimal counter));;
          (fix children (l : list nid) (counter : nat) : M nat :=
             match l with
             | [] => mret counter
             | c :: rest => counter' ← _tagTree fuel' c counter; children rest counter'
             end) (el_childNodes e) (S counter)
      | Text v | Comment v =>
          modifyNode tree (setNodeValue ("__FTN__:" +:+ decimal counter +:+ "#" +:+ v));;
          mret (S counter)
      end
  end.

(** [node.id]: the [id] attribute of an element, [""] when it has none;
    [undefined] on the other nodes. Either way falsy unless non-empty. *)
Definition nodeId (n : Node) : option string :=
  match n with
  | Element e => truthy (Some (default "" (lookupAttr "id" (el_attributes e))))
  | _ => None
  end.

(** [id in this.childComponentIds], a plain object. *)
Definition isChildId (c : Component) (i : string) : bool :=
  mem i (childComponentIds c) || mem i object_prototype_names.

(** [s.match(/fronty-text-node/) !== null]. *)
Fixpoint contains (p s : string) : bool :=
  match stripPrefix p s with
  | Some _ => true
  | None => match s with String _ s' => contains p s' | EmptyString => false end
  end.

(** The policy that [_renderNewTree] hands to [TreeComparator.diff]. *)
Definition renderPolicy (c : Component) (firstRender : bool) : policy :=
  λ σ node1 node2,
    if firstRender then REPLACE
    else
      match σ !! node1, σ !! node2 with
      | Some n1, Some n2 =>
          match nodeId n1 with
          | Some id1 =>
              if bool_decide (nodeId n2 = Some id1) && isChildId c id1 then SKIP
              else if isChildId c id1 then REPLACE
              else DIFF
          | None =>
              match n1 with
              | Comment v => if contains "fronty-text-node" v then SKIP else DIFF
              | _ => DIFF
              end
          end
      | _, _ => DIFF
      end.

(** [while (currentTree.firstChild) currentTree.removeChild(...)]. *)
Definition removeChildren (n : Node) : Node :=
  match n with
  | Element e =>
      Element (mkElement (el_tagName e) (el_attributes e) [] (el_value e) (el_checked e))
  | _ => n
  end.

(** [_renderNewTree(newTree)] up to the computation of [patches], with the
    assignment of the snapshot that a first render makes afterwards.
    [componentNode] is [_getComponentNode()], the element of the host tree.
    The application of the patches to the host tree and to the snapshot,
    and what follows it, are not part of this function. *)
Definition _renderNewTree (fuel : nat) (c : Component) (componentNode newTree : nid)
    : M (list patch * Component) :=
  let firstRender := bool_decide (_previousVirtualDOM c = None) in
  let currentTree := default componentNode (_previousVirtualDOM c) in
  (if firstRender then modifyNode currentTree removeChildren else mret tt);;
  counter ← (if firstRender then _tagTree fuel newTree (_generatedIdsCounter c)
             else mret (_generatedIdsCounter c));
  n ← getNode newTree;
  (match n with
   | Element _ => modifyNode newTree (setAttribute "id" (htmlNodeId c))
   | _ => mret tt
   end);;
  patches ← diff fuel currentTree newTree (Some (renderPolicy c firstRender));
  mret (patches,
        mkComponent (htmlNodeId c) (childComponentIds c)
          (if firstRender then Some newTree else _previousVirtualDOM c) counter).

(** *** The parsing front of [render] *)

Definition lower (c : ascii) : ascii :=
  let n := nat_of_ascii c in
  if (65 <=? n) && (n <=? 90) then ascii_of_nat (n + 32) else c.

Fixpoint lowerString (s : string) : string :=
  match s with
  | EmptyString => EmptyString
  | String c s' => String (lower c) (lowerString s')
  end.

(** [s.match(/^<tr .*/i) !== null] and [s.match(/^<t[dh] .*/i) !== null]:
    [.*] also matches nothing, so these test a prefix, whatever the case. *)
Definition startsWith (p s : string) : bool :=
  match stripPrefix p (lowerString s) with Some _ => true | None => false end.

Definition isRow (s : string) : bool := startsWith "<tr " s.
Definition isCell (s : string) : bool := startsWith "<td " s || startsWith "<th " s.

(** [node.firstChild], of a possibly [null] node. *)
Definition firstChild (node : option nid) : M (option nid) :=
  r ← defined node;
  n ← getNode r;
  mret (head (childNodes n)).

(** [newTree.appendChild(node)] on the child list of [newTree]: a node is
    added at the end; [null] is refused. *)
Definition appendChild (children : list nid) (node : option nid) : M (list nid) :=
  r ← defined node;
  mret (children ++ [r]).

Section Render.

(** A parsing service [parse(html, callback)] parses the markup and
    calls [callback] with one node; it is given here by the node it
    passes, [null] included. *)
Variable parse : string → M (option nid).

(** The string branch of [render], from the creation of [newTree] to
    the call of [_renderNewTree]: the result is the node that call
    receives. *)
Definition renderMarkup (htmlContents : string) : M nid :=
  let correctedHtmlContents :=
    if isRow htmlContents
    then "<table><tbody>" +:+ htmlContents +:+ "</tbody></table>"
    else if isCell htmlContents
    then "<table><tbody><tr>" +:+ htmlContents +:+ "</tr></tbody></table>"
    else htmlContents in
  node ← parse correctedHtmlContents;
  newTree ←
    (if isRow htmlContents then
       a ← firstChild node; b ← firstChild a; appendChild [] b
     else if isCell htmlContents then
       a ← firstChild node; b ← firstChild a; c ← firstChild b; appendChild [] c
     else appendChild [] node);
  if 1 <? length newTree then throw MustReturnSingleRoot
  else defined (head newTree).

End Render.

(** [Component._defaultParsingService]: the markup becomes the
    [innerHTML] of a fresh [div], and the callback receives
    [elem.firstChild]. [innerHTML] is the parser of the platform: it adds
    the parsed nodes to the store and gives the child list of the [div]. *)
Definition _defaultParsingService (innerHTML : string → store → list nid * store)
    (htmlContents : string) : M (option nid) :=
  λ σ, let '(roots, σ') := innerHTML htmlContents σ in (Done (head roots), σ').

End Component.

(* ===================================================================== *)
(** ** Model: observers                                                  *)
(* ===================================================================== *)

Module Model.

Section Model.

(** The user data of a model, the hints, and the observer functions
    (functions are compared by identity, so they are given names). *)
Context {Data Hint Observer : Type} `{EqDecision Observer}.

Record Model := mkModel {
  observers : list Observer;
  data : Data
}.

(** What has been called, in order. *)
Inductive event :=
| Update
| Notify (observer : Observer) (hint : option Hint).

(** How a call ends: it returns or it throws, and leaves the model and
    the record of calls as they are then. *)
Inductive ending :=
| Returns (m : Model) (log : list event)
| Throws (m : Model) (log : list event).

(** [m.notifyObservers], as an observer that has the model can call it:
    with a hint, on the model and the record of calls as they are at
    that time; [None] is a call that does not return. *)
Definition notifier : Type := option Hint → Model → list event → option ending.

(** What calling an observer with [(m, hint)] does. The observer holds
    the model: it may do anything to it, also to [m.observers], it may
    call [m.notifyObservers] itself (directly or through [m.set]), here
    its second argument, and then the observers called are in the record
    it leaves; it may return, throw, or not return ([None]). *)
Variable call : Observer → notifier → Model → option Hint → list event → option ending.

(** [addObserver(observer)]. *)
Definition addObserver (observer : Observer) (m : Model) : Model :=
  mkModel (observers m ++ [observer]) (data m).

(** [removeObserver(observer)]: the first occurrence, if any. *)
Fixpoint removeFirst (observer : Observer) (l : list Observer) : list Observer :=
  match l with
  | [] => []
  | x :: rest => if decide (x = observer) then rest else x :: removeFirst observer rest
  end.

Definition removeObserver (observer : Observer) (m : Model) : Model :=
  mkModel (removeFirst observer (observers m)) (data m).

(** The loop of [notifyObservers(hint)] from index [i]: the length and
    the element are read from [this.observers] at every turn, and an
    observer that throws ends the loop, which catches nothing. Every
    turn takes one unit of fuel, and so does every turn of a
    notification that an observer starts; [None] is out of fuel, or an
    observer that does not return. *)
Fixpoint notifyFrom (fuel : nat) (i : nat) (hint : option Hint) (m : Model)
    (log : list event) : option ending :=
  match fuel with
  | O => None
  | S fuel' =>
      match observers m !! i with
      | Some observer =>
          match call observer (λ hint' m' log', notifyFrom fuel' 0 hint' m' log')
                  m hint (log ++ [Notify observer hint]) with
          | Some (Returns m' log') => notifyFrom fuel' (S i) hint m' log'
          | Some (Throws m' log') => Some (Throws m' log')
          | None => None
          end
      | None => Some (Returns m log)
      end
  end.

Definition notifyObservers (fuel : nat) (hint : option Hint) (m : Model)
    (log : list event) : option ending :=
  notifyFrom fuel 0 hint m log.

(** [set(update, hint)]: [update(this)], then [notifyObservers(hint)].
    The update is taken to return. *)
Definition set (fuel : nat) (update : Model → Model) (hint : option Hint) (m : Model)
    : option ending :=
  notifyObservers fuel hint (update m) [Update].

(** [set] returns, and what it has called is [update], then every
    observer that was registered when the notification started, once
    each, in registration order, with the hint. *)
Definition notifiesEachOnce (update : Model → Model) (hint : option Hint) (m : Model)
    : Prop :=
  ∃ fuel m',
    set fuel update hint m
    = Some (Returns m' (Update :: ((λ o, Notify o hint) <$> observers (update m)))).

(** An observer that is registered when [set] ends, by returning or by
    throwing, without having been called. *)
Definition leftOut (update : Model → Model) (hint : option Hint) (m : Model)
    (observer : Observer) : Prop :=
  ∃ fuel m' log,
    (set fuel update hint m = Some (Returns m' log)
     ∨ set fuel update hint m = Some (Throws m' log))
    ∧ observer ∈ observers m' ∧ Notify observer hint ∉ log.

End Model.

End Model.

(* ===================================================================== *)
(** ** Inputs of the examples                                            *)
(* ===================================================================== *)

Module Examples.
Import TreeComparator Component.

(** [<li key="...">] and [<ul>] with the given children. *)
Definition li (key : string) : Node :=
  Element (mkElement "LI" [mkAttr "key" key] [] None None).

Definition ul (children : list nid) : Node :=
  Element (mkElement "UL" [] children None None).

(** Old list [[A(key=1), B(key=2), C(key=3)]] under node 0, new list
    [[C(key=3), A(key=1), B(key=2)]] under node 10. *)
Definition rotation : store :=
  list_to_map [ (0, ul [1; 2; 3]); (1, li "1"); (2, li "2"); (3, li "3");
                (10, ul [11; 12; 13]); (11, li "3"); (12, li "1"); (13, li "2") ].

(** The same old list, and the new list [[C(key=3), B(key=2), A(key=1)]]
    under node 10: A and C have changed places. *)
Definition transposition : store :=
  list_to_map [ (0, ul [1; 2; 3]); (1, li "1"); (2, li "2"); (3, li "3");
                (10, ul [11; 12; 13]); (11, li "3"); (12, li "2"); (13, li "1") ].

(** The key tables of the rotation. *)
Definition rotationIndex1 : KeyIndex :=
  index_set "3" (mkEntry 3 2)
    (index_set "2" (mkEntry 2 1) (index_set "1" (mkEntry 1 0) emptyIndex)).

Definition rotationIndex2 : KeyIndex :=
  index_set "2" (mkEntry 13 2)
    (index_set "1" (mkEntry 12 1) (index_set "3" (mkEntry 11 0) emptyIndex)).

(** The scan with both cursors at [i], nothing inserted or removed, the
    local array [arr] and the patches [r]. *)
Definition scanAt (i : nat) (arr : list nid) (r : list patch) : scan :=
  mkScan i i 0 0 (Some <$> arr) r.

(** The key table of a list [[a(key=1), b(key=2)]] and that of a list
    [[a(key=1), c(key=3), b(key=2)]]. *)
Definition keys12 (a b : nid) : KeyIndex :=
  index_set "2" (mkEntry b 1) (index_set "1" (mkEntry a 0) emptyIndex).

Definition keys132 (a c b : nid) : KeyIndex :=
  index_set "2" (mkEntry b 2)
    (index_set "3" (mkEntry c 1) (index_set "1" (mkEntry a 0) emptyIndex)).

(** Old list [[A(key=1), B(key=2)]] under node 0, new list
    [[A(key=1), C(key=3), B(key=2)]] under node 10. *)
Definition insertion : store :=
  list_to_map [ (0, ul [1; 2]); (1, li "1"); (2, li "2");
                (10, ul [11; 12; 13]); (11, li "1"); (12, li "3"); (13, li "2") ].

(** A host page with the element [<div id="app">] (node 0), and the
    output [<div>hi</div>] of a render function parsed twice: nodes 10, 11
    for the first call, nodes 20, 21 for the second. *)
Definition page : store :=
  list_to_map [ (0, Element (mkElement "DIV" [mkAttr "id" "app"] [] None None));
                (10, Element (mkElement "DIV" [] [11] None None)); (11, Text "hi");
                (20, Element (mkElement "DIV" [] [21] None None)); (21, Text "hi") ].

(** A text node carrying the marker of identifier 7, and a replacement. *)
Definition marked : store := {[ 1 := Text "__FTN__:7#old"; 2 := Text "new" ]}.

(** [<p class="a" lang="en" frontyid="3">] (node 1) and
    [<p title="t" class="b">] (node 2). *)
Definition restyled : store :=
  {[ 1 := Element (mkElement "P"
            [mkAttr "class" "a"; mkAttr "lang" "en"; mkAttr "frontyid" "3"] [] None None);
     2 := Element (mkElement "P" [mkAttr "title" "t"; mkAttr "class" "b"] [] None None) ]}.

Definition app : Component := mkComponent "app" [] None 0.

(** The first render of [app], then a second one with the same output. *)
Definition renderTwice (fuel : nat) : M (list patch * Component) :=
  '(_, app') ← _renderNewTree fuel app 0 10;
  _renderNewTree fuel app' 0 20.

(** A parser for the markup [<div>a</div><div>b</div>]: two roots, nodes
    1 and 2. *)
Definition twoRoots : string → store → list nid * store := λ _ σ, ([1; 2], σ).

(** Two observers, 0 and 1; observer 0 unregisters itself when called,
    as the updater of a [ModelComponent] does when the component is
    stopped by what it renders. *)
Definition selfRemoving (observer : nat) (again : @Model.notifier unit unit nat)
    (m : @Model.Model unit nat) (hint : option unit) (log : list (@Model.event unit nat))
    : option (@Model.ending unit unit nat) :=
  Some (Model.Returns (if observer =? 0 then Model.removeObserver 0 m else m) log).

Definition twoObservers : @Model.Model unit nat := Model.mkModel [0; 1] tt.

(** Observers that change nothing. *)
Definition idle (observer : nat) (again : @Model.notifier unit unit nat)
    (m : @Model.Model unit nat) (hint : option unit) (log : list (@Model.event unit nat))
    : option (@Model.ending unit unit nat) :=
  Some (Model.Returns m log).

(** Observer 0 throws. *)
Definition throwing (observer : nat) (again : @Model.notifier unit unit nat)
    (m : @Model.Model unit nat) (hint : option unit) (log : list (@Model.event unit nat))
    : option (@Model.ending unit unit nat) :=
  if observer =? 0 then Some (Model.Throws m log) else Some (Model.Returns m log).

(** Observer 0 calls [m.notifyObservers(hint)] itself, the first time it
    is called (the model's data tell whether it has been). *)
Definition reentering (observer : nat) (again : @Model.notifier bool unit nat)
    (m : @Model.Model bool nat) (hint : option unit) (log : list (@Model.event unit nat))
    : option (@Model.ending bool unit nat) :=
  if (observer =? 0) && negb (Model.data m)
  then again hint (Model.mkModel (Model.observers m) true) log
  else Some (Model.Returns m log).

Definition twoObserversOnce : @Model.Model bool nat := Model.mkModel [0; 1] false.

End Examples.

(* ===================================================================== *)
(** ** The key tables of [_buildChildrenKeyIndex]: vocabulary           *)
(* ===================================================================== *)

Module KeyTable.
Import TreeComparator.

(** The key under which [_buildChildrenKeyIndex] records a child: that of
    an element whose [key] attribute is neither absent nor empty. *)
Definition childKey (σ : store) (c : nid) : option string :=
  match σ !! c with
  | Some (Element e) => truthy (lookupAttr "key" (el_attributes e))
  | _ => None
  end.

(** The slot of a key table that an assignment to [key] writes and that
    [index[key]] reads back. *)
Definition slot (idx : KeyIndex) (key : string) : option IndexEntry :=
  if String.eqb key "__proto__" then proto idx else own idx !! key.

(** A table in which ["__proto__"] is no own property, as in every table
    filled by assignments. *)
Definition assigned (idx : KeyIndex) : Prop := own idx !! "__proto__" = None.

(** [k] is the key of the child at position [p], and of no later child. *)
Definition lastWithKey (σ : store) (children : list nid) (k : string) (p : nat) : Prop :=
  children !! p ≫= childKey σ = Some k
  ∧ ∀ q, p < q → children !! q ≫= childKey σ ≠ Some k.

End KeyTable.

(* ===================================================================== *)
(** ** Trees that agree, child lists that are filled or cleared: vocabulary *)
(* ===================================================================== *)

Module Shape.
Import TreeComparator.

(** Two subtrees of depth at most [h] that agree node by node: text and
    comment nodes have the same value; elements have the same tag, the
    same attributes but for ['frontyid'] in the same order (what
    [_equalAttributes] tests), and children that agree pairwise. *)
Fixpoint sameTree (h : nat) (σ : store) (a b : nid) : Prop :=
  match h with
  | O => False
  | S h' =>
      match σ !! a, σ !! b with
      | Some (Text v), Some (Text w) => v = w
      | Some (Comment v), Some (Comment w) => v = w
      | Some (Element ea), Some (Element eb) =>
          el_tagName ea = el_tagName eb
          ∧ _equalAttributes (Element ea) (Element eb) = true
          ∧ Forall2 (sameTree h' σ) (el_childNodes ea) (el_childNodes eb)
      | _, _ => False
      end
  end.

(** Every reference of the list is to a node of the store. *)
Definition allNodes (σ : store) (l : list nid) : Prop := Forall (λ c, is_Some (σ !! c)) l.

(** An empty [<ul>] (node 0) and a [<ul>] with two items (node 10). *)
Definition filling : store :=
  list_to_map [ (0, Examples.ul []);
                (10, Examples.ul [11; 12]); (11, Examples.li "1"); (12, Examples.li "2") ].

End Shape.

(* ===================================================================== *)
(** ** Trees without keys: vocabulary                                   *)
(* ===================================================================== *)

Module Keyless.
Import TreeComparator.

(** A tree of height less than [h], all of whose references lead to
    nodes, and none of whose elements has a [key] attribute. *)
Fixpoint keyless (h : nat) (σ : store) (r : nid) : Prop :=
  match h with
  | O => False
  | S h' =>
      match σ !! r with
      | Some (Element e) =>
          lookupAttr "key" (el_attributes e) = None
          ∧ Forall (keyless h' σ) (el_childNodes e)
      | Some _ => True
      | None => False
      end
  end.

(** [diff] returns for the pair as soon as it is given [enough] steps,
    and always the same patch list. *)
Definition returnsWithin (σ : store) (enough : nat) (node1 node2 : nid) : Prop :=
  ∃ ps, ∀ fuel, enough ≤ fuel → diff fuel node1 node2 None σ = (Done ps, σ).

(** [<div><p>a</p>b</div>] (nodes 1 to 4) and
    [<div>b<p>c</p><p>d</p></div>] (nodes 11 to 16). *)
Definition paragraphs : store :=
  list_to_map
    [ (1, Element (mkElement "DIV" [] [2; 4] None None));
      (2, Element (mkElement "P" [] [3] None None)); (3, Text "a"); (4, Text "b");
      (11, Element (mkElement "DIV" [] [12; 13; 15] None None)); (12, Text "b");
      (13, Element (mkElement "P" [] [14] None None)); (14, Text "c");
      (15, Element (mkElement "P" [] [16] None None)); (16, Text "d") ].

End Keyless.

(* ===================================================================== *)
(** ** The positions of [insert-node] patches: vocabulary               *)
(* ===================================================================== *)

Module Inserts.
Import TreeComparator.

(** An ['insert-node'] patch whose [beforePos] is the position that the
    inserted node has in the child list of a node of the store. *)
Definition placed (σ : store) (p : patch) : Prop :=
  match p with
  | InsertNode _ replacement beforePos =>
      (0 ≤ beforePos)%Z
      ∧ ∃ parent n, σ !! parent = Some n
                    ∧ childNodes n !! Z.to_nat beforePos = Some replacement
  | _ => True
  end.

(** The counters of the scan: what [beforePos] is computed from equals
    the cursor in the new list. *)
Definition balanced (s : scan) : Prop :=
  child1pos s + insertions s = child2pos s + deletions s.

End Inserts.

(* ===================================================================== *)
(** ** Keys named like members of [Object.prototype]: inputs            *)
(* ===================================================================== *)

Module InheritedKeys.
Import TreeComparator.

(** Old list [[A(key=a)]] under node 0, new list
    [[B(key=toString), A(key=a)]] under node 10. *)
Definition renamed : store :=
  list_to_map [ (0, Examples.ul [1]); (1, Examples.li "a");
                (10, Examples.ul [11; 12]); (11, Examples.li "toString");
                (12, Examples.li "a") ].

End InheritedKeys.

(* ===================================================================== *)
(** ** The copy of the child list: inputs                               *)
(* ===================================================================== *)

Module Swaps.
Import TreeComparator.

(** The copy of a child list with three children, the last slot already
    [undefined]. *)
Definition slots : list (option nid) := [Some 1; Some 2; None].

End Swaps.

(* ===================================================================== *)
(** ** Attribute lists in another order: vocabulary                     *)
(* ===================================================================== *)

Module Reordered.
Import TreeComparator.

(** [<p class="a" lang="en">] (node 1) and [<p lang="en" class="a">]
    (node 2): the same attributes, written in another order. *)
Definition reordered : store :=
  {[ 1 := Element (mkElement "P" [mkAttr "class" "a"; mkAttr "lang" "en"] [] None None);
     2 := Element (mkElement "P" [mkAttr "lang" "en"; mkAttr "class" "a"] [] None None) ]}.

(** The same attribute names on both sides as far as ['frontyid'] goes. *)
Definition sameTagging (l1 l2 : list Attr) : Prop :=
  lookupAttr "frontyid" l1 = None ↔ lookupAttr "frontyid" l2 = None.

End Reordered.

(* ===================================================================== *)
(** ** Component: [_indexNodes] and [_resolveRealNode]                  *)
(* ===================================================================== *)

Module RealNodes.
Import TreeComparator Component.

(** The identifier marker that [_tagTree] writes for the counter value
    [counter]. *)
Definition marker (counter : nat) : string := "__FTN__:" +:+ decimal counter +:+ "#".

(** The regular expression [/^__FTN__:([0-9]+)#/]: the identifier
    [match[1]] and what follows [match[0]] in the value, or [None] for
    [null]. *)
Definition matchIdentifier (v : string) : option (string * string) :=
  match stripPrefix "__FTN__:" v with
  | Some rest =>
      match spanDigits rest with
      | (String d ds, String "#" payload) => Some (String d ds, payload)
      | _ => None
      end
  | None => None
  end.

(** A plain object [{}] whose values are nodes, as
    [_realDOMNodeMapping.elements]: its own properties and, once a node
    has been assigned to ["__proto__"], the node that replaces its
    prototype. *)
Record NodeObject := mkNodeObject {
  properties : gmap string nid;
  prototype : option nid
}.

Definition emptyObject : NodeObject := mkNodeObject ∅ None.

(** [object[key] = node]. *)
Definition object_set (key : string) (r : nid) (o : NodeObject) : NodeObject :=
  if String.eqb key "__proto__" then mkNodeObject (properties o) (Some r)
  else mkNodeObject (<[key := r]> (properties o)) (prototype o).

(** What [object[key]] reads: a node held by the object (an own
    property, or the node installed as prototype read back through
    ["__proto__"]), a value found further up the prototype chain
    ([Inherited]: a member of [Object.prototype], or whatever the node
    installed as prototype answers), or [undefined]. *)
Inductive property := Held (r : nid) | Inherited | Missing.

Definition object_get (key : string) (o : NodeObject) : property :=
  match properties o !! key with
  | Some r => Held r
  | None =>
      match prototype o with
      | Some r => if String.eqb key "__proto__" then Held r else Inherited
      | None => if mem key object_prototype_names then Inherited else Missing
      end
  end.

(** The tables that [_indexNodes] fills: [_realDOMNodeMapping.elements],
    [_realDOMNodeMapping.text_nodes], [_mappingIdsOfChilds] and
    [_nodesWithFrontyComponentAttribute]. The keys of [text_nodes] are
    digit strings, and the values of [_mappingIdsOfChilds] are strings,
    which an assignment to ["__proto__"] ignores. *)
Record Indexes := mkIndexes {
  elements : NodeObject;
  text_nodes : gmap string nid;
  _mappingIdsOfChilds : gmap string string;
  _nodesWithFrontyComponentAttribute : list nid
}.

(** What [_resetVirtualDOM] installs. *)
Definition noIndexes : Indexes := mkIndexes emptyObject ∅ ∅ [].

(** The [frontyid] branch of [_indexNodes] on an element. *)
Definition indexElement (c : Component) (root : nid) (e : ElementData) (frontyid : string)
    (ix : Indexes) : Indexes :=
  mkIndexes (object_set frontyid root (elements ix)) (text_nodes ix)
    (match lookupAttr "id" (el_attributes e) with
     | Some i =>
         if isChildId c i && negb (String.eqb frontyid "__proto__")
         then <[frontyid := i]> (_mappingIdsOfChilds ix)
         else _mappingIdsOfChilds ix
     | None => _mappingIdsOfChilds ix
     end)
    (_nodesWithFrontyComponentAttribute ix).

(** [_indexNodes(root)]: the tables are taken and given back; each call
    takes one unit of fuel. Reading [match[1]] of a text or comment value
    without marker is a [TypeError]. *)
Fixpoint _indexNodes (fuel : nat) (c : Component) (root : nid) (ix : Indexes)
    : M Indexes :=
  match fuel with
  | O => outOfFuel
  | S fuel' =>
      n ← getNode root;
      match n with
      | Element e =>
          ix1 ← match lookupAttr "frontyid" (el_attributes e) with
                | Some frontyid =>
                    modifyNode root (removeAttribute "frontyid");;
                    mret (indexElement c root e frontyid ix)
                | None => mret ix
                end;
          let ix2 :=
            if hasAttribute n "fronty-component"
            then mkIndexes (elements ix1) (text_nodes ix1) (_mappingIdsOfChilds ix1)
                   (_nodesWithFrontyComponentAttribute ix1 ++ [root])
            else ix1 in
          (fix children (l : list nid) (ix : Indexes) : M Indexes :=
             match l with
             | [] => mret ix
             | child :: rest => ix' ← _indexNodes fuel' c child ix; children rest ix'
             end) (el_childNodes e) ix2
      | Text v | Comment v =>
          '(id, payload) ← defined (matchIdentifier v);
          modifyNode root (setNodeValue payload);;
          mret (mkIndexes (elements ix) (<[id := root]> (text_nodes ix))
                  (_mappingIdsOfChilds ix) (_nodesWithFrontyComponentAttribute ix))
      end
  end.

(** What [_resolveRealNode] returns: a node, [null], [undefined], or a
    value inherited by the [elements] object. *)
Inductive resolved := RealNode (r : nid) | Null | Undefined | Foreign.

Section Resolve.

(** [document.getElementById]. *)
Variable getElementById : string → M (option nid).

(** [_resolveRealNode(node)]. A text or comment node has no [id], and
    an element always has one (the empty string when the attribute is
    absent): the search by [id] is that of an element without
    ['frontyid']. *)
Definition _resolveRealNode (ix : Indexes) (node : nid) : M resolved :=
  n ← getNode node;
  match n with
  | Text v | Comment v =>
      '(id, _) ← defined (matchIdentifier v);
      mret (match text_nodes ix !! id with Some r => RealNode r | None => Undefined end)
  | Element e =>
      match lookupAttr "frontyid" (el_attributes e) with
      | Some elem_id =>
          mret (match object_get elem_id (elements ix) with
                | Held r => RealNode r
                | Inherited => Foreign
                | Missing => Undefined
                end)
      | None =>
          found ← getElementById (default "" (lookupAttr "id" (el_attributes e)));
          mret (match found with Some r => RealNode r | None => Null end)
      end
  end.

End Resolve.

(** A text node tagged with the marker of identifier 7 (node 1), a
    second copy of it (node 3), and a replacement (node 2). *)
Definition tagged : store :=
  {[ 1 := Text "__FTN__:7#old"; 2 := Text "new"; 3 := Text "__FTN__:7#old" ]}.

(** Two tagged text nodes (nodes 1 and 2) and a copy of the first
    (node 3). *)
Definition twice : store :=
  {[ 1 := Text "__FTN__:7#old"; 2 := Text "__FTN__:8#new"; 3 := Text "__FTN__:7#old" ]}.

(** Two text nodes. *)
Definition plain : store := {[ 1 := Text "old"; 2 := Text "new" ]}.

End RealNodes.

(* ===================================================================== *)
(** ** Component: the trees that [_tagTree] walks                       *)
(* ===================================================================== *)

Module Tagging.
Import TreeComparator Component RealNodes.

(** The nodes of the tree below [r], [r] included, in document order;
    [h] bounds the height. *)
Fixpoint preorder (h : nat) (σ : store) (r : nid) : list nid :=
  match h with
  | O => []
  | S h' =>
      match σ !! r with
      | Some (Element e) => r :: concat (preorder h' σ <$> el_childNodes e)
      | Some _ => [r]
      | None => []
      end
  end.

(** Every reference below [r] leads to a node, and the height of the
    tree is less than [h]. *)
Fixpoint within (h : nat) (σ : store) (r : nid) : Prop :=
  match h with
  | O => False
  | S h' =>
      match σ !! r with
      | Some (Element e) => Forall (within h' σ) (el_childNodes e)
      | Some _ => True
      | None => False
      end
  end.

(** What [_tagTree] does to one node when the counter is [counter]. *)
Definition tagNode (counter : nat) (n : Node) : Node :=
  match n with
  | Element _ => setAttribute "frontyid" (decimal counter) n
  | _ => setNodeValue (marker counter +:+ toString (nodeValue n)) n
  end.

(** The nodes of a list tagged one after the other, from [counter] on. *)
Fixpoint tagAll (nodes : list nid) (counter : nat) (σ : store) : store :=
  match nodes with
  | [] => σ
  | r :: rest => tagAll rest (S counter) (alter (tagNode counter) r σ)
  end.

(** The loop of [_tagTree] over the children of an element. *)
Definition tagChildren (fuel : nat) : list nid → nat → M nat :=
  fix children (l : list nid) (counter : nat) : M nat :=
    match l with
    | [] => mret counter
    | c :: rest => counter' ← _tagTree fuel c counter; children rest counter'
    end.

(** The child list of a node, if it is an element. *)
Definition shape (n : option Node) : option (option (list nid)) :=
  match n with
  | Some (Element e) => Some (Some (el_childNodes e))
  | Some _ => Some None
  | None => None
  end.

(** [<ul><li>a</li>b</ul>]: nodes 1 (ul), 2 (li), 3 (a), 4 (b). *)
Definition listing : store :=
  list_to_map
    [ (1, Element (mkElement "UL" [] [2; 4] None None));
      (2, Element (mkElement "LI" [] [3] None None)); (3, Text "a"); (4, Text "b") ].

End Tagging.

(* ===================================================================== *)
(** ** Component: what [_indexNodes] records for a tagged tree          *)
(* ===================================================================== *)

Module Indexing.
Import TreeComparator Component RealNodes Tagging.

(** The loop of [_indexNodes] over the children of an element. *)
Definition indexChildNodes (fuel : nat) (c : Component) : list nid → Indexes → M Indexes :=
  fix children (l : list nid) (ix : Indexes) : M Indexes :=
    match l with
    | [] => mret ix
    | child :: rest => ix' ← _indexNodes fuel c child ix; children rest ix'
    end.

(** What [_indexNodes] records for the node [x] of the tree [σ] once it
    carries the identifier [counter]. *)
Definition registerNode (c : Component) (σ : store) (counter : nat) (x : nid)
    (ix : Indexes) : Indexes :=
  match σ !! x with
  | Some (Element e) =>
      let ix1 := indexElement c x e (decimal counter) ix in
      if hasAttribute (Element e) "fronty-component"
      then mkIndexes (elements ix1) (text_nodes ix1) (_mappingIdsOfChilds ix1)
             (_nodesWithFrontyComponentAttribute ix1 ++ [x])
      else ix1
  | Some _ =>
      mkIndexes (elements ix) (<[decimal counter := x]> (text_nodes ix))
        (_mappingIdsOfChilds ix) (_nodesWithFrontyComponentAttribute ix)
  | None => ix
  end.

Fixpoint registerAll (c : Component) (σ : store) (nodes : list nid) (counter : nat)
    (ix : Indexes) : Indexes :=
  match nodes with
  | [] => ix
  | x :: rest => registerAll c σ rest (S counter) (registerNode c σ counter x ix)
  end.

(** No element of the list carries a ['frontyid'] attribute. *)
Definition untagged (σ : store) (nodes : list nid) : Prop :=
  ∀ x e, x ∈ nodes → σ !! x = Some (Element e) →
         lookupAttr "frontyid" (el_attributes e) = None.

(** The node [x] is recorded under the identifier [counter]: in
    [elements] if it is an element, in [text_nodes] otherwise. *)
Definition recorded (σ : store) (ix : Indexes) (counter : nat) (x : nid) : Prop :=
  match σ !! x with
  | Some (Element _) => object_get (decimal counter) (elements ix) = Held x
  | Some _ => text_nodes ix !! decimal counter = Some x
  | None => False
  end.

End Indexing.

(* ===================================================================== *)
(** ** A first render: inputs                                           *)
(* ===================================================================== *)

Module FirstRender.
Import TreeComparator Component.

(** A host page with the element [<div id="app">old</div>] (nodes 0 and
    5), and the parsed output [<ul><li>a</li>b</ul>] of a render function:
    nodes 1 (ul), 2 (li), 3 (a), 4 (b). *)
Definition hosting : store :=
  list_to_map
    [ (0, Element (mkElement "DIV" [mkAttr "id" "app"] [5] None None)); (5, Text "old");
      (1, Element (mkElement "UL" [] [2; 4] None None));
      (2, Element (mkElement "LI" [] [3] None None)); (3, Text "a"); (4, Text "b") ].

End FirstRender.

(* ===================================================================== *)
(** ** The tree operations behind [applyPatches]                        *)
(* ===================================================================== *)

Module Patching.
Import TreeComparator Tagging.

(** *** The tree operations of the DOM that [applyPatches] calls

    [removeChild], [appendChild], [insertBefore] and [replaceChild] are
    the platform's; they are written here after the algorithms "remove",
    "pre-insert" and "replace" of the DOM standard, for element, text and
    comment nodes. The store keeps the child list of each element; the
    parent of a node is the node whose child list holds it (the DOM
    keeps both in step, and no node in two child lists). *)

(** [node.parentNode]; [null] is [None]. *)
Definition parentNode (σ : store) (x : nid) : option nid :=
  fst <$> head (List.filter (λ pn : nid * Node, bool_decide (x ∈ childNodes pn.2))
                  (map_to_list σ)).

Definition withChildren (f : list nid → list nid) (n : Node) : Node :=
  match n with
  | Element e =>
      Element (mkElement (el_tagName e) (el_attributes e) (f (el_childNodes e))
                 (el_value e) (el_checked e))
  | _ => n
  end.

(** A child list without the node [x]. *)
Definition without (x : nid) (l : list nid) : list nid :=
  List.filter (λ y, negb (bool_decide (y = x))) l.

(** The DOM's "remove": the node leaves the child list of its parent, if
    it has one. *)
Definition detach (x : nid) (σ : store) : store :=
  match parentNode σ x with
  | Some p => alter (withChildren (without x)) p σ
  | None => σ
  end.

(** [x.nextSibling] in a child list. *)
Fixpoint nextSibling (x : nid) (l : list nid) : option nid :=
  match l with
  | [] => None
  | y :: rest => if bool_decide (y = x) then head rest else nextSibling x rest
  end.

(** A child list with [x] put before [reference], or last when
    [reference] is [null] (or not in the list). *)
Fixpoint before (reference : option nid) (x : nid) (l : list nid) : list nid :=
  match l with
  | [] => [x]
  | y :: rest =>
      if bool_decide (reference = Some y) then x :: y :: rest
      else y :: before reference x rest
  end.

(** [x] is an inclusive ancestor of [parent]: [parent] is one of the
    nodes of the tree below [x]. A tree has no more levels than the
    store has nodes. *)
Definition inclusiveAncestor (σ : store) (x parent : nid) : bool :=
  bool_decide (parent ∈ preorder (S (size σ)) σ x).

(** What a patch can throw: a JavaScript exception of the engine's own
    code, or a [DOMException] of the platform, by name. *)
Inductive thrown :=
| Js (e : error)
| HierarchyRequestError
| NotFoundError.

(** A tree operation ends with the store it leaves and, when it throws,
    with what it throws. *)
Definition D : Type := store → option thrown * store.

Definition andThen (first second : D) : D :=
  λ σ, match first σ with
       | (None, σ') => second σ'
       | (Some t, σ') => (Some t, σ')
       end.

(** [parent.insertBefore(x, reference)], and [parent.appendChild(x)] for
    a [null] reference: the DOM's "pre-insert". A text or comment node
    takes no child; a node is not put below itself; the reference is a
    child of [parent]. When the reference is [x] itself, it is the next
    sibling of [x] that counts. *)
Definition insertBefore (parent x : nid) (reference : option nid) : D :=
  λ σ,
    match σ !! parent with
    | Some (Element e) =>
        if inclusiveAncestor σ x parent then (Some HierarchyRequestError, σ)
        else if match reference with
                | Some r => negb (bool_decide (r ∈ el_childNodes e))
                | None => false
                end
        then (Some NotFoundError, σ)
        else
          let referenceChild :=
            if bool_decide (reference = Some x) then nextSibling x (el_childNodes e)
            else reference in
          (None, alter (withChildren (before referenceChild x)) parent (detach x σ))
    | Some _ => (Some HierarchyRequestError, σ)
    | None => (Some (Js TypeError), σ)
    end.

Definition appendChild (parent x : nid) : D := insertBefore parent x None.

(** [x.parentNode.removeChild(x)]. *)
Definition removeFromParent (x : nid) : D :=
  λ σ, match parentNode σ x with
       | Some _ => (None, detach x σ)
       | None => (Some (Js TypeError), σ)
       end.

(** [toReplace.parentNode.replaceChild(replacement, toReplace)]: the
    DOM's "replace". *)
Definition replaceInParent (toReplace replacement : nid) : D :=
  λ σ,
    match parentNode σ toReplace with
    | Some parent =>
        match σ !! parent with
        | Some (Element e) =>
            if inclusiveAncestor σ replacement parent then (Some HierarchyRequestError, σ)
            else
              let next := nextSibling toReplace (el_childNodes e) in
              let referenceChild :=
                if bool_decide (next = Some replacement)
                then nextSibling replacement (el_childNodes e) else next in
              (None, alter (withChildren (before referenceChild replacement)) parent
                       (detach replacement (detach toReplace σ)))
        | _ => (Some (Js TypeError), σ)
        end
    | None => (Some (Js TypeError), σ)
    end.

(** [document.createElement("div")]: a new element, in no child list. *)
Definition createElement (tag : string) (σ : store) : nid * store :=
  let r := fresh (dom σ) in
  (r, <[r := Element (mkElement tag [] [] None None)]> σ).

(** [x.parentNode.insertBefore(y, x)]. *)
Definition insertBeforeInParent (x y : nid) : D :=
  λ σ, match parentNode σ x with
       | Some p => insertBefore p y (Some x) σ
       | None => (Some (Js TypeError), σ)
       end.

(** [TreeComparator._swapElements(obj1, obj2)]; [obj2] may be
    [undefined]. *)
Definition _swapElements (obj1 : nid) (obj2 : option nid) : D :=
  λ σ,
    let '(temp, σ1) := createElement "DIV" σ in
    andThen (insertBeforeInParent obj1 temp)
      (match obj2 with
       | Some obj2 =>
           andThen (insertBeforeInParent obj2 obj1)
             (andThen (insertBeforeInParent temp obj2) (removeFromParent temp))
       | None => λ σ, (Some (Js TypeError), σ)
       end) σ1.

(** A computation of the engine that takes no fuel, as a tree
    operation. *)
Definition engine (m : M unit) : D :=
  λ σ, match m σ with
       | (Throws e, σ') => (Some (Js e), σ')
       | (_, σ') => (None, σ')
       end.

(** One turn of the loop of [applyPatches(patches, skipAttributes)],
    without [patchMapping]. *)
Definition applyPatch (skipAttributes : option (list string)) (p : patch) : D :=
  match p with
  | Attributes toReplace replacement =>
      engine (applyAttributes skipAttributes toReplace replacement)
  | NodeValue toReplace replacement => engine (applyNodeValue toReplace replacement)
  | RemoveNode toReplace => removeFromParent toReplace
  | AppendChild toReplace replacement => appendChild toReplace replacement
  | InsertNode toReplace replacement beforePos =>
      λ σ, match σ !! toReplace with
           | Some n =>
               if length (childNodes n) =? 0 then appendChild toReplace replacement σ
               else insertBefore toReplace replacement
                      (if (beforePos <? 0)%Z then None
                       else childNodes n !! Z.to_nat beforePos) σ
           | None => (Some (Js TypeError), σ)
           end
  | SwapNodes toReplace replacement => _swapElements toReplace replacement
  | ReplaceSubtree toReplace replacement => replaceInParent toReplace replacement
  end.

(** [applyPatches(patches, skipAttributes)]. *)
Fixpoint applyPatches (skipAttributes : option (list string)) (patches : list patch) : D :=
  match patches with
  | [] => λ σ, (None, σ)
  | p :: rest => andThen (applyPatch skipAttributes p) (applyPatches skipAttributes rest)
  end.

(** The element [e] with the child list [l]. *)
Definition kids (l : list nid) (e : ElementData) : ElementData :=
  mkElement (el_tagName e) (el_attributes e) l (el_value e) (el_checked e).

(** The node [x] is in no child list. *)
Definition orphan (σ : store) (x : nid) : Prop :=
  map_Forall (λ (_ : nid) n, x ∉ childNodes n) σ.

(** The node [x] is in the child list of the element [p], and in no
    other. *)
Definition childOf (σ : store) (x p : nid) : Prop :=
  (∃ e, σ !! p = Some (Element e) ∧ x ∈ el_childNodes e)
  ∧ map_Forall (λ (p' : nid) n', x ∈ childNodes n' → p' = p) σ.

(** The node [p] is not in the tree below [x]. *)
Definition apart (σ : store) (x p : nid) : Prop := ∀ h, p ∉ preorder h σ x.

(** A child list with [a] and [b] exchanged, and with [b] in the place
    of [a]. *)
Definition exchange (a b : nid) (l : list nid) : list nid :=
  (λ y, if bool_decide (y = a) then b else if bool_decide (y = b) then a else y) <$> l.

Definition substitute (a b : nid) (l : list nid) : list nid :=
  (λ y, if bool_decide (y = a) then b else y) <$> l.

(** A child list without the nodes of [xs]. *)
Definition withoutAll (xs : list nid) (l : list nid) : list nid :=
  foldl (λ l x, without x l) l xs.

(** A [<ul>] (node 0) with three items, and a new [<ul>] (node 10) with
    two. *)
Definition lists : store :=
  list_to_map [ (0, Examples.ul [1; 2; 3]); (1, Examples.li "1"); (2, Examples.li "2");
                (3, Examples.li "3");
                (10, Examples.ul [11; 12]); (11, Examples.li "4"); (12, Examples.li "5") ].

End Patching.

(* ===================================================================== *)
(** ** Component slots: inputs                                          *)
(* ===================================================================== *)

Module Slots.
Import TreeComparator Component.

(** A snapshot [<div id="valueOf">old</div>] (nodes 1, 2) and a new tree
    [<div id="valueOf">new</div>] (nodes 11, 12). *)
Definition namedLikeAMember : store :=
  list_to_map
    [ (1, Element (mkElement "DIV" [mkAttr "id" "valueOf"] [2] None None)); (2, Text "old");
      (11, Element (mkElement "DIV" [mkAttr "id" "valueOf"] [12] None None));
      (12, Text "new") ].

End Slots.

(* ===================================================================== *)
(** ** Observers that register observers: inputs                        *)
(* ===================================================================== *)

Module Observers.

(** An observer that registers a further observer (itself) with the
    model each time it is called. *)
Definition reRegistering (observer : nat) (again : @Model.notifier unit unit nat)
    (m : @Model.Model unit nat) (hint : option unit) (log : list (@Model.event unit nat))
    : option (@Model.ending unit unit nat) :=
  Some (Model.Returns (Model.addObserver observer m) log).

End Observers.

(* ===================================================================== *)
(** ** The benchmark application: store, items and user actions         *)
(* ===================================================================== *)

Module Benchmark.

(** The fields of a [StoreItem] that the benchmark reads and writes.
    ([store] is the one store of the application.) *)
Record StoreItem := mkStoreItem {
  id : nat;
  label : string;
  selected : bool
}.

(** The objects the benchmark works on: the [StoreItem] objects, by
    reference; [store.data] and [store.lastSelected] ([null] is [None]);
    the counter [MainComponent.id]; how many values have been drawn from
    the random source; and the models on which [set] has notified the
    observers, in order ([None] is the store, [Some r] the item [r]).
    What the observers do (the components render) is not part of the
    model: they read these objects and do not write them. *)
Record World := mkWorld {
  heap : gmap nat StoreItem;
  data : list nat;
  lastSelected : option nat;
  nextId : nat;
  drawn : nat;
  notified : list (option nat)
}.

(** [new Main()]: an empty store, and [MainComponent.id = 1]. *)
Definition start : World := mkWorld ∅ [] None 1 0 [].

Definition adjectives : list string :=
  ["pretty"; "large"; "big"; "small"; "tall"; "short"; "long"; "handsome"; "plain";
   "quaint"; "clean"; "elegant"; "easy"; "angry"; "crazy"; "helpful"; "mushy"; "odd";
   "unsightly"; "adorable"; "important"; "inexpensive"; "cheap"; "expensive"; "fancy"].

Definition colours : list string :=
  ["red"; "yellow"; "blue"; "green"; "pink"; "brown"; "purple"; "brown"; "white";
   "black"; "orange"].

Definition nouns : list string :=
  ["table"; "chair"; "house"; "bbq"; "desk"; "car"; "pony"; "cookie"; "sandwich";
   "burger"; "pizza"; "mouse"; "keyboard"].

(** [_random(max)], given the value of [Math.round(Math.random() * 1000)]. *)
Definition _random (max : nat) (rounded : nat) : nat := rounded mod max.

(** [array[_random(array.length)]]; an index out of range reads
    [undefined], which the concatenation turns into ["undefined"]. *)
Definition pick (array : list string) (rounded : nat) : string :=
  default "undefined" (array !! _random (length array) rounded).

(** [model.set(update)]: the update runs, then the observers of the
    model are notified. *)
Definition set (model : option nat) (update : World → World) (w : World) : World :=
  let w' := update w in
  mkWorld (heap w') (data w') (lastSelected w') (nextId w') (drawn w')
    (notified w' ++ [model]).

Definition withData (rows : list nat) (w : World) : World :=
  mkWorld (heap w) rows (lastSelected w) (nextId w) (drawn w) (notified w).

Definition withItem (r : nat) (f : StoreItem → StoreItem) (w : World) : World :=
  mkWorld (alter f r (heap w)) (data w) (lastSelected w) (nextId w) (drawn w) (notified w).

Section Random.

(** The values [Math.round(Math.random() * 1000)] takes, call after
    call. *)
Variable rounded : nat → nat.

(** One turn of the loop of [buildRandomStoreItems]: [this.id++], the
    three draws of the label from left to right, and the new object. *)
Definition newStoreItem (w : World) : World * nat :=
  let r := fresh (dom (heap w)) in
  let text := pick adjectives (rounded (drawn w)) +:+ " "
              +:+ pick colours (rounded (S (drawn w))) +:+ " "
              +:+ pick nouns (rounded (S (S (drawn w)))) in
  (mkWorld (<[r := mkStoreItem (nextId w) text false]> (heap w)) (data w)
     (lastSelected w) (S (nextId w)) (3 + drawn w) (notified w), r).

(** [buildRandomStoreItems(count)]: the array built so far is [rows]. *)
Fixpoint buildRandomStoreItems (count : nat) (rows : list nat) (w : World)
    : World * list nat :=
  match count with
  | O => (w, rows)
  | S count' =>
      let '(w', r) := newStoreItem w in
      buildRandomStoreItems count' (rows ++ [r]) w'
  end.

(** [createNewRows(count)]. *)
Definition createNewRows (count : nat) : World → World :=
  set None (λ w, let '(w', rows) := buildRandomStoreItems count [] w in withData rows w').

(** [appendRows(count)]. *)
Definition appendRows (count : nat) : World → World :=
  set None (λ w, let '(w', rows) := buildRandomStoreItems count [] w in
                 withData (data w' ++ rows) w').

End Random.

(** [swapRows()]: [set] is called only on more than ten rows. *)
Definition swapRows (w : World) : World :=
  if 10 <? length (data w) then
    set None (λ w,
      match data w !! 4, data w !! 9 with
      | Some a, Some b => withData (<[9 := a]> (<[4 := b]> (data w))) w
      | _, _ => w
      end) w
  else w.

(** [clear()]. *)
Definition clear : World → World := set None (withData []).

(** [item.label += ' !!!']. *)
Definition exclaim (item : StoreItem) : StoreItem :=
  mkStoreItem (id item) (label item +:+ " !!!") (selected item).

(** [updateRows(mod)]: the loop from index [i]; a turn takes one unit of
    fuel, [None] is out of fuel. An index within [store.data] holds an
    item. *)
Fixpoint updateRowsFrom (fuel : nat) (step : nat) (i : nat) (w : World) : option World :=
  match fuel with
  | O => None
  | S fuel' =>
      match data w !! i with
      | Some r => updateRowsFrom fuel' step (i + step) (set (Some r) (withItem r exclaim) w)
      | None => Some w
      end
  end.

Definition updateRows (fuel : nat) (step : nat) : World → option World :=
  updateRowsFrom fuel step 0.

(** [store.data.indexOf(item)] and [store.data.splice(idx, 1)]. *)
Fixpoint indexOf (item : nat) (rows : list nat) : option nat :=
  match rows with
  | [] => None
  | r :: rest => if decide (r = item) then Some 0 else S <$> indexOf item rest
  end.

(** The click on [span.remove] of the row of [item]. *)
Definition remove (item : nat) : World → World :=
  set None (λ w,
    match indexOf item (data w) with
    | Some idx => withData (delete idx (data w)) w
    | None => w
    end).

Definition setSelected (b : bool) (item : StoreItem) : StoreItem :=
  mkStoreItem (id item) (label item) b.

(** The click on [.lbl] of the row of [item]. *)
Definition select (item : nat) (w : World) : World :=
  let w1 :=
    match lastSelected w with
    | Some last => set (Some last) (withItem last (setSelected false)) w
    | None => w
    end in
  let w2 := set (Some item) (withItem item (setSelected true)) w1 in
  mkWorld (heap w2) (data w2) (Some item) (nextId w2) (drawn w2) (notified w2).

(** The key that [DataItemComponent.renderer] gives the row of an item:
    ['item-' + data.id]. *)
Definition rowKey (item : StoreItem) : string := "item-" +:+ Component.decimal (id item).

(** What the user can do. *)
Inductive action :=
| Run (count : nat)
| Add (count : nat)
| SwapRows
| Clear
| Remove (item : nat)
| Select (item : nat).

Section Session.
Variable rounded : nat → nat.

Definition perform (a : action) : World → World :=
  match a with
  | Run count => createNewRows rounded count
  | Add count => appendRows rounded count
  | SwapRows => swapRows
  | Clear => clear
  | Remove item => remove item
  | Select item => select item
  end.

(** A session: the actions performed one after the other from [start]. *)
Definition session (actions : list action) : World :=
  fold_left (λ w a, perform a w) actions start.

End Session.

(** What holds of the objects at any time: no identifier is given
    twice and all lie below the counter; an item that is selected is the
    one [lastSelected] refers to; the rows are items, no item twice. *)
Definition consistent (w : World) : Prop :=
  (∀ r item, heap w !! r = Some item → id item < nextId w)
  ∧ (∀ r1 r2 item1 item2, heap w !! r1 = Some item1 → heap w !! r2 = Some item2 →
       id item1 = id item2 → r1 = r2)
  ∧ (∀ r item, heap w !! r = Some item → selected item = true → lastSelected w = Some r)
  ∧ (∀ r, r ∈ data w → is_Some (heap w !! r))
  ∧ NoDup (data w).

(** The items of the rows, in order. *)
Definition rows (w : World) : list StoreItem := omap (λ r, heap w !! r) (data w).

End Benchmark.

(* ===================================================================== *)
(** ** Properties of [TreeComparator.diff]                               *)
(* ===================================================================== *)

Module DiffFacts.
Import TreeComparator.

(** *** Computations that only read the store *)

Lemma reads_ret {A} (a : A) : readsOnly (mret a).
Proof. intros σ. reflexivity. Qed.

Lemma reads_throw {A} e : readsOnly (@throw A e).
Proof. intros σ. reflexivity. Qed.

Lemma reads_outOfFuel {A} : readsOnly (@outOfFuel A).
Proof. intros σ. reflexivity. Qed.

Lemma reads_getNode r : readsOnly (getNode r).
Proof. intros σ. unfold getNode. destruct (σ !! r); reflexivity. Qed.

Lemma reads_getStore : readsOnly getStore.
Proof. intros σ. reflexivity. Qed.

Lemma reads_defined {A} (o : option A) : readsOnly (defined o).
Proof. destruct o; [apply reads_ret | apply reads_throw]. Qed.

Lemma reads_bind {A B} (m : M A) (k : A → M B) :
  readsOnly m → (∀ a, readsOnly (k a)) → readsOnly (m ≫= k).
Proof.
  intros Hm Hk σ. unfold mbind, M_bind, bind.
  specialize (Hm σ). destruct (m σ) as [[a|e|] σ']; simpl in *; subst; auto.
  apply Hk.
Qed.

Create HintDb reads.
#[local] Hint Resolve reads_ret reads_throw reads_outOfFuel reads_getNode
  reads_getStore reads_defined : reads.

Ltac reads :=
  repeat first
    [ progress auto with reads
    | apply reads_bind
    | match goal with
      | |- ∀ _, _ => intro
      | |- readsOnly (match ?x with _ => _ end) => destruct x
      | |- readsOnly (let _ := _ in _) => cbv zeta
      end ].

Lemma reads_indexChildren children : ∀ i idx, readsOnly (indexChildren children i idx).
Proof.
  induction children as [|c rest IH]; intros i idx; simpl; reads.
Qed.
#[local] Hint Resolve reads_indexChildren : reads.

Lemma reads_buildChildrenKeyIndex node1 node2 :
  readsOnly (_buildChildrenKeyIndex node1 node2).
Proof. unfold _buildChildrenKeyIndex. reads. Qed.
#[local] Hint Resolve reads_buildChildrenKeyIndex : reads.

Lemma reads_consult p node1 node2 : readsOnly (consult p node1 node2).
Proof. unfold consult. reads. Qed.
#[local] Hint Resolve reads_consult : reads.

Lemma reads_scanStep (d : nid → nid → M (list patch)) node1 node2 i1 i2 s :
  (∀ c1 c2, readsOnly (d c1 c2)) → readsOnly (scanStep d node1 node2 i1 i2 s).
Proof. intros Hd. unfold scanStep, scanElements. reads. Qed.

Lemma reads_diff_scanLoop fuel :
  (∀ node1 node2 p, readsOnly (diff fuel node1 node2 p))
  ∧ (∀ node1 node2 p i1 i2 s, readsOnly (scanLoop fuel node1 node2 p i1 i2 s)).
Proof.
  induction fuel as [|fuel [IHd IHl]]; split; intros; simpl; auto with reads.
  - reads.
  - apply reads_bind; [auto with reads | intros n1].
    apply reads_bind; [auto with reads | intros n2].
    destruct (scanning n1 n2 s); [| auto with reads].
    apply reads_bind; [apply reads_scanStep; auto | auto].
Qed.

Lemma reads_diff fuel node1 node2 p : readsOnly (diff fuel node1 node2 p).
Proof. apply reads_diff_scanLoop. Qed.

Lemma reads_scanLoop fuel node1 node2 p i1 i2 s :
  readsOnly (scanLoop fuel node1 node2 p i1 i2 s).
Proof. apply reads_diff_scanLoop. Qed.

(** C7. [TreeComparator.diff] is pure with respect to its inputs: whatever
    the two references, the policy and the number of steps allowed, and
    whether it returns, throws or is still running, the store holding both
    trees is afterwards what it was before; no node, child list, attribute
    or text value has been written. *)
Theorem diff_leaves_trees_unchanged (fuel : nat) (node1 node2 : nid)
    (comparePolicy : option policy) (σ : store) :
  (diff fuel node1 node2 comparePolicy σ).2 = σ.
Proof. apply reads_diff. Qed.

(** C6. When the policy answers ['SKIP'] for a pair, [diff] returns the
    empty patch list; when it answers ['REPLACE'], [diff] returns the one
    patch that replaces [node1] by [node2]. Either way a single step is
    enough and no node is read, so neither subtree is descended into. *)
Theorem policy_skip_and_replace (fuel : nat) (p : policy) (node1 node2 : nid) (σ : store) :
  (p σ node1 node2 = SKIP → diff (S fuel) node1 node2 (Some p) σ = (Done [], σ))
  ∧ (p σ node1 node2 = REPLACE →
       diff (S fuel) node1 node2 (Some p) σ = (Done [ReplaceSubtree node1 node2], σ)).
Proof.
  split; intros H; simpl; unfold mbind, M_bind, bind; simpl; rewrite H; reflexivity.
Qed.

(** *** Unfolding one call of [diff] and one turn of the loop *)

Lemma reads_compareChildren fuel node1 node2 cp :
  readsOnly (_compareChildren fuel node1 node2 cp).
Proof.
  unfold _compareChildren, compareChildrenWith. reads. apply reads_scanLoop.
Qed.

(** A pair that the policy lets through and whose tag and kind agree:
    the children are compared if there are any, then the two nodes. *)
Lemma diff_compare f node1 node2 cp σ n1 n2 :
  consult cp node1 node2 σ = (Done DIFF, σ) →
  σ !! node1 = Some n1 → σ !! node2 = Some n2 →
  tagName n1 = tagName n2 → nodeType n1 = nodeType n2 →
  diff (S f) node1 node2 cp σ
  = (outcomeMap (compareNodes node1 node2 n1 n2)
       ((if (0 <? length (childNodes n1)) || (0 <? length (childNodes n2))
         then _compareChildren f node1 node2 cp else mret []) σ).1,
     σ).
Proof.
  intros Hp H1 H2 Ht Hk. cbn [diff]. unfold mbind at 1, M_bind at 1, bind at 1.
  rewrite Hp. unfold mbind at 1 2, M_bind at 1 2, bind at 1 2, getNode at 1 2.
  rewrite H1, H2. rewrite !bool_decide_eq_true_2 by assumption. cbn [andb].
  fold (_compareChildren f node1 node2 cp).
  destruct ((0 <? length (childNodes n1)) || (0 <? length (childNodes n2))).
  - pose proof (reads_compareChildren f node1 node2 cp σ) as Hr.
    unfold mbind at 1, M_bind at 1, bind at 1.
    destruct (_compareChildren f node1 node2 cp σ) as [[r|e|] σ']; simpl in Hr; subst σ';
      [|reflexivity|reflexivity].
    unfold mbind, M_bind, bind, getNode. rewrite H1, H2. reflexivity.
  - unfold mbind, M_bind, bind, mret, M_ret, ret, getNode. rewrite H1, H2. reflexivity.
Qed.

Lemma diff_scan f node1 node2 cp σ n1 n2 i1 i2 :
  consult cp node1 node2 σ = (Done DIFF, σ) →
  σ !! node1 = Some n1 → σ !! node2 = Some n2 →
  tagName n1 = tagName n2 → nodeType n1 = nodeType n2 →
  (0 <? length (childNodes n1)) || (0 <? length (childNodes n2)) = true →
  _buildChildrenKeyIndex node1 node2 σ = (Done (i1, i2), σ) →
  diff (S f) node1 node2 cp σ
  = (outcomeMap (λ s, compareNodes node1 node2 n1 n2 (scanRest node1 n1 n2 s))
       (scanLoop f node1 node2 cp i1 i2 (mkScan 0 0 0 0 (Some <$> childNodes n1) []) σ).1,
     σ).
Proof.
  intros Hp H1 H2 Ht Hk Hc Hi.
  rewrite (diff_compare f node1 node2 cp σ n1 n2 Hp H1 H2 Ht Hk), Hc.
  unfold _compareChildren, compareChildrenWith.
  unfold mbind at 1 2, M_bind at 1 2, bind at 1 2, getNode at 1. rewrite H1, Hi.
  pose proof (reads_scanLoop f node1 node2 cp i1 i2
                (mkScan 0 0 0 0 (Some <$> childNodes n1) []) σ) as Hr.
  unfold mbind at 1, M_bind at 1, bind at 1.
  destruct (scanLoop f node1 node2 cp i1 i2 _ σ) as [[s|e|] σ']; simpl in Hr; subst σ';
    [| reflexivity | reflexivity].
  unfold mbind, M_bind, bind, getNode. rewrite H1, H2. reflexivity.
Qed.

Lemma scanLoop_turn f node1 node2 p i1 i2 s σ n1 n2 :
  σ !! node1 = Some n1 → σ !! node2 = Some n2 → scanning n1 n2 s = true →
  scanLoop (S f) node1 node2 p i1 i2 s σ
  = (scanStep (λ c1 c2, diff f c1 c2 p) node1 node2 i1 i2 s
       ≫= scanLoop f node1 node2 p i1 i2) σ.
Proof.
  intros H1 H2 Hc. cbn [scanLoop]. unfold mbind, M_bind, bind, getNode.
  rewrite H1, H2, Hc. reflexivity.
Qed.

Lemma scanLoop_exit f node1 node2 p i1 i2 s σ n1 n2 :
  σ !! node1 = Some n1 → σ !! node2 = Some n2 → scanning n1 n2 s = false →
  scanLoop (S f) node1 node2 p i1 i2 s σ = (Done s, σ).
Proof.
  intros H1 H2 Hc. cbn [scanLoop]. unfold mbind, M_bind, bind, getNode.
  rewrite H1, H2, Hc. reflexivity.
Qed.

(** Two nodes without children are compared in one step. *)
Lemma diff_childless f cp σ a b na nb :
  σ !! a = Some na → σ !! b = Some nb → childNodes na = [] → childNodes nb = [] →
  ∃ ps, diff (S f) a b cp σ = (Done ps, σ).
Proof.
  intros Ha Hb Hca Hcb. cbn [diff].
  assert (∃ action, consult cp a b σ = (Done action, σ)) as [action Hp].
  { destruct cp; eexists; reflexivity. }
  unfold mbind at 1, M_bind at 1, bind at 1. rewrite Hp.
  destruct action; [| eexists; reflexivity | eexists; reflexivity].
  unfold mbind, M_bind, bind, getNode. rewrite Ha, Hb.
  destruct (bool_decide (tagName na = tagName nb) && bool_decide (nodeType na = nodeType nb));
    [| eexists; reflexivity].
  rewrite Hca, Hcb. cbn. rewrite Ha, Hb. eexists; reflexivity.
Qed.

(** *** The rotation of three keyed siblings

    The key tables keep the positions the children had before any swap,
    while [child1Array] is swapped: after the first swap the table entry
    of key 1 points at the slot that now holds C. From the second pair of
    cursors on, the scan swaps slots 1 and 0 for ever. *)

Import Examples.

Lemma rotation_index :
  _buildChildrenKeyIndex 0 10 rotation = (Done (rotationIndex1, rotationIndex2), rotation).
Proof. vm_compute. reflexivity. Qed.

Lemma rotation_turn_B d r :
  scanStep d 0 10 rotationIndex1 rotationIndex2 (scanAt 1 [3; 2; 1] r) rotation
  = (Done (scanAt 1 [2; 3; 1] (r ++ [SwapNodes 2 (Some 1)])), rotation).
Proof. vm_compute. reflexivity. Qed.

Lemma rotation_turn_C d r :
  scanStep d 0 10 rotationIndex1 rotationIndex2 (scanAt 1 [2; 3; 1] r) rotation
  = (Done (scanAt 1 [3; 2; 1] (r ++ [SwapNodes 3 (Some 1)])), rotation).
Proof. vm_compute. reflexivity. Qed.

Lemma rotation_cycle f : ∀ p r,
  scanLoop f 0 10 p rotationIndex1 rotationIndex2 (scanAt 1 [3; 2; 1] r) rotation
  = (OutOfFuel, rotation)
  ∧ scanLoop f 0 10 p rotationIndex1 rotationIndex2 (scanAt 1 [2; 3; 1] r) rotation
    = (OutOfFuel, rotation).
Proof.
  induction f as [|f IH]; intros p r; [split; reflexivity|].
  split.
  - rewrite (scanLoop_turn f 0 10 p _ _ _ _ (ul [1; 2; 3]) (ul [11; 12; 13]))
      by reflexivity.
    unfold mbind, M_bind, bind. rewrite rotation_turn_B. apply IH.
  - rewrite (scanLoop_turn f 0 10 p _ _ _ _ (ul [1; 2; 3]) (ul [11; 12; 13]))
      by reflexivity.
    unfold mbind, M_bind, bind. rewrite rotation_turn_C. apply IH.
Qed.

(** The first turn swaps A and C. *)
Lemma rotation_turn_A d :
  scanStep d 0 10 rotationIndex1 rotationIndex2 (scanAt 0 [1; 2; 3] []) rotation
  = (Done (scanAt 0 [3; 2; 1] [SwapNodes 1 (Some 3)]), rotation).
Proof. vm_compute. reflexivity. Qed.

(** The second turn compares C with C and moves both cursors. *)
Lemma rotation_turn_CC d r :
  scanStep d 0 10 rotationIndex1 rotationIndex2 (scanAt 0 [3; 2; 1] r) rotation
  = (ps ← d 3 11; mret (scanAt 1 [3; 2; 1] (r ++ ps))) rotation.
Proof. reflexivity. Qed.

(** Comparing C with C returns a patch list or runs out of fuel. *)
Lemma rotation_CC f p :
  (∃ ps, diff f 3 11 p rotation = (Done ps, rotation))
  ∨ diff f 3 11 p rotation = (OutOfFuel, rotation).
Proof.
  destruct f as [|f]; [right; reflexivity|]. left.
  apply (diff_childless f p rotation 3 11 (li "3") (li "3")); reflexivity.
Qed.

Lemma rotation_scan f p :
  scanLoop f 0 10 p rotationIndex1 rotationIndex2 (scanAt 0 [1; 2; 3] []) rotation
  = (OutOfFuel, rotation).
Proof.
  destruct f as [|f]; [reflexivity|].
  rewrite (scanLoop_turn f 0 10 p _ _ _ _ (ul [1; 2; 3]) (ul [11; 12; 13])) by reflexivity.
  unfold mbind at 1, M_bind at 1, bind at 1. rewrite rotation_turn_A.
  destruct f as [|f]; [reflexivity|].
  rewrite (scanLoop_turn f 0 10 p _ _ _ _ (ul [1; 2; 3]) (ul [11; 12; 13])) by reflexivity.
  unfold mbind at 1, M_bind at 1, bind at 1. rewrite rotation_turn_CC.
  unfold mbind, M_bind, bind.
  destruct (rotation_CC f p) as [[ps H]|H]; rewrite H; [|reflexivity].
  apply rotation_cycle.
Qed.

Lemma rotation_diverges cp fuel :
  consult cp 0 10 rotation = (Done DIFF, rotation) →
  diff fuel 0 10 cp rotation = (OutOfFuel, rotation).
Proof.
  intros Hp. destruct fuel as [|f]; [reflexivity|].
  rewrite (diff_scan f 0 10 cp rotation (ul [1; 2; 3]) (ul [11; 12; 13])
             rotationIndex1 rotationIndex2 Hp)
    by (reflexivity || apply rotation_index).
  change (Some <$> childNodes (ul [1; 2; 3])) with (Some <$> [1; 2; 3]).
  change (mkScan 0 0 0 0 (Some <$> [1; 2; 3]) []) with (scanAt 0 [1; 2; 3] []).
  rewrite rotation_scan. reflexivity.
Qed.

(** Two keyed siblings that change places are one swap: after it the
    stale positions are not looked up again. *)
Example transposition_is_one_swap :
  (diff 6 0 10 None transposition).1 = Done [SwapNodes 1 (Some 3)].
Proof. vm_compute. reflexivity. Qed.

(** C1 (the code does otherwise). On the old list
    [[A(key=1), B(key=2), C(key=3)]] and the new list
    [[C(key=3), A(key=1), B(key=2)]], [diff] without a policy returns no
    patch list at all: however many steps it is given, it is still
    scanning the children. *)
Theorem keyed_rotation_returns_no_patch_list (fuel : nat) :
  (diff fuel 0 10 None rotation).1 = OutOfFuel.
Proof. rewrite rotation_diverges; reflexivity. Qed.

(** C2 (the code does otherwise). [diff] does not terminate on every pair
    of finite trees: on the rotation of three keyed siblings, with any
    policy that lets the comparison of the two lists go on, no number of
    steps is enough. *)
Theorem diff_does_not_always_terminate (p : policy) (fuel : nat) :
  p rotation 0 10 = DIFF →
  (diff fuel 0 10 (Some p) rotation).1 = OutOfFuel.
Proof.
  intros Hp. rewrite rotation_diverges; [reflexivity|].
  unfold consult, mbind, M_bind, bind, getStore, mret, M_ret, ret.
  rewrite Hp. reflexivity.
Qed.

Lemma diff_does_not_always_terminate_witness :
  (λ _ _ _, DIFF) rotation 0 10 = DIFF
  ∧ (diff 1000 0 10 (Some (λ _ _ _, DIFF)) rotation).1 = OutOfFuel.
Proof.
  split; [reflexivity|].
  apply (diff_does_not_always_terminate (λ _ _ _, DIFF) 1000). reflexivity.
Defined.

Lemma policy_skip_and_replace_witness :
  diff 1 0 10 (Some (λ _ _ _, SKIP)) rotation = (Done [], rotation)
  ∧ diff 1 0 10 (Some (λ _ _ _, REPLACE)) rotation
    = (Done [ReplaceSubtree 0 10], rotation).
Proof.
  split.
  - apply (proj1 (policy_skip_and_replace 0 (λ _ _ _, SKIP) 0 10 rotation)). reflexivity.
  - apply (proj2 (policy_skip_and_replace 0 (λ _ _ _, REPLACE) 0 10 rotation)). reflexivity.
Defined.

(** *** One insertion, one removal *)

Lemma indexChildren_keyed σ c k rest i idx :
  keyed σ c k → truthy (Some k) = Some k →
  indexChildren (c :: rest) i idx σ
  = indexChildren rest (S i) (index_set k (mkEntry c i) idx) σ.
Proof.
  intros (e & Hc & Hk) Ht. cbn [indexChildren].
  unfold mbind, M_bind, bind, getNode. rewrite Hc.
  cbn [nodeType getAttribute]. rewrite Hk, Ht. reflexivity.
Qed.

Lemma scanStep_elements d node1 node2 i1 i2 s σ n1 n2 child1 child2 k1 k2 :
  σ !! node1 = Some n1 → σ !! node2 = Some n2 →
  child1Array s !! child1pos s = Some (Some child1) →
  childNodes n2 !! child2pos s = Some child2 →
  keyed σ child1 k1 → keyed σ child2 k2 →
  scanStep d node1 node2 i1 i2 s σ
  = scanElements d node1 n1 child1 child2 (Some k1) (Some k2) i1 i2 s σ.
Proof.
  intros H1 H2 Hs1 Hs2 (e1 & Hc1 & Hk1) (e2 & Hc2 & Hk2).
  unfold scanStep, mbind, M_bind, bind, getNode. rewrite H1, H2.
  cbv zeta. rewrite Hs1, Hs2. cbn. rewrite Hc1. cbn. rewrite Hc2. cbn.
  rewrite Hk1, Hk2. reflexivity.
Qed.

Lemma sameAttributesFrom_sym l1 : ∀ l2,
  length l1 = length l2 → sameAttributesFrom l1 l2 = true → sameAttributesFrom l2 l1 = true.
Proof.
  induction l1 as [|x r1 IH]; intros [|y r2] Hl H; simpl in *; try discriminate; auto.
  destruct (String.eqb_spec (name x) (name y)) as [En|]; [|discriminate].
  destruct (String.eqb_spec (value x) (value y)) as [Ev|]; [|discriminate].
  simpl in H. rewrite En, Ev, !String.eqb_refl. simpl. apply IH; [lia | exact H].
Qed.

Lemma equalAttributes_sym n1 n2 :
  _equalAttributes n1 n2 = true → _equalAttributes n2 n1 = true.
Proof.
  unfold _equalAttributes. destruct (attributes n1), (attributes n2); auto.
  destruct (Nat.eqb_spec (length (List.filter skipAttributes l)) (length (List.filter skipAttributes l0))) as [E|]; [|discriminate].
  simpl. intros H. rewrite <- E, Nat.eqb_refl. simpl.
  apply sameAttributesFrom_sym; assumption.
Qed.

Lemma scanElements_same d node1 n1 c1 c2 k i1 i2 s :
  scanElements d node1 n1 c1 c2 (Some k) (Some k) i1 i2 s
  = (ps ← d c1 c2; mret (advanceBoth (push ps s))).
Proof.
  unfold scanElements, option_eqb. rewrite bool_decide_eq_true_2 by reflexivity.
  reflexivity.
Qed.

Lemma scanElements_insert d node1 n1 c1 c2 k1 k2 i1 i2 s :
  k1 ≠ k2 → key_in k1 i2 = true → key_in k2 i1 = false →
  scanElements d node1 n1 c1 c2 k1 k2 i1 i2 s = mret (insertHere node1 c2 s).
Proof.
  intros Hne H1 H2. unfold scanElements, option_eqb.
  rewrite bool_decide_eq_false_2 by assumption. rewrite H1, H2. reflexivity.
Qed.

Lemma scanElements_remove d node1 n1 c1 c2 k1 k2 i1 i2 s :
  k1 ≠ k2 → key_in k1 i2 = false → key_in k2 i1 = true →
  scanElements d node1 n1 c1 c2 k1 k2 i1 i2 s = mret (removeHere c1 s).
Proof.
  intros Hne H1 H2. unfold scanElements, option_eqb.
  rewrite bool_decide_eq_false_2 by assumption. rewrite H1, H2. reflexivity.
Qed.

Section InsertionAndRemoval.
Variables (σ : store) (short long a b a' c' b' : nid) (es el : ElementData).
Hypothesis Hshort : σ !! short = Some (Element es).
Hypothesis Hlong : σ !! long = Some (Element el).
Hypothesis Hcs : el_childNodes es = [a; b].
Hypothesis Hcl : el_childNodes el = [a'; c'; b'].
Hypothesis Htag : el_tagName es = el_tagName el.
Hypothesis Hattr : _equalAttributes (Element es) (Element el) = true.
Hypothesis Ha : keyed σ a "1".
Hypothesis Hb : keyed σ b "2".
Hypothesis Ha' : keyed σ a' "1".
Hypothesis Hc' : keyed σ c' "3".
Hypothesis Hb' : keyed σ b' "2".

Lemma index_short_long :
  _buildChildrenKeyIndex short long σ = (Done (keys12 a b, keys132 a' c' b'), σ).
Proof.
  unfold _buildChildrenKeyIndex.
  unfold mbind at 1, M_bind at 1, bind at 1. unfold getNode at 1. rewrite Hlong.
  cbn [childNodes]. rewrite Hcl.
  unfold mbind at 1, M_bind at 1, bind at 1.
  rewrite (indexChildren_keyed σ a' "1"), (indexChildren_keyed σ c' "3"),
    (indexChildren_keyed σ b' "2") by (assumption || reflexivity).
  cbn [indexChildren mret M_ret ret].
  unfold mbind at 1, M_bind at 1, bind at 1. unfold getNode at 1. rewrite Hshort.
  cbn [childNodes]. rewrite Hcs.
  unfold mbind at 1, M_bind at 1, bind at 1.
  rewrite (indexChildren_keyed σ a "1"), (indexChildren_keyed σ b "2")
    by (assumption || reflexivity).
  reflexivity.
Qed.

Lemma index_long_short :
  _buildChildrenKeyIndex long short σ = (Done (keys132 a' c' b', keys12 a b), σ).
Proof.
  unfold _buildChildrenKeyIndex.
  unfold mbind at 1, M_bind at 1, bind at 1. unfold getNode at 1. rewrite Hshort.
  cbn [childNodes]. rewrite Hcs.
  unfold mbind at 1, M_bind at 1, bind at 1.
  rewrite (indexChildren_keyed σ a "1"), (indexChildren_keyed σ b "2")
    by (assumption || reflexivity).
  cbn [indexChildren mret M_ret ret].
  unfold mbind at 1, M_bind at 1, bind at 1. unfold getNode at 1. rewrite Hlong.
  cbn [childNodes]. rewrite Hcl.
  unfold mbind at 1, M_bind at 1, bind at 1.
  rewrite (indexChildren_keyed σ a' "1"), (indexChildren_keyed σ c' "3"),
    (indexChildren_keyed σ b' "2") by (assumption || reflexivity).
  reflexivity.
Qed.

Ltac scan_cond Hcs Hcl :=
  unfold scanning; cbn [childNodes child1pos child2pos]; rewrite ?Hcs, ?Hcl; reflexivity.

Lemma scan_insertion k :
  diff (3 + k) a a' None σ = (Done [], σ) → diff (1 + k) b b' None σ = (Done [], σ) →
  scanLoop (4 + k) short long None (keys12 a b) (keys132 a' c' b')
    (mkScan 0 0 0 0 [Some a; Some b] []) σ
  = (Done (mkScan 2 3 1 0 [Some a; Some b] [InsertNode short c' 1]), σ).
Proof.
  intros Da Db.
  (* A against A: compared, both cursors move *)
  rewrite (scanLoop_turn (3 + k) short long None _ _ _ _ _ _ Hshort Hlong)
    by scan_cond Hcs Hcl.
  unfold mbind at 1, M_bind at 1, bind at 1.
  rewrite (scanStep_elements _ short long _ _ _ σ _ _ a a' "1" "1" Hshort Hlong)
    by (assumption || (cbn; rewrite ?Hcl; reflexivity)).
  rewrite scanElements_same.
  unfold mbind at 1, M_bind at 1, bind at 1. rewrite Da.
  cbn [mret M_ret ret advanceBoth push child1pos child2pos insertions deletions
       child1Array result app].
  (* B against C: key 3 is new, C is inserted, the new cursor moves *)
  rewrite (scanLoop_turn (2 + k) short long None _ _ _ _ _ _ Hshort Hlong)
    by scan_cond Hcs Hcl.
  unfold mbind at 1, M_bind at 1, bind at 1.
  rewrite (scanStep_elements _ short long _ _ _ σ _ _ b c' "2" "3" Hshort Hlong)
    by (assumption || (cbn; rewrite ?Hcl; reflexivity)).
  rewrite scanElements_insert by (discriminate || (vm_compute; reflexivity)).
  cbn [mret M_ret ret insertHere child1pos child2pos insertions deletions
       child1Array result app].
  (* B against B *)
  rewrite (scanLoop_turn (1 + k) short long None _ _ _ _ _ _ Hshort Hlong)
    by scan_cond Hcs Hcl.
  unfold mbind at 1, M_bind at 1, bind at 1.
  rewrite (scanStep_elements _ short long _ _ _ σ _ _ b b' "2" "2" Hshort Hlong)
    by (assumption || (cbn; rewrite ?Hcl; reflexivity)).
  rewrite scanElements_same.
  unfold mbind at 1, M_bind at 1, bind at 1. rewrite Db.
  cbn [mret M_ret ret advanceBoth push child1pos child2pos insertions deletions
       child1Array result app].
  (* both lists are exhausted *)
  rewrite (scanLoop_exit k short long None _ _ _ _ _ _ Hshort Hlong)
    by scan_cond Hcs Hcl.
  reflexivity.
Qed.

Lemma scan_removal k :
  diff (3 + k) a' a None σ = (Done [], σ) → diff (1 + k) b' b None σ = (Done [], σ) →
  scanLoop (4 + k) long short None (keys132 a' c' b') (keys12 a b)
    (mkScan 0 0 0 0 [Some a'; Some c'; Some b'] []) σ
  = (Done (mkScan 3 2 0 1 [Some a'; Some c'; Some b'] [RemoveNode c']), σ).
Proof.
  intros Da Db.
  rewrite (scanLoop_turn (3 + k) long short None _ _ _ _ _ _ Hlong Hshort)
    by scan_cond Hcs Hcl.
  unfold mbind at 1, M_bind at 1, bind at 1.
  rewrite (scanStep_elements _ long short _ _ _ σ _ _ a' a "1" "1" Hlong Hshort)
    by (assumption || (cbn; rewrite ?Hcs; reflexivity)).
  rewrite scanElements_same.
  unfold mbind at 1, M_bind at 1, bind at 1. rewrite Da.
  cbn [mret M_ret ret advanceBoth push child1pos child2pos insertions deletions
       child1Array result app].
  (* C against B: key 3 is gone, C is removed, the old cursor moves *)
  rewrite (scanLoop_turn (2 + k) long short None _ _ _ _ _ _ Hlong Hshort)
    by scan_cond Hcs Hcl.
  unfold mbind at 1, M_bind at 1, bind at 1.
  rewrite (scanStep_elements _ long short _ _ _ σ _ _ c' b "3" "2" Hlong Hshort)
    by (assumption || (cbn; rewrite ?Hcs; reflexivity)).
  rewrite scanElements_remove by (discriminate || (vm_compute; reflexivity)).
  cbn [mret M_ret ret removeHere child1pos child2pos insertions deletions
       child1Array result app].
  rewrite (scanLoop_turn (1 + k) long short None _ _ _ _ _ _ Hlong Hshort)
    by scan_cond Hcs Hcl.
  unfold mbind at 1, M_bind at 1, bind at 1.
  rewrite (scanStep_elements _ long short _ _ _ σ _ _ b' b "2" "2" Hlong Hshort)
    by (assumption || (cbn; rewrite ?Hcs; reflexivity)).
  rewrite scanElements_same.
  unfold mbind at 1, M_bind at 1, bind at 1. rewrite Db.
  cbn [mret M_ret ret advanceBoth push child1pos child2pos insertions deletions
       child1Array result app].
  rewrite (scanLoop_exit k long short None _ _ _ _ _ _ Hlong Hshort)
    by scan_cond Hcs Hcl.
  reflexivity.
Qed.

Lemma insert_then_remove_scans :
  yields σ a a' [] → yields σ b b' [] → yields σ a' a [] → yields σ b' b [] →
  yields σ short long [InsertNode short c' 1] ∧ yields σ long short [RemoveNode c'].
Proof.
  intros [fa Ya] [fb Yb] [fa' Ya'] [fb' Yb'].
  split.
  - exists (5 + fa + fb). intros fuel Hf.
    destruct fuel as [|[|[|[|[|k]]]]]; try lia.
    rewrite (diff_scan _ short long None σ _ _ (keys12 a b) (keys132 a' c' b') eq_refl Hshort Hlong)
      by first [ exact index_short_long | cbn; congruence
               | cbn [childNodes]; rewrite Hcs; reflexivity ].
    cbn [childNodes]. rewrite Hcs. cbn [fmap list_fmap].
    change (S (S (S (S k)))) with (4 + k).
    rewrite (scan_insertion k) by (first [apply Ya | apply Yb]; lia).
    cbn [fst outcomeMap]. unfold scanRest, compareNodes.
    cbn [childNodes child1pos child2pos result]. rewrite Hcs, Hcl, Hattr. reflexivity.
  - exists (5 + fa' + fb'). intros fuel Hf.
    destruct fuel as [|[|[|[|[|k]]]]]; try lia.
    rewrite (diff_scan _ long short None σ _ _ (keys132 a' c' b') (keys12 a b) eq_refl Hlong Hshort)
      by first [ exact index_long_short | cbn; congruence
               | cbn [childNodes]; rewrite Hcl; reflexivity ].
    cbn [childNodes]. rewrite Hcl. cbn [fmap list_fmap].
    change (S (S (S (S k)))) with (4 + k).
    rewrite (scan_removal k) by (first [apply Ya' | apply Yb']; lia).
    cbn [fst outcomeMap]. unfold scanRest, compareNodes.
    cbn [childNodes child1pos child2pos result].
    rewrite Hcs, Hcl, (equalAttributes_sym _ _ Hattr). reflexivity.
Qed.
End InsertionAndRemoval.

(** C5. Old list [[A(key=1), B(key=2)]], new list
    [[A(key=1), C(key=3), B(key=2)]], contents otherwise unchanged (the two
    parents have the same tag and equal attributes, and [diff] finds
    nothing between the two A and between the two B): [diff] returns
    exactly one patch, the ['insert-node'] of C into the old parent before
    position 1, which is the old cursor 1 plus 0 insertions minus 0
    deletions; no ['remove-node'], no ['swap-nodes']. The reverse
    transition returns exactly one patch, the ['remove-node'] of C. *)
Theorem keyed_insertion_and_removal (σ : store) (short long a b a' c' b' : nid)
    (es el : ElementData) :
  σ !! short = Some (Element es) → σ !! long = Some (Element el) →
  el_childNodes es = [a; b] → el_childNodes el = [a'; c'; b'] →
  el_tagName es = el_tagName el →
  _equalAttributes (Element es) (Element el) = true →
  keyed σ a "1" → keyed σ b "2" → keyed σ a' "1" → keyed σ c' "3" → keyed σ b' "2" →
  yields σ a a' [] → yields σ b b' [] → yields σ a' a [] → yields σ b' b [] →
  yields σ short long [InsertNode short c' 1] ∧ yields σ long short [RemoveNode c'].
Proof.
  intros. eapply insert_then_remove_scans; eassumption.
Qed.

Lemma childless_key_yields_nothing σ a b k :
  σ !! a = Some (li k) → σ !! b = Some (li k) → yields σ a b [].
Proof.
  intros Ha Hb. exists 1. intros [|f] Hf; [lia|].
  cbn [diff consult]. unfold mbind, M_bind, bind, mret, M_ret, ret, getNode.
  rewrite Ha, Hb. cbn.
  rewrite !bool_decide_eq_true_2 by reflexivity. cbn.
  rewrite Ha, Hb. unfold compareNodes, _equalAttributes. cbn.
  rewrite !String.eqb_refl. reflexivity.
Qed.

Lemma keyed_insertion_and_removal_witness :
  yields insertion 0 10 [InsertNode 0 12 1] ∧ yields insertion 10 0 [RemoveNode 12].
Proof.
  apply (keyed_insertion_and_removal insertion 0 10 1 2 11 12 13
           (mkElement "UL" [] [1; 2] None None)
           (mkElement "UL" [] [11; 12; 13] None None));
    first [ reflexivity
          | eexists; split; reflexivity
          | eapply childless_key_yields_nothing; reflexivity ].
Defined.

End DiffFacts.

(* ===================================================================== *)
(** ** Properties of [TreeComparator.applyPatches]                       *)
(* ===================================================================== *)

Module PatchFacts.
Import TreeComparator Examples DiffFacts.

(** *** Attribute lists *)

Lemma lookupAttr_setAttr_eq a v l : lookupAttr a (setAttr a v l) = Some v.
Proof.
  induction l as [|x r IH]; simpl.
  - rewrite String.eqb_refl. reflexivity.
  - destruct (String.eqb_spec (name x) a) as [E|E]; simpl.
    + rewrite String.eqb_refl. reflexivity.
    + destruct (String.eqb_spec (name x) a); [contradiction | exact IH].
Qed.

Lemma lookupAttr_setAttr_ne a b v l :
  a ≠ b → lookupAttr a (setAttr b v l) = lookupAttr a l.
Proof.
  intros Hne. induction l as [|x r IH]; simpl.
  - destruct (String.eqb_spec b a); [congruence | reflexivity].
  - destruct (String.eqb_spec (name x) b) as [E|E]; simpl.
    + destruct (String.eqb_spec b a); [congruence|].
      destruct (String.eqb_spec (name x) a); [congruence | reflexivity].
    + destruct (String.eqb_spec (name x) a); [reflexivity | exact IH].
Qed.

Lemma lookupAttr_None a l : lookupAttr a l = None ↔ a ∉ name <$> l.
Proof.
  induction l as [|x r IH]; simpl.
  - split; [intros _; apply not_elem_of_nil | reflexivity].
  - rewrite not_elem_of_cons. destruct (String.eqb_spec (name x) a) as [E|E].
    + split; [discriminate | intros [H _]; congruence].
    + rewrite IH. split; [intros H; split; [congruence | exact H] | intros [_ H]; exact H].
Qed.

Lemma names_setAttr a v l b :
  b ∈ name <$> setAttr a v l → b = a ∨ b ∈ name <$> l.
Proof.
  induction l as [|x r IH]; simpl.
  - rewrite list_elem_of_singleton. auto.
  - destruct (String.eqb_spec (name x) a) as [E|E]; simpl; rewrite !elem_of_cons.
    + intros [H|H]; auto.
    + intros [H|H]; [auto | destruct (IH H); auto].
Qed.

Lemma valid_setAttr a v l : validAttributes l → validAttributes (setAttr a v l).
Proof.
  unfold validAttributes. induction l as [|x r IH]; simpl; intros H.
  - apply NoDup_singleton.
  - apply NoDup_cons in H as [Hx Hr].
    destruct (String.eqb_spec (name x) a) as [E|E]; simpl.
    + apply NoDup_cons. split; [rewrite <- E; exact Hx | exact Hr].
    + apply NoDup_cons. split; [| exact (IH Hr)].
      intros Hin. apply names_setAttr in Hin as [Hin|Hin]; [congruence | contradiction].
Qed.

Lemma removeAttr_app_notin a l1 l2 :
  a ∉ name <$> l1 → removeAttr a (l1 ++ l2) = l1 ++ removeAttr a l2.
Proof.
  induction l1 as [|x r IH]; simpl; intros H; [reflexivity|].
  apply not_elem_of_cons in H as [Hx Hr].
  destruct (String.eqb_spec (name x) a); [congruence|]. f_equal. exact (IH Hr).
Qed.

Lemma mem_elem_of a l : mem a l = true ↔ a ∈ l.
Proof.
  unfold mem. rewrite existsb_exists. split.
  - intros (x & Hin & Hx). apply String.eqb_eq in Hx as ->. apply list_elem_of_In, Hin.
  - intros Hin. exists a. split; [apply list_elem_of_In, Hin | apply String.eqb_refl].
Qed.

Lemma valid_copyOne skip l x : validAttributes l → validAttributes (copyOne skip l x).
Proof. intros H. unfold copyOne. destruct (wanted skip l (name x)); auto using valid_setAttr. Qed.

Lemma valid_copied skip seg : ∀ l,
  validAttributes l → validAttributes (fold_left (copyOne skip) seg l).
Proof. induction seg as [|x seg IH]; simpl; intros l H; auto using valid_copyOne. Qed.

Lemma lookup_copyOne_ne skip l x a :
  a ≠ name x → lookupAttr a (copyOne skip l x) = lookupAttr a l.
Proof.
  intros Hne. unfold copyOne. destruct (wanted skip l (name x)); [|reflexivity].
  apply lookupAttr_setAttr_ne, Hne.
Qed.

Lemma lookup_copied_notin skip seg a : ∀ l,
  a ∉ name <$> seg → lookupAttr a (fold_left (copyOne skip) seg l) = lookupAttr a l.
Proof.
  induction seg as [|x seg IH]; simpl; intros l H; [reflexivity|].
  apply not_elem_of_cons in H as [Hx Hs].
  rewrite (IH _ Hs). apply lookup_copyOne_ne, Hx.
Qed.

Lemma lookup_copied skip seg a v : ∀ l,
  skipsFrontyidOnly skip → a ≠ "frontyid" → validAttributes seg →
  lookupAttr a seg = Some v →
  lookupAttr a (fold_left (copyOne skip) seg l) = Some v.
Proof.
  induction seg as [|x seg IH]; simpl; intros l Hs Ha Hv Hl; [discriminate|].
  apply NoDup_cons in Hv as [Hx Hv].
  destruct (String.eqb_spec (name x) a) as [E|E].
  - injection Hl as <-. subst a. rewrite (lookup_copied_notin _ _ _ _ Hx).
    unfold copyOne.
    assert (wanted skip l (name x) = true) as ->.
    { unfold wanted. destruct skip as [sk|]; [|reflexivity].
      destruct (mem (name x) sk) eqn:Hm; [|reflexivity].
      apply mem_elem_of in Hm. exfalso. apply Ha. exact (Hs sk _ eq_refl Hm). }
    apply lookupAttr_setAttr_eq.
  - apply IH; assumption.
Qed.

Lemma lookup_filter_kept l2 a : ∀ l,
  lookupAttr a (List.filter (kept l2) l)
  = match lookupAttr a l2 with Some _ => lookupAttr a l | None => None end.
Proof.
  induction l as [|x r IH]; simpl.
  - destruct (lookupAttr a l2); reflexivity.
  - unfold kept at 1. destruct (lookupAttr (name x) l2) eqn:Hx; simpl.
    + destruct (String.eqb_spec (name x) a) as [E|E]; [|exact IH].
      subst a. rewrite Hx. reflexivity.
    + rewrite IH. destruct (String.eqb_spec (name x) a) as [E|E]; [|reflexivity].
      subst a. rewrite Hx. reflexivity.
Qed.

Lemma patched_attributeEqual skip l1 l2 :
  skipsFrontyidOnly skip → validAttributes l2 →
  attributeEqual (List.filter (kept l2) (fold_left (copyOne skip) l2 l1)) l2.
Proof.
  intros Hs Hv a Ha. rewrite lookup_filter_kept.
  destruct (lookupAttr a l2) as [v|] eqn:E; [|reflexivity].
  apply lookup_copied; assumption.
Qed.

Lemma sameAttributesFrom_eq l1 : ∀ l2,
  length l1 = length l2 → sameAttributesFrom l1 l2 = true → l1 = l2.
Proof.
  induction l1 as [|x r1 IH]; intros [|y r2] Hl H; simpl in *; try discriminate; auto.
  destruct (String.eqb_spec (name x) (name y)) as [En|]; [|discriminate].
  destruct (String.eqb_spec (value x) (value y)) as [Ev|]; [|discriminate].
  simpl in H. destruct x, y; simpl in *; subst. f_equal. apply IH; [lia | exact H].
Qed.

Lemma lookup_filter_skip a l :
  a ≠ "frontyid" → lookupAttr a (List.filter skipAttributes l) = lookupAttr a l.
Proof.
  intros Ha. induction l as [|x r IH]; simpl; [reflexivity|].
  unfold skipAttributes at 1.
  destruct (String.eqb_spec (name x) "frontyid") as [E|E]; simpl.
  - destruct (String.eqb_spec (name x) a); [congruence | exact IH].
  - destruct (String.eqb_spec (name x) a); [reflexivity | exact IH].
Qed.

Lemma equalAttributes_attributeEqual e1 e2 :
  _equalAttributes (Element e1) (Element e2) = true →
  attributeEqual (el_attributes e1) (el_attributes e2).
Proof.
  unfold _equalAttributes. cbn [attributes].
  destruct (Nat.eqb_spec (length (List.filter skipAttributes (el_attributes e1)))
              (length (List.filter skipAttributes (el_attributes e2)))) as [E|];
    [|discriminate].
  simpl. intros H a Ha. apply sameAttributesFrom_eq in H; [|exact E].
  rewrite <- (lookup_filter_skip a (el_attributes e1) Ha),
          <- (lookup_filter_skip a (el_attributes e2) Ha), H. reflexivity.
Qed.

Lemma run_bind {A B} (m : M A) (k : A → M B) σ a σ' :
  m σ = (Done a, σ') → (m ≫= k) σ = k a σ'.
Proof. intros H. unfold mbind, M_bind, bind. rewrite H. reflexivity. Qed.

Lemma run_getNode σ r n : σ !! r = Some n → getNode r σ = (Done n, σ).
Proof. intros H. unfold getNode. rewrite H. reflexivity. Qed.

Lemma run_modifyNode σ r n f :
  σ !! r = Some n → modifyNode r f σ = (Done tt, <[r := f n]> σ).
Proof. intros H. unfold modifyNode. rewrite H. reflexivity. Qed.

Lemma run_when (b : bool) r f (σ : store) n :
  σ !! r = Some n →
  (if b then modifyNode r f else mret tt) σ = (Done tt, <[r := if b then f n else n]> σ).
Proof.
  intros H. destruct b; [apply run_modifyNode, H|].
  rewrite insert_id by exact H. reflexivity.
Qed.

Lemma copyAttribute_run skip t1 t2 i (σ : store) e1 e2 x :
  σ !! t1 = Some (Element e1) → σ !! t2 = Some (Element e2) → t1 ≠ t2 →
  el_attributes e2 !! i = Some x →
  copyAttribute skip t1 t2 i σ
  = (Done tt, <[t1 := Element (copyAttributeTo skip x e1)]> σ).
Proof.
  intros H1 H2 Hne Hx. unfold copyAttribute.
  rewrite (run_bind _ _ _ _ _ (run_getNode _ _ _ H2)).
  cbn [attributes mbind option_bind]. rewrite Hx. cbn [defined].
  rewrite (run_bind _ _ σ x σ eq_refl).
  rewrite (run_bind _ _ _ _ _ (run_getNode _ _ _ H1)).
  rewrite (run_bind _ _ _ _ _ (run_when _ _ _ _ _ H1)).
  rewrite (run_bind _ _ _ _ _ (run_when _ _ _ _ _ (lookup_insert_eq _ _ _))).
  rewrite insert_insert_eq.
  rewrite (run_bind _ _ _ _ _ (run_getNode _ _ _ (lookup_insert_eq _ _ _))).
  destruct e1 as [tag attrs children v c]. unfold copyAttributeTo, copyOne.
  cbn [elementValue el_value el_tagName el_attributes el_childNodes el_checked].
  change (wanted skip attrs (name x))
    with (mustSet skip (Element (mkElement tag attrs children v c)) (name x)).
  destruct ((name x =? "value")%string && valueDiffers v (value x));
    destruct (name x =? "checked")%string; cbn [setValue setChecked
      el_value el_tagName el_attributes el_childNodes el_checked];
    (match goal with
     | |- context [mustSet skip (Element ?e) (name x)] =>
         change (mustSet skip (Element e) (name x))
           with (mustSet skip (Element (mkElement tag attrs children v c)) (name x))
     end);
    destruct (mustSet skip (Element (mkElement tag attrs children v c)) (name x));
    cbn [attributes defined];
    unfold mbind, M_bind, bind, ret, mret, M_ret, ret, modifyNode;
    rewrite ?lookup_insert_eq, ?insert_insert_eq; reflexivity.
Qed.
Lemma copyAttributes_run skip t1 t2 e2 count : ∀ from (σ : store) e1,
  σ !! t1 = Some (Element e1) → σ !! t2 = Some (Element e2) → t1 ≠ t2 →
  from + count ≤ length (el_attributes e2) →
  ∃ e1',
    copyAttributes skip t1 t2 from count σ = (Done tt, <[t1 := Element e1']> σ)
    ∧ el_attributes e1'
      = fold_left (copyOne skip) (take count (drop from (el_attributes e2)))
          (el_attributes e1)
    ∧ el_tagName e1' = el_tagName e1 ∧ el_childNodes e1' = el_childNodes e1.
Proof.
  induction count as [|count IH]; intros from σ e1 H1 H2 Hne Hlen.
  - exists e1. cbn [copyAttributes]. rewrite insert_id by exact H1. auto.
  - destruct (lookup_lt_is_Some_2 (el_attributes e2) from ltac:(lia)) as [x Hx].
    cbn [copyAttributes].
    rewrite (run_bind _ _ _ _ _ (copyAttribute_run skip t1 t2 from σ e1 e2 x H1 H2 Hne Hx)).
    destruct (IH (S from) (<[t1 := Element (copyAttributeTo skip x e1)]> σ)
                (copyAttributeTo skip x e1)) as (e1' & Hrun & Hattrs & Htag & Hch).
    { apply lookup_insert_eq. }
    { rewrite lookup_insert_ne by exact Hne. exact H2. }
    { exact Hne. }
    { lia. }
    exists e1'. rewrite Hrun, insert_insert_eq.
    rewrite (drop_S _ _ _ Hx). cbn [take fold_left]. auto.
Qed.

Lemma dropAttribute_run t1 t2 j (σ : store) e1 e2 x :
  σ !! t1 = Some (Element e1) → σ !! t2 = Some (Element e2) → t1 ≠ t2 →
  el_attributes e1 !! j = Some x →
  dropAttribute t1 t2 j σ
  = (Done tt, <[t1 := Element (dropAttributeFrom (el_attributes e2) x e1)]> σ).
Proof.
  intros H1 H2 Hne Hx. unfold dropAttribute.
  rewrite (run_bind _ _ _ _ _ (run_getNode _ _ _ H1)).
  cbn [attributes mbind option_bind]. rewrite Hx. cbn [defined].
  rewrite (run_bind _ _ σ x σ eq_refl).
  rewrite (run_bind _ _ _ _ _ (run_getNode _ _ _ H2)).
  unfold dropAttributeFrom, kept, hasAttribute. cbn [getAttribute].
  destruct (lookupAttr (name x) (el_attributes e2)); cbn [negb].
  - rewrite insert_id by exact H1. reflexivity.
  - rewrite (run_bind _ _ _ _ _ (run_when _ _ _ _ _ H1)).
    rewrite (run_modifyNode _ _ _ _ (lookup_insert_eq _ _ _)), insert_insert_eq.
    destruct e1 as [tag attrs children v c].
    destruct (name x =? "checked")%string; reflexivity.
Qed.

Lemma dropAttributes_run t1 t2 e2 l count : ∀ (σ : store) e,
  σ !! t1 = Some (Element e) → σ !! t2 = Some (Element e2) → t1 ≠ t2 →
  validAttributes l → count ≤ length l →
  el_attributes e = take count l ++ List.filter (kept (el_attributes e2)) (drop count l) →
  ∃ e',
    dropAttributes t1 t2 count σ = (Done tt, <[t1 := Element e']> σ)
    ∧ el_attributes e' = List.filter (kept (el_attributes e2)) l
    ∧ el_tagName e' = el_tagName e ∧ el_childNodes e' = el_childNodes e.
Proof.
  induction count as [|j IH]; intros σ e H1 H2 Hne Hv Hlen Hattrs.
  - exists e. cbn [dropAttributes]. rewrite insert_id by exact H1.
    rewrite Hattrs. auto.
  - destruct (lookup_lt_is_Some_2 l j ltac:(lia)) as [x Hx].
    assert (el_attributes e !! j = Some x) as Hj.
    { rewrite Hattrs, lookup_app_l by (rewrite length_take; lia).
      rewrite lookup_take_lt by lia. exact Hx. }
    cbn [dropAttributes].
    rewrite (run_bind _ _ _ _ _ (dropAttribute_run t1 t2 j σ e e2 x H1 H2 Hne Hj)).
    destruct (IH (<[t1 := Element (dropAttributeFrom (el_attributes e2) x e)]> σ)
                (dropAttributeFrom (el_attributes e2) x e))
      as (e' & Hrun & Hres & Htag & Hch).
    { apply lookup_insert_eq. }
    { rewrite lookup_insert_ne by exact Hne. exact H2. }
    { exact Hne. }
    { exact Hv. }
    { lia. }
    { rewrite (drop_S _ _ _ Hx). cbn [List.filter].
      unfold dropAttributeFrom. destruct (kept (el_attributes e2) x) eqn:Hk.
      - rewrite Hattrs, (take_S_r _ _ _ Hx), <- app_assoc. reflexivity.
      - cbn [el_attributes]. rewrite Hattrs, (take_S_r _ _ _ Hx), <- app_assoc.
        rewrite removeAttr_app_notin.
        + simpl. rewrite String.eqb_refl. reflexivity.
        + unfold validAttributes in Hv.
          rewrite <- (take_drop_middle _ _ _ Hx), fmap_app, fmap_cons in Hv.
          apply NoDup_app in Hv as (_ & Hdis & _).
          intros Hin. apply (Hdis _ Hin). left. }
    exists e'. rewrite Hrun, insert_insert_eq. split; [reflexivity|].
    split; [exact Hres|].
    unfold dropAttributeFrom in Htag, Hch.
    destruct (kept (el_attributes e2) x); auto.
Qed.

Lemma applyAttributes_run skip t1 t2 (σ : store) e1 e2 :
  σ !! t1 = Some (Element e1) → σ !! t2 = Some (Element e2) → t1 ≠ t2 →
  validAttributes (el_attributes e1) →
  ∃ e1',
    applyAttributes skip t1 t2 σ = (Done tt, <[t1 := Element e1']> σ)
    ∧ el_attributes e1'
      = List.filter (kept (el_attributes e2))
          (fold_left (copyOne skip) (el_attributes e2) (el_attributes e1))
    ∧ el_tagName e1' = el_tagName e1 ∧ el_childNodes e1' = el_childNodes e1.
Proof.
  intros H1 H2 Hne Hv. unfold applyAttributes.
  rewrite (run_bind _ _ _ _ _ (run_getNode _ _ _ H2)). cbn [attributes defined].
  rewrite (run_bind (ret (el_attributes e2)) _ σ _ σ eq_refl).
  destruct (copyAttributes_run skip t1 t2 e2 (length (el_attributes e2)) 0 σ e1
              H1 H2 Hne ltac:(lia)) as (ea & Hrun & Hattrs & Htag & Hch).
  rewrite drop_0, firstn_all in Hattrs.
  rewrite (run_bind _ _ _ _ _ Hrun).
  rewrite (run_bind _ _ _ _ _ (run_getNode _ _ _ (lookup_insert_eq _ _ _))).
  cbn [attributes defined].
  rewrite (run_bind (ret (el_attributes ea)) _ (<[t1 := Element ea]> σ) _ _ eq_refl).
  destruct (dropAttributes_run t1 t2 e2 (el_attributes ea) (length (el_attributes ea))
              (<[t1 := Element ea]> σ) ea) as (e' & Hrun' & Hres & Htag' & Hch').
  { apply lookup_insert_eq. }
  { rewrite lookup_insert_ne by exact Hne. exact H2. }
  { exact Hne. }
  { rewrite Hattrs. apply valid_copied, Hv. }
  { lia. }
  { rewrite firstn_all, drop_all. cbn [List.filter]. rewrite app_nil_r. reflexivity. }
  exists e'. rewrite Hrun', insert_insert_eq. split; [reflexivity|].
  rewrite Hres, Hattrs. split; [reflexivity|]. split; congruence.
Qed.

(** C8. For two elements T1 and T2 with the same tag name, two different
    nodes whose attribute lists name each attribute once: if the patch
    list of [diff(T1, T2)] holds the ['attributes'] patch of the pair,
    applying it (with [skipAttributes] absent or naming ['frontyid'] only)
    writes T1 alone and leaves it with, ['frontyid'] apart, exactly the
    attributes of T2, each with the value it has on T2; if the patch list
    does not hold it, T1 and T2 already have, ['frontyid'] apart, the same
    attributes with the same values. *)
Theorem attributes_patch_round_trip (fuel : nat) (σ σ' : store) (t1 t2 : nid)
    (e1 e2 : ElementData) (skip : option (list string)) (ps : list patch) :
  σ !! t1 = Some (Element e1) → σ !! t2 = Some (Element e2) → t1 ≠ t2 →
  el_tagName e1 = el_tagName e2 →
  validAttributes (el_attributes e1) → validAttributes (el_attributes e2) →
  skipsFrontyidOnly skip →
  diff fuel t1 t2 None σ = (Done ps, σ') →
  (Attributes t1 t2 ∈ ps →
     ∃ e1', applyAttributes skip t1 t2 σ = (Done tt, <[t1 := Element e1']> σ)
            ∧ attributeEqual (el_attributes e1') (el_attributes e2))
  ∧ (Attributes t1 t2 ∉ ps → attributeEqual (el_attributes e1) (el_attributes e2)).
Proof.
  intros H1 H2 Hne Htag Hv1 Hv2 Hskip Hdiff. split.
  - intros _.
    destruct (applyAttributes_run skip t1 t2 σ e1 e2 H1 H2 Hne Hv1)
      as (e1' & Hrun & Hattrs & _).
    exists e1'. split; [exact Hrun|]. rewrite Hattrs.
    apply patched_attributeEqual; assumption.
  - intros Hnot. destruct fuel as [|f]; [discriminate|].
    rewrite (diff_compare f t1 t2 None σ (Element e1) (Element e2) eq_refl H1 H2) in Hdiff
      by (cbn; congruence).
    match type of Hdiff with
    | (outcomeMap _ ?o, _) = _ => destruct o as [r| |]; try discriminate
    end.
    cbn [outcomeMap] in Hdiff. injection Hdiff as <- _.
    unfold compareNodes in Hnot. cbn [isTextOrComment nodeType andb] in Hnot.
    destruct (_equalAttributes (Element e1) (Element e2)) eqn:E.
    + apply equalAttributes_attributeEqual, E.
    + exfalso. apply Hnot. cbn [negb]. apply elem_of_app. right.
      apply list_elem_of_singleton. reflexivity.
Qed.

Lemma attributes_patch_round_trip_witness :
  (Attributes 1 2 ∈ [Attributes 1 2] →
     ∃ e1', applyAttributes (Some ["frontyid"]) 1 2 restyled
            = (Done tt, <[1 := Element e1']> restyled)
            ∧ attributeEqual (el_attributes e1') [mkAttr "title" "t"; mkAttr "class" "b"])
  ∧ (Attributes 1 2 ∉ [Attributes 1 2] →
       attributeEqual [mkAttr "class" "a"; mkAttr "lang" "en"; mkAttr "frontyid" "3"]
                      [mkAttr "title" "t"; mkAttr "class" "b"]).
Proof.
  apply (attributes_patch_round_trip 5 restyled restyled 1 2
           (mkElement "P" [mkAttr "class" "a"; mkAttr "lang" "en"; mkAttr "frontyid" "3"]
              [] None None)
           (mkElement "P" [mkAttr "title" "t"; mkAttr "class" "b"] [] None None)
           (Some ["frontyid"]) [Attributes 1 2]).
  - reflexivity.
  - reflexivity.
  - lia.
  - reflexivity.
  - unfold validAttributes. apply (bool_decide_unpack _). vm_compute. exact I.
  - unfold validAttributes. apply (bool_decide_unpack _). vm_compute. exact I.
  - intros l a [= <-] Hin. apply list_elem_of_singleton in Hin. exact Hin.
  - vm_compute. reflexivity.
Defined.

(** *** The identifier marker *)

Lemma append_assoc (s1 s2 s3 : string) : (s1 +:+ s2) +:+ s3 = s1 +:+ (s2 +:+ s3).
Proof.
  induction s1 as [|c s1 IH]; [reflexivity|].
  change (String c ((s1 +:+ s2) +:+ s3) = String c (s1 +:+ (s2 +:+ s3))).
  f_equal. exact IH.
Qed.

Lemma append_cons c (s r : string) : String c s +:+ r = String c (s +:+ r).
Proof. reflexivity. Qed.

Lemma append_empty (r : string) : "" +:+ r = r.
Proof. reflexivity. Qed.

Lemma stripPrefix_append p s : stripPrefix p (p +:+ s) = Some s.
Proof.
  induction p as [|c p IH]; [reflexivity|].
  rewrite append_cons. simpl. rewrite Ascii.eqb_refl. exact IH.
Qed.

Lemma stripPrefix_Some p : ∀ s r, stripPrefix p s = Some r → s = p +:+ r.
Proof.
  induction p as [|c p IH]; intros s r H; simpl in H.
  - rewrite append_empty. congruence.
  - destruct s as [|c' s]; [discriminate|].
    destruct (Ascii.eqb_spec c c') as [->|]; [|discriminate].
    rewrite append_cons. f_equal. apply IH, H.
Qed.

Lemma spanDigits_append ds rest :
  allDigits ds = true →
  spanDigits (ds +:+ String "#" rest) = (ds, String "#" rest).
Proof.
  induction ds as [|c ds IH]; intros H; [reflexivity|].
  simpl in H. apply andb_prop in H as [Hc Hds].
  rewrite append_cons. simpl. rewrite Hc, (IH Hds). reflexivity.
Qed.

Lemma spanDigits_spec s : ∀ ds rest,
  spanDigits s = (ds, rest) → s = ds +:+ rest ∧ allDigits ds = true.
Proof.
  induction s as [|c s IH]; simpl; intros ds rest H.
  - inversion H. split; reflexivity.
  - destruct (isDigit c) eqn:Hc.
    + destruct (spanDigits s) as [ds' rest'] eqn:E. inversion H; subst.
      destruct (IH ds' rest eq_refl) as [-> Hd]. split; [reflexivity|].
      simpl. rewrite Hc. exact Hd.
    + inversion H. split; reflexivity.
Qed.

Lemma matchMarker_marker m payload :
  isMarker m → matchMarker (m +:+ payload) = Some m.
Proof.
  intros (ds & Hne & Hd & ->). unfold matchMarker.
  rewrite !append_assoc, stripPrefix_append.
  change ("#" +:+ payload) with (String "#" payload).
  rewrite (spanDigits_append ds payload Hd).
  destruct ds as [|d ds]; [congruence | reflexivity].
Qed.

Lemma matchMarker_Some v m :
  matchMarker v = Some m → isMarker m ∧ ∃ payload, v = m +:+ payload.
Proof.
  unfold matchMarker. destruct (stripPrefix "__FTN__:" v) as [rest|] eqn:Hp; [|discriminate].
  apply stripPrefix_Some in Hp.
  destruct (spanDigits rest) as [ds r] eqn:Hs.
  apply spanDigits_spec in Hs as [-> Hd].
  destruct ds as [|d ds]; [discriminate|].
  destruct r as [|c r]; [discriminate|].
  destruct (Ascii.eqb_spec c "#") as [->|Hc].
  - intros [= <-]. split.
    + exists (String d ds). repeat split; [discriminate | exact Hd].
    + exists r. rewrite Hp, !append_assoc. reflexivity.
  - intros H. exfalso. revert H.
    destruct c as [[] [] [] [] [] [] [] []]; try discriminate. congruence.
Qed.

(** C9. Applying a ['node-value'] patch to a text or comment target
    writes, as the target's value, the marker [__FTN__:<id>#] that the
    target's value started with, followed by the replacement's value; a
    target whose value starts with no marker receives the replacement's
    value as it is. Nothing but the target is written. *)
Theorem node_value_keeps_marker (σ : store) (toReplace replacement : nid)
    (target source : Node) (v : string) :
  σ !! toReplace = Some target → isTextOrComment target = true →
  σ !! replacement = Some source → nodeValue source = Some v →
  ∃ target',
    applyNodeValue toReplace replacement σ = (Done tt, <[toReplace := target']> σ)
    ∧ nodeType target' = nodeType target
    ∧ (∀ m payload, isMarker m → nodeValue target = Some (m +:+ payload) →
         nodeValue target' = Some (m +:+ v))
    ∧ ((∀ m payload, isMarker m → nodeValue target ≠ Some (m +:+ payload)) →
         nodeValue target' = Some v).
Proof.
  intros Ht Hk Hr Hv.
  exists (setNodeValue
            (default "" (matchMarker (toString (nodeValue target))) +:+ v) target).
  split; [|split; [|split]].
  - unfold applyNodeValue, mbind, M_bind, bind, getNode, modifyNode.
    rewrite Ht, Hr, Ht, Hv. reflexivity.
  - destruct target; reflexivity.
  - intros m payload Hm Hval.
    destruct target as [e|d|d]; [discriminate | |]; simpl in *;
      injection Hval as ->; rewrite (matchMarker_marker m payload Hm); reflexivity.
  - intros Hno.
    destruct target as [e|d|d]; [discriminate | |]; simpl in *;
      (destruct (matchMarker d) as [m|] eqn:E; [|reflexivity]);
      apply matchMarker_Some in E as [Hm [payload ->]];
      exfalso; exact (Hno m payload Hm eq_refl).
Qed.

Lemma node_value_keeps_marker_witness :
  ∃ target',
    applyNodeValue 1 2 marked = (Done tt, <[1 := target']> marked)
    ∧ nodeType target' = TEXT_NODE
    ∧ (∀ m payload, isMarker m → Some "__FTN__:7#old" = Some (m +:+ payload) →
         nodeValue target' = Some (m +:+ "new"))
    ∧ ((∀ m payload, isMarker m → Some "__FTN__:7#old" ≠ Some (m +:+ payload)) →
         nodeValue target' = Some "new").
Proof.
  apply (node_value_keeps_marker marked 1 2 (Text "__FTN__:7#old") (Text "new") "new");
    reflexivity.
Defined.

End PatchFacts.

(* ===================================================================== *)
(** ** Properties of [Component.render]                                  *)
(* ===================================================================== *)

Module RenderFacts.
Import TreeComparator Component Examples.

(** [appendChild] on the empty [newTree] gives one child or throws a
    [TypeError]. *)
Lemma appendChild_one node (σ : store) :
  (∃ r, node = Some r ∧ appendChild [] node σ = (Done [r], σ))
  ∨ appendChild [] node σ = (Throws TypeError, σ).
Proof. destruct node as [r|]; [left; exists r; split; reflexivity | right; reflexivity]. Qed.

Lemma firstChild_outcome node (σ : store) :
  (∃ c, firstChild node σ = (Done c, σ)) ∨ firstChild node σ = (Throws TypeError, σ).
Proof.
  destruct node as [r|]; [|right; reflexivity].
  unfold firstChild, mbind, M_bind, bind, defined, mret, M_ret, ret, getNode.
  destruct (σ !! r); [left; eexists; reflexivity | right; reflexivity].
Qed.

(** Whatever node the parsing service passes, the new tree has one child
    when the length test is made. *)
Lemma newTree_one_child (build : M (list nid)) (σ : store) :
  ((∃ r, build σ = (Done [r], σ)) ∨ build σ = (Throws TypeError, σ)) →
  (∃ r, (newTree ← build;
         if 1 <? length newTree then throw MustReturnSingleRoot
         else defined (head newTree)) σ = (Done r, σ))
  ∨ (newTree ← build;
     if 1 <? length newTree then throw MustReturnSingleRoot
     else defined (head newTree)) σ = (Throws TypeError, σ).
Proof.
  unfold mbind, M_bind, bind. intros [[r H]|H]; rewrite H.
  - left. exists r. reflexivity.
  - right. reflexivity.
Qed.

Lemma renderMarkup_outcome parse html (σ σ1 : store) node :
  parse (if isRow html then "<table><tbody>" +:+ html +:+ "</tbody></table>"
         else if isCell html then "<table><tbody><tr>" +:+ html +:+ "</tr></tbody></table>"
         else html) σ = (Done node, σ1) →
  (∃ r, renderMarkup parse html σ = (Done r, σ1))
  ∨ renderMarkup parse html σ = (Throws TypeError, σ1).
Proof.
  intros Hparse.
  assert (renderMarkup parse html σ
          = (newTree ←
               (if isRow html then
                  a ← firstChild node; b ← firstChild a; appendChild [] b
                else if isCell html then
                  a ← firstChild node; b ← firstChild a; c ← firstChild b;
                  appendChild [] c
                else appendChild [] node);
             if 1 <? length newTree then throw MustReturnSingleRoot
             else defined (head newTree)) σ1) as ->.
  { unfold renderMarkup. cbv zeta.
    unfold mbind at 1, M_bind at 1, bind at 1. rewrite Hparse. reflexivity. }
  apply newTree_one_child.
  destruct (isRow html); [|destruct (isCell html)].
  - unfold mbind, M_bind, bind.
    destruct (firstChild_outcome node σ1) as [[a ->]| ->]; [|right; reflexivity].
    destruct (firstChild_outcome a σ1) as [[b ->]| ->]; [|right; reflexivity].
    destruct (appendChild_one b σ1) as [(r & _ & ->)| ->]; [left; eauto | right; reflexivity].
  - unfold mbind, M_bind, bind.
    destruct (firstChild_outcome node σ1) as [[a ->]| ->]; [|right; reflexivity].
    destruct (firstChild_outcome a σ1) as [[b ->]| ->]; [|right; reflexivity].
    destruct (firstChild_outcome b σ1) as [[c ->]| ->]; [|right; reflexivity].
    destruct (appendChild_one c σ1) as [(r & _ & ->)| ->]; [left; eauto | right; reflexivity].
  - destruct (appendChild_one node σ1) as [(r & _ & ->)| ->]; [left; eauto | right; reflexivity].
Qed.

(** C3 (the code does otherwise). With the default parsing service,
    [render] never throws its single-root error: the service passes only
    the first child of the parsed markup, so [newTree] has one child when
    its length is tested. Markup that parses to two roots or more (and is
    no table row or cell) is rendered from its first root: that root is
    what [_renderNewTree] receives. *)
Theorem multi_root_markup_is_rendered
    (innerHTML : string → store → list nid * store) (html : string) (σ : store) :
  (renderMarkup (_defaultParsingService innerHTML) html σ).1 ≠ Throws MustReturnSingleRoot
  ∧ (∀ r1 r2 rest σ',
       isRow html = false → isCell html = false →
       innerHTML html σ = (r1 :: r2 :: rest, σ') →
       renderMarkup (_defaultParsingService innerHTML) html σ = (Done r1, σ')).
Proof.
  split.
  - set (corrected := if isRow html then "<table><tbody>" +:+ html +:+ "</tbody></table>"
         else if isCell html then "<table><tbody><tr>" +:+ html +:+ "</tr></tbody></table>"
         else html).
    destruct (innerHTML corrected σ) as [roots σ1] eqn:Hp.
    destruct (renderMarkup_outcome (_defaultParsingService innerHTML) html σ σ1 (head roots))
      as [[r ->]| ->]; [| discriminate | discriminate].
    unfold _defaultParsingService. fold corrected. rewrite Hp. reflexivity.
  - intros r1 r2 rest σ' Hrow Hcell Hp.
    unfold renderMarkup, _defaultParsingService. rewrite Hrow, Hcell.
    unfold mbind, M_bind, bind. rewrite Hp. reflexivity.
Qed.

Lemma multi_root_markup_is_rendered_witness :
  (renderMarkup (_defaultParsingService twoRoots) "<div>a</div><div>b</div>" page).1
    ≠ Throws MustReturnSingleRoot
  ∧ renderMarkup (_defaultParsingService twoRoots) "<div>a</div><div>b</div>" page
    = (Done 1, page).
Proof.
  split.
  - apply (proj1 (multi_root_markup_is_rendered twoRoots "<div>a</div><div>b</div>" page)).
  - apply (proj2 (multi_root_markup_is_rendered twoRoots "<div>a</div><div>b</div>" page)
             1 2 [] page); reflexivity.
Defined.

(** C4 (the code does otherwise). A component renders [<div>hi</div>],
    then renders the same output again: the second [diff] returns a
    ['node-value'] patch for the text node. The snapshot kept from the
    first render holds the tagged value [__FTN__:1#hi], the new tree
    holds [hi], and [diff] compares the two values as they are. *)
Theorem identical_rerender_patches_text :
  (renderTwice 10 page).1
  = Done ([NodeValue 11 21], mkComponent "app" [] (Some 10) 2).
Proof. vm_compute. reflexivity. Qed.

End RenderFacts.

(* ===================================================================== *)
(** ** Properties of [Model]                                             *)
(* ===================================================================== *)

Module ModelFacts.
Import Model Examples.

Section Stable.
Context {Data Hint Observer : Type}.
Variable call : Observer → @notifier Data Hint Observer → @Model.Model Data Observer
                → option Hint → list (@event Hint Observer)
                → option (@ending Data Hint Observer).

(** Every observer returns, and has neither added or removed an observer
    of the model nor called one. *)
Hypothesis stable : ∀ o again m h log,
  ∃ m', call o again m h log = Some (Returns m' log) ∧ observers m' = observers m.

Lemma notifyFrom_stable hint fuel : ∀ i m log,
  length (observers m) - i < fuel →
  ∃ m', notifyFrom call fuel i hint m log
        = Some (Returns m' (log ++ ((λ o, Notify o hint) <$> drop i (observers m))))
        ∧ observers m' = observers m.
Proof.
  induction fuel as [|fuel IH]; intros i m log Hlt; [lia|].
  cbn [notifyFrom]. destruct (observers m !! i) as [o|] eqn:Hi.
  - destruct (stable o (λ hint' m' log', notifyFrom call fuel 0 hint' m' log') m hint
                (log ++ [Notify o hint])) as (m1 & -> & Hobs1).
    destruct (IH (S i) m1 (log ++ [Notify o hint])) as (m' & Hrun & Hobs).
    { rewrite Hobs1. apply lookup_lt_Some in Hi. lia. }
    exists m'. rewrite Hrun, Hobs1 in *. split; [|exact Hobs].
    rewrite (drop_S _ _ _ Hi), fmap_cons, <- app_assoc. reflexivity.
  - exists m. apply lookup_ge_None in Hi. rewrite drop_ge by lia.
    rewrite app_nil_r. auto.
Qed.
End Stable.

(** Registration order is the order of the list: [addObserver] puts the
    new observer last. *)
Lemma addObserver_registers_last {Data Observer : Type} (o : Observer)
    (m : @Model.Model Data Observer) :
  observers (addObserver o m) = observers m ++ [o].
Proof. reflexivity. Qed.

(** What the code does do: [set(update, hint)] runs [update] on the
    model, then notifies, and where every observer returns without
    adding, removing or calling an observer of the model, [set] returns
    and each observer registered when the notification starts has been
    called exactly once, in registration order, with the model and the
    hint. *)
Theorem set_updates_then_notifies_each_once {Data Hint Observer : Type}
    (call : Observer → @notifier Data Hint Observer → @Model.Model Data Observer
            → option Hint → list (@event Hint Observer)
            → option (@ending Data Hint Observer))
    (update : @Model.Model Data Observer → @Model.Model Data Observer)
    (hint : option Hint) (m : @Model.Model Data Observer) (fuel : nat) :
  (∀ o again m' h log,
     ∃ m'', call o again m' h log = Some (Returns m'' log) ∧ observers m'' = observers m') →
  length (observers (update m)) < fuel →
  ∃ m', set call fuel update hint m
        = Some (Returns m' (Update :: ((λ o, Notify o hint) <$> observers (update m)))).
Proof.
  intros Hstable Hfuel. unfold set, notifyObservers.
  destruct (notifyFrom_stable call Hstable hint fuel 0 (update m) [Update])
    as (m' & Hrun & _); [lia|].
  exists m'. rewrite Hrun, drop_0. reflexivity.
Qed.

Lemma set_updates_then_notifies_each_once_witness :
  ∃ m', set idle 3 (λ m, m) (None : option unit) twoObservers
        = Some (Returns m' [Update; Notify 0 None; Notify 1 None]).
Proof.
  apply (set_updates_then_notifies_each_once idle (λ m, m) None twoObservers 3).
  - intros o again m h log. exists m. split; reflexivity.
  - simpl. lia.
Defined.

(** An observer that throws ends the notification: the loop catches
    nothing, [set] throws, and the observers after it are not called. *)
Lemma throwing_observer_ends_the_notification {Data Hint Observer : Type}
    (call : Observer → @notifier Data Hint Observer → @Model.Model Data Observer
            → option Hint → list (@event Hint Observer)
            → option (@ending Data Hint Observer))
    (fuel i : nat) (hint : option Hint) (m m' : @Model.Model Data Observer)
    (o : Observer) (log log' : list event) :
  observers m !! i = Some o →
  call o (λ hint' m1 log1, notifyFrom call fuel 0 hint' m1 log1) m hint
    (log ++ [Notify o hint]) = Some (Throws m' log') →
  notifyFrom call (S fuel) i hint m log = Some (Throws m' log').
Proof. intros Hi Hcall. cbn [notifyFrom]. rewrite Hi, Hcall. reflexivity. Qed.

Lemma throwing_observer_ends_the_notification_witness :
  set throwing 3 (λ m, m) (None : option unit) twoObservers
  = Some (Throws twoObservers [Update; Notify 0 None]).
Proof.
  apply (throwing_observer_ends_the_notification throwing 2 0 None twoObservers
           twoObservers 0 [Update] [Update; Notify 0 None]); reflexivity.
Defined.

(** An observer that calls [notifyObservers] itself: the observers it
    has called are in the record, before the observers that the outer
    loop goes on to call. *)
Lemma reentering_observer_is_recorded (fuel : nat) :
  set reentering (S (S (S (S (S fuel))))) (λ m, m) (None : option unit) twoObserversOnce
  = Some (Returns (mkModel [0; 1] true)
            [Update; Notify 0 None; Notify 0 None; Notify 1 None; Notify 1 None]).
Proof. reflexivity. Qed.

(** C10 fails on the code. Observers 0 and 1 are registered and observer
    0 unregisters itself when called: [set] returns, given two units of
    fuel or more, after [update] and the one call of observer 0; the
    loop of [notifyObservers] has found index 1 past the end of the
    list. Observer 1 is registered then, as it was when the notification
    started, and has not been called: [set] has not invoked every
    observer once. *)
Theorem self_removing_observer_hides_the_next :
  (∀ fuel, set selfRemoving (S (S fuel)) (λ m, m) None twoObservers
           = Some (Returns (mkModel [1] tt) [Update; Notify 0 None]))
  ∧ leftOut selfRemoving (λ m, m) None twoObservers 1
  ∧ ¬ notifiesEachOnce selfRemoving (λ m, m) None twoObservers.
Proof.
  assert (∀ fuel, set selfRemoving (S (S fuel)) (λ m, m) None twoObservers
                  = Some (Returns (mkModel [1] tt) [Update; Notify 0 None])) as Hrun
    by (intros fuel; reflexivity).
  split; [exact Hrun|]. split.
  - exists 2, (mkModel [1] tt), [Update; Notify 0 None].
    split; [left; apply Hrun|]. split.
    + apply list_elem_of_here.
    + intros Hin. apply list_elem_of_In in Hin.
      destruct Hin as [H | [H | []]]; discriminate.
  - intros (fuel & m' & H).
    destruct fuel as [|[|fuel]]; [discriminate H | discriminate H |].
    rewrite Hrun in H. discriminate.
Qed.

End ModelFacts.

(* ===================================================================== *)
(** ** Properties of the key tables                                     *)
(* ===================================================================== *)

Module KeyTableFacts.
Import TreeComparator KeyTable.

Lemma slot_index_set key e idx k :
  slot (index_set key e idx) k = if decide (key = k) then Some e else slot idx k.
Proof.
  unfold slot, index_set.
  destruct (String.eqb_spec key "__proto__") as [->|Hk]; cbn [own proto].
  - destruct (String.eqb_spec k "__proto__") as [->|Hk'].
    + rewrite decide_True by reflexivity. reflexivity.
    + rewrite decide_False by congruence. reflexivity.
  - destruct (String.eqb_spec k "__proto__") as [->|Hk'].
    + rewrite decide_False by congruence. reflexivity.
    + rewrite lookup_insert. destruct (decide (key = k)); reflexivity.
Qed.

Lemma assigned_index_set key e idx : assigned idx → assigned (index_set key e idx).
Proof.
  unfold assigned, index_set. intros H.
  destruct (String.eqb_spec key "__proto__") as [->|Hk]; cbn [own]; [exact H|].
  rewrite lookup_insert_ne by exact Hk. exact H.
Qed.

Lemma key_pos_slot idx k : assigned idx → key_pos (Some k) idx = pos <$> slot idx k.
Proof.
  unfold assigned, key_pos, slot. cbn [propertyName default from_option id]. intros H.
  destruct (String.eqb_spec k "__proto__") as [->|Hk].
  - rewrite H. reflexivity.
  - destruct (own idx !! k); reflexivity.
Qed.

Lemma truthy_Some key k : truthy key = Some k → key = Some k ∧ k ≠ "".
Proof.
  destruct key as [[|c s]|]; cbn; try discriminate; intros [= <-]; split; congruence.
Qed.

(** One loop of the table construction, from position [i] and table
    [idx]: it reads only, and the slot of each key holds the last child
    that carries it, or else what it held before. *)
Lemma indexChildren_slots (σ : store) children : ∀ i idx idx' σ',
  indexChildren children i idx σ = (Done idx', σ') →
  σ' = σ
  ∧ (assigned idx → assigned idx')
  ∧ ∀ k,
      (∀ e, slot idx' k = Some e →
         (∃ p, lastWithKey σ children k p ∧ e = mkEntry (default 0 (children !! p)) (i + p))
         ∨ (slot idx k = Some e ∧ ∀ q, children !! q ≫= childKey σ ≠ Some k))
      ∧ (slot idx' k = None →
         slot idx k = None ∧ ∀ q, children !! q ≫= childKey σ ≠ Some k).
Proof.
  induction children as [|c rest IH]; intros i idx idx' σ' Hrun.
  - cbn in Hrun. injection Hrun as <- <-. split; [reflexivity|]. split; [auto|].
    intros k. split.
    + intros e He. right. split; [exact He|]. intros q. rewrite lookup_nil. discriminate.
    + intros Hn. split; [exact Hn|]. intros q. rewrite lookup_nil. discriminate.
  - cbn [indexChildren] in Hrun. unfold mbind at 1, M_bind at 1, bind at 1, getNode in Hrun.
    destruct (σ !! c) as [n|] eqn:Hc; [|discriminate].
    set (idx1 := match nodeType n with
                 | ELEMENT_NODE =>
                     match truthy (getAttribute n "key") with
                     | Some key => index_set key (mkEntry c i) idx
                     | None => idx
                     end
                 | _ => idx
                 end) in Hrun.
    destruct (IH (S i) idx1 idx' σ' Hrun) as (-> & Hass & Hslots).
    split; [reflexivity|].
    assert (∀ k, slot idx1 k = if decide (childKey σ c = Some k) then Some (mkEntry c i)
                               else slot idx k) as Hidx1.
    { intros k. unfold childKey. rewrite Hc. subst idx1.
      destruct n as [e|v|v]; cbn [nodeType getAttribute];
        try (rewrite decide_False by discriminate; reflexivity).
      destruct (truthy (lookupAttr "key" (el_attributes e))) as [key|].
      - rewrite slot_index_set.
        destruct (decide (key = k)) as [->|Hne].
        + rewrite decide_True by reflexivity. reflexivity.
        + rewrite decide_False by congruence. reflexivity.
      - rewrite decide_False by discriminate. reflexivity. }
    split.
    { intros Ha. apply Hass. subst idx1.
      destruct (nodeType n); try exact Ha.
      destruct (truthy (getAttribute n "key")); [apply assigned_index_set|]; exact Ha. }
    intros k. destruct (Hslots k) as [Hsome Hnone]. split.
    + intros e He. destruct (Hsome e He) as [(p & [Hp Hlast] & ->)|[Hold Hno]].
      * left. exists (S p). split; [split|].
        -- exact Hp.
        -- intros [|q] Hq; [lia|]. cbn. apply Hlast. lia.
        -- cbn. f_equal. lia.
      * rewrite Hidx1 in Hold. destruct (decide (childKey σ c = Some k)) as [Hk|Hk].
        -- left. exists 0. injection Hold as <-. split; [split|].
           ++ cbn. exact Hk.
           ++ intros [|q] Hq; [lia|]. cbn. apply Hno.
           ++ cbn. f_equal. lia.
        -- right. split; [exact Hold|]. intros [|q]; cbn; [exact Hk | apply Hno].
    + intros Hn. destruct (Hnone Hn) as [Hold Hno]. rewrite Hidx1 in Hold.
      destruct (decide (childKey σ c = Some k)) as [Hk|Hk]; [discriminate|].
      split; [exact Hold|]. intros [|q]; cbn; [exact Hk | apply Hno].
Qed.

Lemma lastWithKey_unique σ children k p q :
  lastWithKey σ children k p → lastWithKey σ children k q → p = q.
Proof.
  intros [Hp Hlp] [Hq Hlq]. destruct (Nat.lt_trichotomy p q) as [H|[H|H]]; [|exact H|].
  - exfalso. exact (Hlp q H Hq).
  - exfalso. exact (Hlq p H Hp).
Qed.

Lemma indexChildren_table (σ : store) children idx σ' :
  indexChildren children 0 emptyIndex σ = (Done idx, σ') →
  assigned idx
  ∧ (∀ k p, key_pos (Some k) idx = Some p ↔ lastWithKey σ children k p)
  ∧ (∀ k, is_Some (slot idx k) ↔ ∃ p, children !! p ≫= childKey σ = Some k).
Proof.
  intros Hrun. destruct (indexChildren_slots σ children 0 emptyIndex idx σ' Hrun)
    as (_ & Hass & Hslots).
  assert (assigned idx) as Ha by (apply Hass; reflexivity).
  assert (∀ k, slot emptyIndex k = None) as Hempty.
  { intros k. unfold slot, emptyIndex. cbn. destruct (k =? "__proto__")%string; reflexivity. }
  split; [exact Ha|]. split.
  - intros k p. rewrite (key_pos_slot idx k Ha). destruct (Hslots k) as [Hsome Hnone].
    split.
    + destruct (slot idx k) as [e|] eqn:He; [|discriminate]. cbn. intros [= <-].
      destruct (Hsome e eq_refl) as [(q & Hq & ->)|[Hold _]].
      * cbn. exact Hq.
      * rewrite Hempty in Hold. discriminate.
    + intros Hp. destruct (slot idx k) as [e|] eqn:He.
      * destruct (Hsome e eq_refl) as [(q & Hq & ->)|[Hold _]].
        -- cbn. f_equal. exact (lastWithKey_unique σ children k q p Hq Hp).
        -- rewrite Hempty in Hold. discriminate.
      * exfalso. destruct (Hnone eq_refl) as [_ Hno]. exact (Hno p (proj1 Hp)).
  - intros k. destruct (Hslots k) as [Hsome Hnone]. split.
    + intros [e He]. destruct (Hsome e He) as [(q & [Hq _] & _)|[Hold _]]; [eauto|].
      rewrite Hempty in Hold. discriminate.
    + intros [p Hp]. destruct (slot idx k) as [e|] eqn:He; [eauto|].
      exfalso. destruct (Hnone eq_refl) as [_ Hno]. exact (Hno p Hp).
Qed.

Lemma buildChildrenKeyIndex_tables (σ σ' : store) node1 node2 n1 n2 i1 i2 :
  _buildChildrenKeyIndex node1 node2 σ = (Done (i1, i2), σ') →
  σ !! node1 = Some n1 → σ !! node2 = Some n2 →
  ∃ σ1 σ2, indexChildren (childNodes n1) 0 emptyIndex σ = (Done i1, σ1)
           ∧ indexChildren (childNodes n2) 0 emptyIndex σ = (Done i2, σ2).
Proof.
  intros Hrun H1 H2. unfold _buildChildrenKeyIndex in Hrun.
  unfold mbind at 1, M_bind at 1, bind at 1, getNode at 1 in Hrun. rewrite H2 in Hrun.
  unfold mbind at 1, M_bind at 1, bind at 1 in Hrun.
  destruct (indexChildren (childNodes n2) 0 emptyIndex σ) as [[i2'| |] σ2] eqn:E2;
    try discriminate.
  destruct (indexChildren_slots σ _ _ _ _ _ E2) as (-> & _).
  unfold mbind at 1, M_bind at 1, bind at 1, getNode at 1 in Hrun. rewrite H1 in Hrun.
  unfold mbind at 1, M_bind at 1, bind at 1 in Hrun.
  destruct (indexChildren (childNodes n1) 0 emptyIndex σ) as [[i1'| |] σ1] eqn:E1;
    try discriminate.
  cbn in Hrun. injection Hrun as <- <- _. eauto.
Qed.

(** The table [_buildChildrenKeyIndex] fills for a node maps a key to a
    position exactly when that position is the last one whose child
    carries the key; in particular the position lies within the child
    list. The same holds for both tables. *)
Theorem key_table_holds_last_position (σ σ' : store) (node1 node2 : nid) (n1 n2 : Node)
    (i1 i2 : KeyIndex) (k : string) (p : nat) :
  _buildChildrenKeyIndex node1 node2 σ = (Done (i1, i2), σ') →
  σ !! node1 = Some n1 → σ !! node2 = Some n2 →
  (key_pos (Some k) i1 = Some p ↔ lastWithKey σ (childNodes n1) k p)
  ∧ (key_pos (Some k) i2 = Some p ↔ lastWithKey σ (childNodes n2) k p)
  ∧ (key_pos (Some k) i1 = Some p → p < length (childNodes n1)).
Proof.
  intros Hrun H1 H2.
  destruct (buildChildrenKeyIndex_tables σ σ' node1 node2 n1 n2 i1 i2 Hrun H1 H2)
    as (σ1 & σ2 & E1 & E2).
  destruct (indexChildren_table σ _ _ _ E1) as (_ & T1 & _).
  destruct (indexChildren_table σ _ _ _ E2) as (_ & T2 & _).
  split; [apply T1|]. split; [apply T2|].
  intros Hp. apply T1 in Hp as [Hp _].
  destruct (childNodes n1 !! p) eqn:E; [|discriminate].
  apply lookup_lt_Some in E. exact E.
Qed.

(** What [key in table] answers for a table filled by
    [_buildChildrenKeyIndex]: yes when a child carries the key, and also
    for every name that a plain object inherits from [Object.prototype],
    and for ["node"] and ["pos"] once a child carries the key
    ["__proto__"]. *)
Theorem key_in_table (σ σ' : store) (node1 node2 : nid) (n1 n2 : Node)
    (i1 i2 : KeyIndex) (k : string) :
  _buildChildrenKeyIndex node1 node2 σ = (Done (i1, i2), σ') →
  σ !! node1 = Some n1 → σ !! node2 = Some n2 →
  key_in (Some k) i1 = true
  ↔ (∃ p, childNodes n1 !! p ≫= childKey σ = Some k)
    ∨ k ∈ object_prototype_names
    ∨ (k ∈ ["node"; "pos"] ∧ ∃ p, childNodes n1 !! p ≫= childKey σ = Some "__proto__").
Proof.
  intros Hrun H1 H2.
  destruct (buildChildrenKeyIndex_tables σ σ' node1 node2 n1 n2 i1 i2 Hrun H1 H2)
    as (σ1 & σ2 & E1 & _).
  destruct (indexChildren_table σ _ _ _ E1) as (Ha & _ & T).
  unfold key_in. cbn [propertyName default from_option id].
  pose proof (T k) as Tk. pose proof (T "__proto__") as Tp.
  unfold slot in Tk, Tp. cbn in Tp.
  destruct (String.eqb_spec k "__proto__") as [->|Hk].
  - rewrite Ha. cbn. split; [|reflexivity]. intros _. right. left.
    apply (proj1 (PatchFacts.mem_elem_of _ _)). reflexivity.
  - destruct (own i1 !! k) as [e|] eqn:He.
    + split; [|reflexivity]. intros _. left. apply Tk. eauto.
    + rewrite orb_true_iff, PatchFacts.mem_elem_of. split.
      * intros [Hn|Hp]; [auto|]. right. right.
        destruct (proto i1) as [e|] eqn:Hpr; [|discriminate].
        apply PatchFacts.mem_elem_of in Hp. split; [exact Hp|]. apply Tp. eauto.
      * intros [[p Hp]|[Hn|[Hnp Hp]]].
        -- destruct (proj2 Tk (ex_intro _ p Hp)) as [e' He']. discriminate.
        -- auto.
        -- right. apply Tp in Hp as [e Hpr]. rewrite Hpr.
           apply PatchFacts.mem_elem_of. exact Hnp.
Qed.

Lemma key_table_holds_last_position_witness :
  (key_pos (Some "3") Examples.rotationIndex1 = Some 2
   ↔ lastWithKey Examples.rotation [1; 2; 3] "3" 2)
  ∧ (key_pos (Some "3") Examples.rotationIndex2 = Some 2
     ↔ lastWithKey Examples.rotation [11; 12; 13] "3" 2)
  ∧ (key_pos (Some "3") Examples.rotationIndex1 = Some 2 → 2 < 3).
Proof.
  apply (key_table_holds_last_position Examples.rotation Examples.rotation 0 10
           (Examples.ul [1; 2; 3]) (Examples.ul [11; 12; 13])
           Examples.rotationIndex1 Examples.rotationIndex2 "3" 2);
    [exact DiffFacts.rotation_index | reflexivity | reflexivity].
Defined.

Lemma key_in_table_witness :
  key_in (Some "valueOf") Examples.rotationIndex1 = true
  ↔ (∃ p, [1; 2; 3] !! p ≫= childKey Examples.rotation = Some "valueOf")
    ∨ "valueOf" ∈ object_prototype_names
    ∨ ("valueOf" ∈ ["node"; "pos"]
       ∧ ∃ p, [1; 2; 3] !! p ≫= childKey Examples.rotation = Some "__proto__").
Proof.
  apply (key_in_table Examples.rotation Examples.rotation 0 10
           (Examples.ul [1; 2; 3]) (Examples.ul [11; 12; 13])
           Examples.rotationIndex1 Examples.rotationIndex2 "valueOf");
    [exact DiffFacts.rotation_index | reflexivity | reflexivity].
Defined.

End KeyTableFacts.

(* ===================================================================== *)
(** ** Properties of [diff] on equal trees and on empty child lists     *)
(* ===================================================================== *)

Module ShapeFacts.
Import TreeComparator Shape DiffFacts.

Lemma sameTree_nodes h σ a b :
  sameTree h σ a b → ∃ na nb, σ !! a = Some na ∧ σ !! b = Some nb
                              ∧ nodeType na = nodeType nb
                              ∧ getAttribute na "key" = getAttribute nb "key".
Proof.
  destruct h as [|h]; [contradiction|]. cbn [sameTree].
  destruct (σ !! a) as [[ea|v|v]|], (σ !! b) as [[eb|w|w]|]; try contradiction;
    intros H; do 2 eexists; repeat split; try reflexivity.
  destruct H as (_ & Hattr & _). cbn [getAttribute].
  apply PatchFacts.equalAttributes_attributeEqual in Hattr. apply Hattr. discriminate.
Qed.

Lemma indexChildren_total (σ : store) children : ∀ i idx,
  allNodes σ children → ∃ idx', indexChildren children i idx σ = (Done idx', σ).
Proof.
  induction children as [|c rest IH]; intros i idx Hall.
  - eexists. reflexivity.
  - apply Forall_cons in Hall as [[n Hc] Hrest]. cbn [indexChildren].
    unfold mbind at 1, M_bind at 1, bind at 1, getNode. rewrite Hc.
    apply IH, Hrest.
Qed.

Lemma buildChildrenKeyIndex_total (σ : store) node1 node2 n1 n2 :
  σ !! node1 = Some n1 → σ !! node2 = Some n2 →
  allNodes σ (childNodes n1) → allNodes σ (childNodes n2) →
  ∃ i1 i2, _buildChildrenKeyIndex node1 node2 σ = (Done (i1, i2), σ).
Proof.
  intros H1 H2 A1 A2. unfold _buildChildrenKeyIndex.
  destruct (indexChildren_total σ _ 0 emptyIndex A2) as [i2 E2].
  destruct (indexChildren_total σ _ 0 emptyIndex A1) as [i1 E1].
  exists i1, i2. unfold mbind, M_bind, bind, getNode. rewrite H2, E2, H1, E1. reflexivity.
Qed.

(** One turn of the scan on a pair of children of the same kind with the
    same key: they are compared and both cursors move. *)
Lemma scanStep_pair d node1 node2 i1 i2 s (σ : store) n1 n2 child1 child2 c1 c2 :
  σ !! node1 = Some n1 → σ !! node2 = Some n2 →
  child1Array s !! child1pos s = Some (Some child1) →
  childNodes n2 !! child2pos s = Some child2 →
  σ !! child1 = Some c1 → σ !! child2 = Some c2 →
  nodeType c1 = nodeType c2 → getAttribute c1 "key" = getAttribute c2 "key" →
  scanStep d node1 node2 i1 i2 s σ
  = (ps ← d child1 child2; mret (advanceBoth (push ps s))) σ.
Proof.
  intros H1 H2 Hs1 Hs2 Hc1 Hc2 Hty Hkey.
  unfold scanStep. unfold mbind at 1 2, M_bind at 1 2, bind at 1 2, getNode at 1 2.
  rewrite H1, H2. cbv zeta. rewrite Hs1, Hs2. cbn [default from_option id defined].
  unfold mbind at 1 2 3 4, M_bind at 1 2 3 4, bind at 1 2 3 4, ret, getNode at 1 2.
  rewrite Hc1, Hc2. rewrite Hty, Hkey.
  destruct (nodeType c2); try reflexivity.
  unfold scanElements, option_eqb. rewrite bool_decide_eq_true_2 by reflexivity.
  reflexivity.
Qed.

(** The scan of two child lists that agree pairwise, from a common cursor
    position: nothing is pushed. *)
Lemma scan_same_children (σ : store) node1 node2 n1 n2 i1 i2 enough :
  σ !! node1 = Some n1 → σ !! node2 = Some n2 →
  length (childNodes n1) = length (childNodes n2) →
  (∀ i c1 c2, childNodes n1 !! i = Some c1 → childNodes n2 !! i = Some c2 →
     (∃ na nb, σ !! c1 = Some na ∧ σ !! c2 = Some nb ∧ nodeType na = nodeType nb
               ∧ getAttribute na "key" = getAttribute nb "key")
     ∧ ∀ fuel, enough ≤ fuel → diff fuel c1 c2 None σ = (Done [], σ)) →
  ∀ rest i fuel,
    i + rest = length (childNodes n1) → enough + rest < fuel →
    scanLoop fuel node1 node2 None i1 i2
      (mkScan i i 0 0 (Some <$> childNodes n1) []) σ
    = (Done (mkScan (length (childNodes n1)) (length (childNodes n1)) 0 0
               (Some <$> childNodes n1) []), σ).
Proof.
  intros H1 H2 Hlen Hpairs. induction rest as [|rest IH]; intros i fuel Hi Hfuel.
  - destruct fuel as [|fuel]; [lia|].
    rewrite (scanLoop_exit fuel node1 node2 None i1 i2 _ σ n1 n2 H1 H2).
    + rewrite Nat.add_0_r in Hi. subst i. reflexivity.
    + unfold scanning. cbn [child1pos child2pos].
      apply andb_false_iff. left. apply Nat.ltb_ge. lia.
  - destruct fuel as [|fuel]; [lia|].
    destruct (lookup_lt_is_Some_2 (childNodes n1) i ltac:(lia)) as [c1 Hc1].
    destruct (lookup_lt_is_Some_2 (childNodes n2) i ltac:(lia)) as [c2 Hc2].
    destruct (Hpairs i c1 c2 Hc1 Hc2) as [(na & nb & Ha & Hb & Hty & Hkey) Hdiff].
    rewrite (scanLoop_turn fuel node1 node2 None i1 i2 _ σ n1 n2 H1 H2).
    2:{ unfold scanning. cbn [child1pos child2pos].
        apply andb_true_iff. split; apply Nat.ltb_lt; lia. }
    unfold mbind at 1, M_bind at 1, bind at 1.
    rewrite (scanStep_pair _ node1 node2 i1 i2 _ σ n1 n2 c1 c2 na nb H1 H2).
    2:{ cbn [child1Array child1pos]. rewrite list_lookup_fmap, Hc1. reflexivity. }
    2:{ exact Hc2. }
    2-5: assumption.
    unfold mbind at 1, M_bind at 1, bind at 1. rewrite (Hdiff fuel) by lia.
    unfold mret, M_ret, ret, advanceBoth, push. cbn [child1pos child2pos insertions
      deletions child1Array result app].
    apply IH; lia.
Qed.

Lemma yields_all (σ : store) (l1 l2 : list nid) :
  Forall2 (λ a b, yields σ a b []) l1 l2 →
  ∃ enough, ∀ i c1 c2, l1 !! i = Some c1 → l2 !! i = Some c2 →
    ∀ fuel, enough ≤ fuel → diff fuel c1 c2 None σ = (Done [], σ).
Proof.
  induction 1 as [|a b r1 r2 [e He] _ [E HE]].
  - exists 0. intros i c1 c2 H. rewrite lookup_nil in H. discriminate.
  - exists (e + E). intros [|i] c1 c2 H1 H2 fuel Hf; cbn in H1, H2.
    + injection H1 as <-. injection H2 as <-. apply He. lia.
    + apply (HE i c1 c2 H1 H2). lia.
Qed.

Lemma compareNodes_elements a b ea eb r :
  compareNodes a b (Element ea) (Element eb) r
  = if _equalAttributes (Element ea) (Element eb) then r else r ++ [Attributes a b].
Proof.
  unfold compareNodes. cbn [isTextOrComment nodeType andb].
  destruct (_equalAttributes (Element ea) (Element eb)); reflexivity.
Qed.

Lemma compareNodes_elements_out a b ea eb r :
  compareNodes a b (Element ea) (Element eb) r
  = r ++ (if _equalAttributes (Element ea) (Element eb) then [] else [Attributes a b]).
Proof.
  rewrite compareNodes_elements.
  destruct (_equalAttributes (Element ea) (Element eb)); [rewrite app_nil_r|]; reflexivity.
Qed.

(** Two trees that agree node by node, whatever their ['frontyid']
    attributes: [diff] returns the empty patch list, for every number of
    steps past a bound. *)
Theorem same_trees_need_no_patch (h : nat) :
  ∀ (σ : store) (a b : nid), sameTree h σ a b → yields σ a b [].
Proof.
  induction h as [|h IH]; intros σ a b Hsame; [contradiction|].
  pose proof Hsame as Hs. cbn [sameTree] in Hs.
  destruct (σ !! a) as [[ea|v|v]|] eqn:Ha, (σ !! b) as [[eb|w|w]|] eqn:Hb;
    try contradiction.
  - destruct Hs as (Htag & Hattr & Hch).
    assert (Forall2 (λ a b, yields σ a b []) (el_childNodes ea) (el_childNodes eb)) as Hy.
    { eapply Forall2_impl; [exact Hch|]. intros x y Hxy. apply IH, Hxy. }
    destruct (yields_all σ _ _ Hy) as [enough Henough].
    pose proof (Forall2_length _ _ _ Hch) as Hlen.
    exists (enough + length (el_childNodes ea) + 2). intros fuel Hfuel.
    destruct fuel as [|f]; [lia|].
    rewrite (diff_compare f a b None σ (Element ea) (Element eb) eq_refl Ha Hb)
      by (cbn; congruence).
    cbn [childNodes].
    destruct (el_childNodes ea) as [|x xs] eqn:Hxs.
    + destruct (el_childNodes eb); [|discriminate].
      cbn [length Nat.ltb Nat.leb orb mret M_ret ret fst outcomeMap].
      rewrite compareNodes_elements, Hattr. reflexivity.
    + cbn [length Nat.ltb Nat.leb orb]. rewrite <- Hxs in *.
      assert (allNodes σ (el_childNodes ea) ∧ allNodes σ (el_childNodes eb)) as [A1 A2].
      { clear -Hch. induction Hch as [|p q r1 r2 Hpq _ [I1 I2]];
          [split; constructor|].
        apply sameTree_nodes in Hpq as (na & nb & Hp & Hq & _).
        split; constructor; eauto. }
      destruct (buildChildrenKeyIndex_total σ a b _ _ Ha Hb A1 A2) as (i1 & i2 & Hidx).
      unfold _compareChildren, compareChildrenWith.
      unfold mbind at 1 2, M_bind at 1 2, bind at 1 2, getNode at 1. rewrite Ha, Hidx.
      cbn [childNodes]. unfold mbind at 1, M_bind at 1, bind at 1.
      rewrite (scan_same_children σ a b (Element ea) (Element eb) i1 i2 enough Ha Hb Hlen)
        with (rest := length (el_childNodes ea)) (i := 0).
      * unfold mbind, M_bind, bind, getNode. rewrite Ha, Hb. cbn [fst outcomeMap mret M_ret ret].
        unfold scanRest. cbn [child1pos child2pos childNodes result].
        rewrite <- Hlen, Nat.ltb_irrefl. rewrite compareNodes_elements, Hattr. reflexivity.
      * intros i c1 c2 Hc1 Hc2. split; [|exact (Henough i c1 c2 Hc1 Hc2)].
        cbn [childNodes] in Hc1, Hc2.
        destruct (sameTree_nodes h σ c1 c2 (Forall2_lookup_lr _ _ _ _ _ _ Hch Hc1 Hc2))
          as (na & nb & H). eauto.
      * reflexivity.
      * cbn [childNodes]. lia.
  - subst w. exists 1. intros [|f] Hf; [lia|].
    rewrite (diff_compare f a b None σ (Text v) (Text v) eq_refl Ha Hb) by reflexivity.
    cbn. unfold compareNodes. cbn. rewrite String.eqb_refl. reflexivity.
  - subst w. exists 1. intros [|f] Hf; [lia|].
    rewrite (diff_compare f a b None σ (Comment v) (Comment v) eq_refl Ha Hb) by reflexivity.
    cbn. unfold compareNodes. cbn. rewrite String.eqb_refl. reflexivity.
Qed.

Lemma same_trees_need_no_patch_witness : yields Examples.page 10 20 [].
Proof.
  apply (same_trees_need_no_patch 2 Examples.page 10 20).
  vm_compute. split; [reflexivity|]. split; [reflexivity|].
  constructor; [reflexivity|constructor].
Defined.

(** With no child on either side the scan has nothing to do: what is
    left of the other list is the result. *)
Lemma scan_nothing (σ : store) node1 node2 n1 n2 i1 i2 fuel :
  σ !! node1 = Some n1 → σ !! node2 = Some n2 →
  childNodes n1 = [] ∨ childNodes n2 = [] →
  scanLoop (S fuel) node1 node2 None i1 i2
    (mkScan 0 0 0 0 (Some <$> childNodes n1) []) σ
  = (Done (mkScan 0 0 0 0 (Some <$> childNodes n1) []), σ).
Proof.
  intros H1 H2 Hempty. apply (scanLoop_exit fuel node1 node2 None i1 i2 _ σ n1 n2 H1 H2).
  unfold scanning. cbn [child1pos child2pos].
  destruct Hempty as [-> | ->]; cbn; [reflexivity | apply andb_false_r].
Qed.

Lemma diff_one_side_empty (σ : store) p q ep eq fuel :
  σ !! p = Some (Element ep) → σ !! q = Some (Element eq) →
  el_tagName ep = el_tagName eq →
  allNodes σ (el_childNodes ep) → allNodes σ (el_childNodes eq) →
  el_childNodes ep = [] ∨ el_childNodes eq = [] →
  diff (S (S fuel)) p q None σ
  = (Done ((RemoveNode <$> el_childNodes ep) ++ (AppendChild p <$> el_childNodes eq)
           ++ (if _equalAttributes (Element ep) (Element eq) then []
               else [Attributes p q])), σ).
Proof.
  intros Hp Hq Htag Ap Aq Hempty.
  rewrite (diff_compare (S fuel) p q None σ (Element ep) (Element eq) eq_refl Hp Hq)
    by (cbn; congruence).
  cbn [childNodes].
  destruct ((0 <? length (el_childNodes ep)) || (0 <? length (el_childNodes eq))) eqn:Hany.
  - destruct (buildChildrenKeyIndex_total σ p q _ _ Hp Hq Ap Aq) as (i1 & i2 & Hidx).
    unfold _compareChildren, compareChildrenWith.
    unfold mbind at 1 2, M_bind at 1 2, bind at 1 2, getNode at 1. rewrite Hp, Hidx.
    unfold mbind at 1, M_bind at 1, bind at 1.
    rewrite (scan_nothing σ p q (Element ep) (Element eq) i1 i2 fuel Hp Hq Hempty).
    unfold mbind, M_bind, bind, getNode. rewrite Hp, Hq.
    cbn [fst outcomeMap mret M_ret ret]. unfold scanRest.
    cbn [child1pos child2pos childNodes result drop app].
    rewrite compareNodes_elements_out.
    destruct Hempty as [E|E]; rewrite E in *; cbn [length Nat.ltb Nat.leb fmap list_fmap app].
    + destruct (el_childNodes eq) as [|x xs]; [discriminate|]. reflexivity.
    + destruct (el_childNodes ep) as [|x xs]; [discriminate|].
      cbn [fmap list_fmap app drop]. reflexivity.
  - apply orb_false_iff in Hany as [Ha Hb].
    destruct (el_childNodes ep); [|discriminate]. destruct (el_childNodes eq); [|discriminate].
    cbn [fst outcomeMap mret M_ret ret]. rewrite compareNodes_elements_out. reflexivity.
Qed.

(** An element without children against an element with children (the
    first rows of a list): [diff] returns one ['append-child'] patch per
    new child, in order, each into the old element, followed by the
    ['attributes'] patch if the attributes differ. *)
Theorem empty_list_is_filled_by_appends (σ : store) (p q : nid) (ep eq : ElementData)
    (fuel : nat) :
  σ !! p = Some (Element ep) → σ !! q = Some (Element eq) →
  el_tagName ep = el_tagName eq → el_childNodes ep = [] →
  allNodes σ (el_childNodes eq) →
  diff (S (S fuel)) p q None σ
  = (Done ((AppendChild p <$> el_childNodes eq)
           ++ (if _equalAttributes (Element ep) (Element eq) then []
               else [Attributes p q])), σ).
Proof.
  intros Hp Hq Htag Hempty Aq.
  rewrite (diff_one_side_empty σ p q ep eq fuel Hp Hq Htag); auto.
  - rewrite Hempty. reflexivity.
  - rewrite Hempty. constructor.
Qed.

(** An element with children against an element without (a list that is
    cleared): [diff] returns one ['remove-node'] patch per old child, in
    order, followed by the ['attributes'] patch if the attributes
    differ. *)
Theorem cleared_list_is_emptied_by_removes (σ : store) (p q : nid) (ep eq : ElementData)
    (fuel : nat) :
  σ !! p = Some (Element ep) → σ !! q = Some (Element eq) →
  el_tagName ep = el_tagName eq → el_childNodes eq = [] →
  allNodes σ (el_childNodes ep) →
  diff (S (S fuel)) p q None σ
  = (Done ((RemoveNode <$> el_childNodes ep)
           ++ (if _equalAttributes (Element ep) (Element eq) then []
               else [Attributes p q])), σ).
Proof.
  intros Hp Hq Htag Hempty Ap.
  rewrite (diff_one_side_empty σ p q ep eq fuel Hp Hq Htag); auto.
  - rewrite Hempty. reflexivity.
  - rewrite Hempty. constructor.
Qed.

Lemma empty_list_is_filled_by_appends_witness :
  diff 2 0 10 None filling = (Done [AppendChild 0 11; AppendChild 0 12], filling).
Proof.
  apply (empty_list_is_filled_by_appends filling 0 10
           (mkElement "UL" [] [] None None) (mkElement "UL" [] [11; 12] None None) 0);
    try reflexivity.
  repeat constructor; eexists; reflexivity.
Defined.

Lemma cleared_list_is_emptied_by_removes_witness :
  diff 2 10 0 None filling = (Done [RemoveNode 11; RemoveNode 12], filling).
Proof.
  apply (cleared_list_is_emptied_by_removes filling 10 0
           (mkElement "UL" [] [11; 12] None None) (mkElement "UL" [] [] None None) 0);
    try reflexivity.
  repeat constructor; eexists; reflexivity.
Defined.

End ShapeFacts.

(* ===================================================================== *)
(** ** Termination of [diff] on trees without keys                      *)
(* ===================================================================== *)

Module KeylessFacts.
Import TreeComparator Shape Keyless DiffFacts ShapeFacts.

Lemma keyless_S h (σ : store) (r : nid) :
  keyless (S h) σ r
  = match σ !! r with
    | Some (Element e) =>
        lookupAttr "key" (el_attributes e) = None ∧ Forall (keyless h σ) (el_childNodes e)
    | Some _ => True
    | None => False
    end.
Proof. reflexivity. Qed.

Lemma keyless_node h (σ : store) (r : nid) :
  keyless h σ r → ∃ n, σ !! r = Some n ∧ getAttribute n "key" = None.
Proof.
  destruct h as [|h]; [contradiction|]. rewrite keyless_S.
  destruct (σ !! r) as [[e|v|v]|]; [intros [Hk _]|intros _..|contradiction]; eauto.
Qed.

Lemma keyless_children h (σ : store) (r : nid) n :
  keyless (S h) σ r → σ !! r = Some n → Forall (keyless h σ) (childNodes n).
Proof.
  rewrite keyless_S. intros Hk Hr. rewrite Hr in Hk.
  destruct n as [e|v|v]; [exact (proj2 Hk)|constructor|constructor].
Qed.

Lemma returnsWithin_mono σ e e' a b : returnsWithin σ e a b → e ≤ e' → returnsWithin σ e' a b.
Proof. intros [ps H] Hle. exists ps. intros fuel Hf. apply H. lia. Qed.

(** One bound for finitely many. *)
Lemma uniform_bound {A} (R : A → nat → Prop) (l : list A) :
  (∀ x e e', R x e → e ≤ e' → R x e') →
  Forall (λ x, ∃ e, R x e) l → ∃ e, Forall (λ x, R x e) l.
Proof.
  intros Hmono. induction 1 as [|x l [e He] _ [E HE]].
  - exists 0. constructor.
  - exists (e + E). constructor.
    + apply (Hmono x e); [exact He | lia].
    + eapply Forall_impl; [exact HE|]. intros y Hy. apply (Hmono y E); [exact Hy | lia].
Qed.

Lemma pairs_bound σ (l1 l2 : list nid) :
  (∀ c1 c2, c1 ∈ l1 → c2 ∈ l2 → ∃ e, returnsWithin σ e c1 c2) →
  ∃ e, ∀ c1 c2, c1 ∈ l1 → c2 ∈ l2 → returnsWithin σ e c1 c2.
Proof.
  intros H.
  destruct (uniform_bound (λ c1 e, ∀ c2, c2 ∈ l2 → returnsWithin σ e c1 c2) l1) as [E HE].
  - intros c1 e e' He Hle c2 Hc2. apply (returnsWithin_mono σ e); auto.
  - apply Forall_forall. intros c1 Hc1.
    destruct (uniform_bound (λ c2 e, returnsWithin σ e c1 c2) l2) as [e He].
    + intros c2 e e'. apply returnsWithin_mono.
    + apply Forall_forall. intros c2 Hc2. apply H; assumption.
    + exists e. intros c2 Hc2. rewrite Forall_forall in He. apply He, Hc2.
  - exists E. intros c1 c2 Hc1 Hc2. rewrite Forall_forall in HE. apply HE; assumption.
Qed.

(** One turn of the scan on children without keys. *)
Lemma scanStep_keyless d node1 node2 i1 i2 s (σ : store) n1 n2 child1 child2 c1 c2 :
  σ !! node1 = Some n1 → σ !! node2 = Some n2 →
  child1Array s !! child1pos s = Some (Some child1) →
  childNodes n2 !! child2pos s = Some child2 →
  σ !! child1 = Some c1 → σ !! child2 = Some c2 →
  getAttribute c1 "key" = None → getAttribute c2 "key" = None →
  scanStep d node1 node2 i1 i2 s σ
  = match nodeType c1, nodeType c2 with
    | ELEMENT_NODE, (TEXT_NODE | COMMENT_NODE) => (Done (insertHere node1 child2 s), σ)
    | (TEXT_NODE | COMMENT_NODE), ELEMENT_NODE => (Done (removeHere child1 s), σ)
    | _, _ => (ps ← d child1 child2; mret (advanceBoth (push ps s))) σ
    end.
Proof.
  intros H1 H2 Hs1 Hs2 Hc1 Hc2 Hk1 Hk2.
  unfold scanStep. unfold mbind at 1 2, M_bind at 1 2, bind at 1 2, getNode at 1 2.
  rewrite H1, H2. cbv zeta. rewrite Hs1, Hs2. cbn [default from_option id defined].
  unfold mbind at 1 2 3 4, M_bind at 1 2 3 4, bind at 1 2 3 4, ret, getNode at 1 2.
  rewrite Hc1, Hc2, Hk1, Hk2.
  destruct (nodeType c1), (nodeType c2); try reflexivity.
Qed.

Section Scan.
Variables (σ : store) (node1 node2 : nid) (n1 n2 : Node) (i1 i2 : KeyIndex) (E : nat).
Hypothesis H1 : σ !! node1 = Some n1.
Hypothesis H2 : σ !! node2 = Some n2.
Hypothesis K1 : ∀ c, c ∈ childNodes n1 → ∃ nc, σ !! c = Some nc ∧ getAttribute nc "key" = None.
Hypothesis K2 : ∀ c, c ∈ childNodes n2 → ∃ nc, σ !! c = Some nc ∧ getAttribute nc "key" = None.
Hypothesis HE : ∀ c1 c2, c1 ∈ childNodes n1 → c2 ∈ childNodes n2 → returnsWithin σ E c1 c2.

(** The scan of two child lists without keys ends: every turn moves a
    cursor. *)
Lemma scan_keyless : ∀ m s,
  child1Array s = Some <$> childNodes n1 →
  (length (childNodes n1) - child1pos s) + (length (childNodes n2) - child2pos s) ≤ m →
  ∃ s', ∀ fuel, E + m < fuel →
    scanLoop fuel node1 node2 None i1 i2 s σ = (Done s', σ).
Proof.
  induction m as [|m IH]; intros s Harr Hm.
  - exists s. intros [|fuel] Hf; [lia|].
    apply (scanLoop_exit fuel node1 node2 None i1 i2 s σ n1 n2 H1 H2).
    unfold scanning. apply andb_false_iff.
    destruct (Nat.ltb_spec (child1pos s) (length (childNodes n1))); [|auto].
    right. apply Nat.ltb_ge. lia.
  - destruct (scanning n1 n2 s) eqn:Hscan.
    2:{ exists s. intros [|fuel] Hf; [lia|].
        apply (scanLoop_exit fuel node1 node2 None i1 i2 s σ n1 n2 H1 H2 Hscan). }
    pose proof Hscan as Hpos. unfold scanning in Hpos.
    apply andb_true_iff in Hpos as [Hp1 Hp2].
    apply Nat.ltb_lt in Hp1, Hp2.
    destruct (lookup_lt_is_Some_2 _ _ Hp1) as [child1 Hc1].
    destruct (lookup_lt_is_Some_2 _ _ Hp2) as [child2 Hc2].
    destruct (K1 child1 (proj2 (list_elem_of_lookup _ _) (ex_intro _ _ Hc1)))
      as (c1 & Hn1 & Hk1).
    destruct (K2 child2 (proj2 (list_elem_of_lookup _ _) (ex_intro _ _ Hc2)))
      as (c2 & Hn2 & Hk2).
    destruct (HE child1 child2 (proj2 (list_elem_of_lookup _ _) (ex_intro _ _ Hc1))
                (proj2 (list_elem_of_lookup _ _) (ex_intro _ _ Hc2))) as [ps Hps].
    assert (child1Array s !! child1pos s = Some (Some child1)) as Hslot
      by (rewrite Harr, list_lookup_fmap, Hc1; reflexivity).
    assert (∃ s1, child1Array s1 = Some <$> childNodes n1
              ∧ (length (childNodes n1) - child1pos s1)
                + (length (childNodes n2) - child2pos s1) ≤ m
              ∧ ∀ f, E ≤ f →
                  scanStep (λ a b, diff f a b None) node1 node2 i1 i2 s σ = (Done s1, σ))
      as (s1 & Harr1 & Hm1 & Hstep).
    { destruct (nodeType c1) eqn:T1, (nodeType c2) eqn:T2.
      all: try (exists (advanceBoth (push ps s));
                split; [exact Harr|]; split; [cbn [advanceBoth push child1pos child2pos]; lia|];
                intros f Hf;
                rewrite (scanStep_keyless _ node1 node2 i1 i2 s σ n1 n2 child1 child2 c1 c2)
                  by assumption;
                rewrite T1, T2; unfold mbind, M_bind, bind; rewrite (Hps f Hf); reflexivity).
      all: try (exists (insertHere node1 child2 s);
                split; [exact Harr|]; split; [cbn [insertHere child1pos child2pos]; lia|];
                intros f Hf;
                rewrite (scanStep_keyless _ node1 node2 i1 i2 s σ n1 n2 child1 child2 c1 c2)
                  by assumption;
                rewrite T1, T2; reflexivity).
      all: exists (removeHere child1 s);
           split; [exact Harr|]; split; [cbn [removeHere child1pos child2pos]; lia|];
           intros f Hf;
           rewrite (scanStep_keyless _ node1 node2 i1 i2 s σ n1 n2 child1 child2 c1 c2)
             by assumption;
           rewrite T1, T2; reflexivity. }
    destruct (IH s1 Harr1 Hm1) as [s' Hs'].
    exists s'. intros [|fuel] Hf; [lia|].
    rewrite (scanLoop_turn fuel node1 node2 None i1 i2 s σ n1 n2 H1 H2 Hscan).
    unfold mbind at 1, M_bind at 1, bind at 1. rewrite (Hstep fuel) by lia.
    apply Hs'. lia.
Qed.

End Scan.

Lemma diff_replace f (σ : store) (a b : nid) na nb :
  σ !! a = Some na → σ !! b = Some nb →
  bool_decide (tagName na = tagName nb) && bool_decide (nodeType na = nodeType nb) = false →
  diff (S f) a b None σ = (Done [ReplaceSubtree a b], σ).
Proof.
  intros Ha Hb Hne. cbn [diff consult].
  unfold mbind, M_bind, bind, mret, M_ret, ret, getNode. rewrite Ha, Hb, Hne. reflexivity.
Qed.

Lemma keyless_terminates h : ∀ (σ : store) (a b : nid),
  keyless h σ a → keyless h σ b → ∃ enough, returnsWithin σ enough a b.
Proof.
  induction h as [|h IH]; intros σ a b Ka Kb; [contradiction|].
  destruct (keyless_node _ _ _ Ka) as (na & Ha & _).
  destruct (keyless_node _ _ _ Kb) as (nb & Hb & _).
  pose proof (keyless_children h σ a na Ka Ha) as Ca.
  pose proof (keyless_children h σ b nb Kb Hb) as Cb.
  rewrite Forall_forall in Ca, Cb.
  destruct (bool_decide (tagName na = tagName nb) && bool_decide (nodeType na = nodeType nb))
    eqn:Hsame.
  2:{ exists 1, [ReplaceSubtree a b]. intros [|f] Hf; [lia|].
      apply (diff_replace f σ a b na nb Ha Hb Hsame). }
  apply andb_true_iff in Hsame as [Htag Hty].
  apply bool_decide_eq_true in Htag, Hty.
  destruct ((0 <? length (childNodes na)) || (0 <? length (childNodes nb))) eqn:Hany.
  2:{ exists 1, (compareNodes a b na nb []). intros [|f] Hf; [lia|].
      rewrite (diff_compare f a b None σ na nb eq_refl Ha Hb Htag Hty), Hany.
      reflexivity. }
  destruct (pairs_bound σ (childNodes na) (childNodes nb)) as [E HE].
  { intros c1 c2 Hc1 Hc2. apply IH; [apply Ca, Hc1 | apply Cb, Hc2]. }
  destruct (buildChildrenKeyIndex_total σ a b na nb Ha Hb) as (i1 & i2 & Hidx).
  { apply Forall_forall. intros c Hc. destruct (keyless_node _ _ _ (Ca c Hc)) as (n & Hn & _).
    eauto. }
  { apply Forall_forall. intros c Hc. destruct (keyless_node _ _ _ (Cb c Hc)) as (n & Hn & _).
    eauto. }
  destruct (scan_keyless σ a b na nb i1 i2 E Ha Hb
              (λ c Hc, keyless_node _ _ _ (Ca c Hc)) (λ c Hc, keyless_node _ _ _ (Cb c Hc))
              HE (length (childNodes na) + length (childNodes nb))
              (mkScan 0 0 0 0 (Some <$> childNodes na) []) eq_refl)
    as [s' Hs']; [cbn [child1pos child2pos]; lia|].
  exists (E + (length (childNodes na) + length (childNodes nb)) + 2),
    (compareNodes a b na nb (scanRest a na nb s')).
  intros [|f] Hf; [lia|].
  rewrite (diff_scan f a b None σ na nb i1 i2 eq_refl Ha Hb Htag Hty Hany Hidx).
  rewrite Hs' by lia. reflexivity.
Qed.

(** [diff] terminates on trees without [key] attributes. For two trees
    all of whose references lead to nodes and none of whose elements
    carries a [key], [diff] without a policy returns a patch list, the
    same for every number of steps past a bound, and throws nothing: the
    scan of two child lists moves a cursor at every turn when no key is
    there to make it swap. *)
Theorem diff_terminates_without_keys (h : nat) (σ : store) (node1 node2 : nid) :
  keyless h σ node1 → keyless h σ node2 →
  ∃ ps, yields σ node1 node2 ps.
Proof.
  intros K1 K2. destruct (keyless_terminates h σ node1 node2 K1 K2) as (enough & ps & H).
  exists ps, enough. exact H.
Qed.

Lemma diff_terminates_without_keys_witness : ∃ ps, yields paragraphs 1 11 ps.
Proof.
  apply (diff_terminates_without_keys 3 paragraphs 1 11).
  - vm_compute. repeat (first [split | constructor]; vm_compute); reflexivity.
  - vm_compute. repeat (first [split | constructor]; vm_compute); reflexivity.
Defined.

End KeylessFacts.

(* ===================================================================== *)
(** ** Properties of the positions of [insert-node] patches             *)
(* ===================================================================== *)

Module InsertFacts.
Import TreeComparator Inserts DiffFacts.

Lemma bind_Done {A B} (m : M A) (k : A → M B) σ b σ' :
  (m ≫= k) σ = (Done b, σ') → ∃ a σ1, m σ = (Done a, σ1) ∧ k a σ1 = (Done b, σ').
Proof.
  unfold mbind, M_bind, bind. destruct (m σ) as [[a|e|] σ1]; try discriminate. eauto.
Qed.

Lemma getNode_Done r σ n σ' : getNode r σ = (Done n, σ') → σ' = σ ∧ σ !! r = Some n.
Proof. unfold getNode. destruct (σ !! r); intros [= <- <-]; auto. Qed.

Lemma defined_Done {A} (o : option A) σ a σ' :
  defined o σ = (Done a, σ') → σ' = σ ∧ o = Some a.
Proof. destruct o; intros [= <- <-]; auto. Qed.

Lemma ret_Done {A} (x : A) σ a σ' :
  (mret x : M A) σ = (Done a, σ') → σ' = σ ∧ a = x.
Proof. intros [= <- <-]; auto. Qed.

Ltac run H :=
  repeat match type of H with
  | (_ ≫= _) _ = (Done _, _) =>
      let a := fresh "a" in let σ1 := fresh "σ" in let H1 := fresh "Hrun" in
      apply bind_Done in H as (a & σ1 & H1 & H);
      first [ apply getNode_Done in H1 as [-> H1]
            | apply defined_Done in H1 as [-> H1]
            | idtac ]
  end.

Lemma placed_insertHere σ node1 node2 n2 child2 s :
  σ !! node2 = Some n2 → childNodes n2 !! child2pos s = Some child2 →
  balanced s → Forall (placed σ) (result s) →
  balanced (insertHere node1 child2 s) ∧ Forall (placed σ) (result (insertHere node1 child2 s)).
Proof.
  unfold balanced, insertHere. cbn [child1pos child2pos insertions deletions result].
  intros H2 Hc Hb Hr. split; [lia|].
  apply Forall_app. split; [exact Hr|]. constructor; [|constructor].
  cbn [placed]. split; [lia|]. exists node2, n2. split; [exact H2|].
  replace (Z.to_nat _) with (child2pos s) by lia. exact Hc.
Qed.

Lemma placed_removeHere σ child1 s :
  balanced s → Forall (placed σ) (result s) →
  balanced (removeHere child1 s) ∧ Forall (placed σ) (result (removeHere child1 s)).
Proof.
  unfold balanced, removeHere. cbn [child1pos child2pos insertions deletions result].
  intros Hb Hr. split; [lia|].
  apply Forall_app. split; [exact Hr|]. constructor; [exact I|constructor].
Qed.

Lemma placed_advance σ ps s :
  Forall (placed σ) ps → balanced s → Forall (placed σ) (result s) →
  balanced (advanceBoth (push ps s)) ∧ Forall (placed σ) (result (advanceBoth (push ps s))).
Proof.
  unfold balanced, advanceBoth, push. cbn [child1pos child2pos insertions deletions result].
  intros Hps Hb Hr. split; [lia|]. apply Forall_app. auto.
Qed.

Section Step.
Variable d : nid → nid → M (list patch).
Hypothesis Hd : ∀ c1 c2 σ ps σ', d c1 c2 σ = (Done ps, σ') → σ' = σ ∧ Forall (placed σ) ps.

Lemma scanStep_placed node1 node2 i1 i2 s σ s' σ' :
  scanStep d node1 node2 i1 i2 s σ = (Done s', σ') →
  balanced s → Forall (placed σ) (result s) →
  σ' = σ ∧ balanced s' ∧ Forall (placed σ) (result s').
Proof.
  intros Hrun Hb Hr. unfold scanStep in Hrun. run Hrun.
  rename a into n1, a0 into n2, a1 into child1, a2 into c1, a3 into child2, a4 into c2.
  assert (∀ ps σ1, d child1 child2 σ = (Done ps, σ1) →
          ∀ s'' σ2, (mret (advanceBoth (push ps s)) : M scan) σ1 = (Done s'', σ2) →
          σ2 = σ ∧ balanced s'' ∧ Forall (placed σ) (result s'')) as Hcall.
  { intros ps σ1 Hps s'' σ2 [= <- <-]. destruct (Hd _ _ _ _ _ Hps) as [-> Hp].
    split; [reflexivity|]. apply placed_advance; assumption. }
  destruct (nodeType c1), (nodeType c2);
    try (apply bind_Done in Hrun as (ps & σ1 & Hps & Hrun); exact (Hcall _ _ Hps _ _ Hrun));
    try (injection Hrun as <- <-; split; [reflexivity|];
         first [ apply (placed_insertHere σ node1 node2 n2 child2 s); assumption
               | apply placed_removeHere; assumption ]).
  unfold scanElements in Hrun.
  destruct (negb (option_eqb _ _)).
  - destruct (key_in _ i2 && key_in _ i1).
    + injection Hrun as <- <-. split; [reflexivity|]. split; [exact Hb|].
      cbn [swapHere result]. apply Forall_app. split; [exact Hr|].
      constructor; [exact I|constructor].
    + injection Hrun as <- <-. split; [reflexivity|].
      destruct (placed_insertHere σ node1 node2 n2 child2 s) as [Hb' Hr']; try assumption.
      destruct (negb (key_in _ i1)), (negb (key_in _ i2));
        auto using placed_removeHere.
  - apply bind_Done in Hrun as (ps & σ1 & Hps & Hrun). exact (Hcall _ _ Hps _ _ Hrun).
Qed.

End Step.

Lemma placed_scanRest σ node1 n1 n2 s :
  Forall (placed σ) (result s) → Forall (placed σ) (scanRest node1 n1 n2 s).
Proof.
  intros Hr. unfold scanRest.
  destruct (_ <? _); [|destruct (_ <? _)]; [| |exact Hr];
    (apply Forall_app; split; [exact Hr|]); apply Forall_fmap, Forall_true; intros x; exact I.
Qed.

Lemma placed_compareNodes σ node1 node2 n1 n2 r :
  Forall (placed σ) r → Forall (placed σ) (compareNodes node1 node2 n1 n2 r).
Proof.
  intros Hr. unfold compareNodes.
  destruct (_ && _); [repeat constructor|].
  destruct (negb _); [|exact Hr].
  apply Forall_app. split; [exact Hr|]. repeat constructor.
Qed.

Lemma reads_Done {A} (m : M A) σ a σ' : readsOnly m → m σ = (Done a, σ') → σ' = σ.
Proof. intros R H. specialize (R σ). rewrite H in R. exact R. Qed.

Lemma diff_scanLoop_placed fuel :
  (∀ node1 node2 cp σ ps σ',
     diff fuel node1 node2 cp σ = (Done ps, σ') → σ' = σ ∧ Forall (placed σ) ps)
  ∧ (∀ node1 node2 cp i1 i2 s σ s' σ',
       scanLoop fuel node1 node2 cp i1 i2 s σ = (Done s', σ') →
       balanced s → Forall (placed σ) (result s) →
       σ' = σ ∧ balanced s' ∧ Forall (placed σ) (result s')).
Proof.
  induction fuel as [|fuel [IHd IHl]]; split; try discriminate.
  - intros node1 node2 cp σ ps σ' Hrun.
    split; [exact (reads_Done _ _ _ _ (reads_diff _ _ _ _) Hrun)|].
    cbn [diff] in Hrun. apply bind_Done in Hrun as (action & σ1 & Hact & Hrun).
    apply (reads_Done _ _ _ _ (reads_consult _ _ _)) in Hact as ->.
    destruct action; [|injection Hrun as <- _; constructor
                      |injection Hrun as <- _; repeat constructor].
    run Hrun. destruct (bool_decide _ && bool_decide _);
      [|injection Hrun as <- _; repeat constructor].
    apply bind_Done in Hrun as (r & σ1 & Hr & Hrun). run Hrun.
    injection Hrun as <- _. apply placed_compareNodes.
    destruct (_ || _); [|injection Hr as <- _; constructor].
    unfold compareChildrenWith in Hr.
    apply bind_Done in Hr as (m1 & σ2 & Hm1 & Hr). apply getNode_Done in Hm1 as [-> Hm1].
    apply bind_Done in Hr as ([i1 i2] & σ2 & Hidx & Hr).
    apply (reads_Done _ _ _ _ (reads_buildChildrenKeyIndex _ _)) in Hidx as ->.
    apply bind_Done in Hr as (s' & σ2 & Hloop & Hr).
    destruct (IHl _ _ _ _ _ _ _ _ _ Hloop) as (-> & _ & Hres);
      [unfold balanced; reflexivity | constructor |].
    run Hr. injection Hr as <- _. apply placed_scanRest. exact Hres.
  - intros node1 node2 cp i1 i2 s σ s' σ' Hrun Hb Hr. cbn [scanLoop] in Hrun. run Hrun.
    destruct (scanning _ _ s); [|injection Hrun as <- <-; auto].
    apply bind_Done in Hrun as (s1 & σ1 & Hstep & Hrun).
    destruct (scanStep_placed _ (λ c1 c2, IHd c1 c2 cp) _ _ _ _ _ _ _ _ Hstep Hb Hr)
      as (-> & Hb1 & Hr1).
    exact (IHl _ _ _ _ _ _ _ _ _ Hrun Hb1 Hr1).
Qed.

(** Whatever the trees and the policy, in every patch list that [diff]
    returns each ['insert-node'] patch carries as [beforePos] the position
    of the inserted node in the child list it comes from (that of the new
    tree): [child1pos + insertions - deletions] is never negative and
    always equals the cursor in the new list. *)
Theorem insert_positions_are_those_of_the_new_list (fuel : nat) (node1 node2 : nid)
    (comparePolicy : option policy) (σ σ' : store) (ps : list patch) :
  diff fuel node1 node2 comparePolicy σ = (Done ps, σ') →
  ∀ toReplace replacement beforePos,
    InsertNode toReplace replacement beforePos ∈ ps →
    (0 ≤ beforePos)%Z
    ∧ ∃ parent n, σ !! parent = Some n
                  ∧ childNodes n !! Z.to_nat beforePos = Some replacement.
Proof.
  intros Hrun t r b Hin.
  destruct (proj1 (diff_scanLoop_placed fuel) _ _ _ _ _ _ Hrun) as [_ Hall].
  rewrite Forall_forall in Hall. exact (Hall _ Hin).
Qed.

Lemma insert_positions_are_those_of_the_new_list_witness :
  (0 ≤ 1)%Z
  ∧ ∃ parent n, Examples.insertion !! parent = Some n
                ∧ childNodes n !! Z.to_nat 1 = Some 12.
Proof.
  assert (diff 8 0 10 None Examples.insertion
          = (Done [InsertNode 0 12 1], Examples.insertion)) as Hrun
    by (vm_compute; reflexivity).
  apply (insert_positions_are_those_of_the_new_list 8 0 10 None
           Examples.insertion Examples.insertion [InsertNode 0 12 1] Hrun 0 12 1%Z).
  apply list_elem_of_singleton. reflexivity.
Defined.

End InsertFacts.

(* ===================================================================== *)
(** ** Properties of keys named like members of [Object.prototype]      *)
(* ===================================================================== *)

Module InheritedKeyFacts.
Import TreeComparator KeyTable Shape DiffFacts KeyTableFacts ShapeFacts InheritedKeys.

Lemma slot_key_in idx k : is_Some (slot idx k) → key_in (Some k) idx = true.
Proof.
  unfold slot, key_in. cbn [propertyName default from_option id].
  destruct (String.eqb_spec k "__proto__") as [->|Hk].
  - intros _. destruct (own idx !! "__proto__"); reflexivity.
  - intros [e ->]. reflexivity.
Qed.

Lemma inherited_key_in idx k : k ∈ object_prototype_names → key_in (Some k) idx = true.
Proof.
  intros Hk. unfold key_in. cbn [propertyName default from_option id].
  destruct (own idx !! k); [reflexivity|].
  apply orb_true_iff. left. apply PatchFacts.mem_elem_of. exact Hk.
Qed.

(** The first child of the new list carries a key that names a member of
    [Object.prototype] (["constructor"], ["toString"], ...) and that no
    child of the old list carries, while the first child of the old list
    carries another key, found in the new list. The key table of the old
    list then answers [key in table] with yes, but has no position for
    it: the scan writes [undefined] into its copy of the child list, and
    reads [nodeType] of [undefined] at the next turn. [diff] throws a
    [TypeError]. *)
Theorem inherited_key_makes_diff_throw (σ : store) (node1 node2 a b : nid)
    (e1 e2 : ElementData) (rest1 rest2 : list nid) (ka kb : string) (fuel : nat) :
  σ !! node1 = Some (Element e1) → σ !! node2 = Some (Element e2) →
  el_tagName e1 = el_tagName e2 →
  el_childNodes e1 = a :: rest1 → el_childNodes e2 = b :: rest2 →
  allNodes σ (a :: rest1) → allNodes σ (b :: rest2) →
  keyed σ a ka → keyed σ b kb → ka ≠ kb →
  (∃ p, (b :: rest2) !! p ≫= childKey σ = Some ka) →
  kb ∈ object_prototype_names →
  (∀ p, (a :: rest1) !! p ≫= childKey σ ≠ Some kb) →
  diff (3 + fuel) node1 node2 None σ = (Throws TypeError, σ).
Proof.
  intros H1 H2 Htag Hc1 Hc2 A1 A2 Ha Hb Hne Hka Hkb Hnone.
  destruct (buildChildrenKeyIndex_total σ node1 node2 (Element e1) (Element e2) H1 H2)
    as (i1 & i2 & Hidx); [cbn; rewrite Hc1; exact A1 | cbn; rewrite Hc2; exact A2 |].
  destruct (buildChildrenKeyIndex_tables σ σ node1 node2 _ _ i1 i2 Hidx H1 H2)
    as (σ1 & σ2 & E1 & E2).
  destruct (indexChildren_table σ _ _ _ E1) as (_ & T1 & _).
  destruct (indexChildren_table σ _ _ _ E2) as (_ & _ & T2).
  cbn [childNodes] in T1, T2. rewrite Hc1 in T1. rewrite Hc2 in T2.
  assert (key_in (Some ka) i2 = true) as Hin2 by (apply slot_key_in, T2, Hka).
  assert (key_in (Some kb) i1 = true) as Hin1 by (apply inherited_key_in, Hkb).
  assert (key_pos (Some kb) i1 = None) as Hpos.
  { destruct (key_pos (Some kb) i1) as [p|] eqn:Hp; [|reflexivity].
    apply T1 in Hp as [Hp _]. exfalso. exact (Hnone p Hp). }
  change (3 + fuel) with (S (S (S fuel))).
  rewrite (diff_scan (S (S fuel)) node1 node2 None σ (Element e1) (Element e2) i1 i2
             eq_refl H1 H2); [|cbn; congruence|reflexivity|cbn; rewrite Hc1; reflexivity|exact Hidx].
  cbn [childNodes]. rewrite Hc1.
  rewrite (scanLoop_turn (S fuel) node1 node2 None i1 i2 _ σ _ _ H1 H2)
    by (unfold scanning; cbn [childNodes child1pos child2pos]; rewrite Hc1, Hc2; reflexivity).
  unfold mbind at 1, M_bind at 1, bind at 1.
  rewrite (scanStep_elements _ node1 node2 i1 i2 _ σ (Element e1) (Element e2) a b ka kb
             H1 H2); [|reflexivity|cbn [childNodes]; rewrite Hc2; reflexivity|exact Ha|exact Hb].
  unfold scanElements, option_eqb.
  rewrite bool_decide_eq_false_2 by congruence. cbn [negb]. rewrite Hin2, Hin1, Hpos.
  cbn [andb mbind option_bind mret M_ret ret].
  rewrite (scanLoop_turn fuel node1 node2 None i1 i2 _ σ _ _ H1 H2)
    by (unfold scanning, swapHere; cbn [childNodes child1pos child2pos];
        rewrite Hc1, Hc2; reflexivity).
  unfold mbind at 1, M_bind at 1, bind at 1.
  unfold scanStep. unfold mbind at 1 2, M_bind at 1 2, bind at 1 2, getNode at 1 2.
  rewrite H1, H2. reflexivity.
Qed.

Lemma inherited_key_makes_diff_throw_witness :
  diff (3 + 0) 0 10 None renamed = (Throws TypeError, renamed).
Proof.
  apply (inherited_key_makes_diff_throw renamed 0 10 1 11
           (mkElement "UL" [] [1] None None) (mkElement "UL" [] [11; 12] None None)
           [] [12] "a" "toString" 0);
    try reflexivity.
  - repeat constructor; eexists; reflexivity.
  - repeat constructor; eexists; reflexivity.
  - eexists; split; reflexivity.
  - eexists; split; reflexivity.
  - discriminate.
  - exists 1. reflexivity.
  - vm_compute. set_solver.
  - intros [|[|p]]; vm_compute; discriminate.
Defined.

End InheritedKeyFacts.

(* ===================================================================== *)
(** ** Properties of [_swapArrayElements]                               *)
(* ===================================================================== *)

Module SwapFacts.
Import TreeComparator Swaps.

(** [_swapArrayElements] with two positions of the array exchanges the
    two slots, keeps the length and every other slot, and undoes itself
    when done twice. With an [undefined] second position (what the scan
    passes when the key table has no position for the key) the first slot
    becomes [undefined] and nothing else changes. *)
Theorem swapArrayElements_exchanges_two_slots (arr : list (option nid)) (a b : nat) :
  a < length arr →
  (b < length arr →
     length (_swapArrayElements arr a (Some b)) = length arr
     ∧ _swapArrayElements arr a (Some b) !! a = arr !! b
     ∧ _swapArrayElements arr a (Some b) !! b = arr !! a
     ∧ (∀ i, i ≠ a → i ≠ b → _swapArrayElements arr a (Some b) !! i = arr !! i)
     ∧ _swapArrayElements (_swapArrayElements arr a (Some b)) a (Some b) = arr)
  ∧ _swapArrayElements arr a None = <[a := None]> arr.
Proof.
  intros Ha. split; [|reflexivity]. intros Hb.
  destruct (lookup_lt_is_Some_2 arr a Ha) as [x Hx].
  destruct (lookup_lt_is_Some_2 arr b Hb) as [y Hy].
  assert (∀ i, _swapArrayElements arr a (Some b) !! i
               = if decide (i = b) then arr !! a else if decide (i = a) then arr !! b
                 else arr !! i) as Hlook.
  { intros i. unfold _swapArrayElements. rewrite Hx, Hy. cbn [default from_option id].
    destruct (decide (i = b)) as [->|Hib].
    - rewrite list_lookup_insert_eq by (rewrite length_insert; exact Hb). reflexivity.
    - rewrite list_lookup_insert_ne by congruence.
      destruct (decide (i = a)) as [->|Hia].
      + rewrite list_lookup_insert_eq by exact Ha. reflexivity.
      + rewrite list_lookup_insert_ne by congruence. reflexivity. }
  assert (length (_swapArrayElements arr a (Some b)) = length arr) as Hlen.
  { unfold _swapArrayElements. rewrite !length_insert. reflexivity. }
  split; [exact Hlen|]. split; [|split; [|split]].
  - rewrite Hlook. destruct (decide (a = b)) as [->|]; [reflexivity|].
    rewrite decide_True by reflexivity. reflexivity.
  - rewrite Hlook. rewrite decide_True by reflexivity. reflexivity.
  - intros i Hia Hib. rewrite Hlook, !decide_False by assumption. reflexivity.
  - apply list_eq. intros i.
    assert (∀ i, _swapArrayElements (_swapArrayElements arr a (Some b)) a (Some b) !! i
                 = if decide (i = b) then _swapArrayElements arr a (Some b) !! a
                   else if decide (i = a) then _swapArrayElements arr a (Some b) !! b
                   else _swapArrayElements arr a (Some b) !! i) as Hlook2.
    { intros j. unfold _swapArrayElements at 1.
      destruct (lookup_lt_is_Some_2 (_swapArrayElements arr a (Some b)) a
                  ltac:(rewrite Hlen; exact Ha)) as [x' Hx'].
      destruct (lookup_lt_is_Some_2 (_swapArrayElements arr a (Some b)) b
                  ltac:(rewrite Hlen; exact Hb)) as [y' Hy'].
      rewrite Hx', Hy'. cbn [default from_option id].
      destruct (decide (j = b)) as [->|Hjb].
      - rewrite list_lookup_insert_eq by (rewrite length_insert, Hlen; exact Hb).
        reflexivity.
      - rewrite list_lookup_insert_ne by congruence.
        destruct (decide (j = a)) as [->|Hja].
        + rewrite list_lookup_insert_eq by (rewrite Hlen; exact Ha). reflexivity.
        + rewrite list_lookup_insert_ne by congruence. reflexivity. }
    rewrite Hlook2, !Hlook.
    repeat (destruct (decide _)); subst; try congruence; reflexivity.
Qed.

Lemma swapArrayElements_exchanges_two_slots_witness :
  (length (_swapArrayElements slots 0 (Some 2)) = length slots
   ∧ _swapArrayElements slots 0 (Some 2) !! 0 = slots !! 2
   ∧ _swapArrayElements slots 0 (Some 2) !! 2 = slots !! 0
   ∧ (∀ i, i ≠ 0 → i ≠ 2 → _swapArrayElements slots 0 (Some 2) !! i = slots !! i)
   ∧ _swapArrayElements (_swapArrayElements slots 0 (Some 2)) 0 (Some 2) = slots)
  ∧ _swapArrayElements slots 0 None = <[0 := None]> slots.
Proof.
  split.
  - apply (proj1 (swapArrayElements_exchanges_two_slots slots 0 2 ltac:(cbn; lia))).
    cbn. lia.
  - apply (proj2 (swapArrayElements_exchanges_two_slots slots 0 2 ltac:(cbn; lia))).
Defined.

End SwapFacts.

(* ===================================================================== *)
(** ** Properties of [_equalAttributes] and of the [attributes] patch   *)
(* ===================================================================== *)

Module AttributeFacts.
Import TreeComparator Reordered PatchFacts.

Lemma sameAttributesFrom_refl l : sameAttributesFrom l l = true.
Proof.
  induction l as [|x r IH]; simpl; [reflexivity|].
  rewrite !String.eqb_refl. exact IH.
Qed.

(** [_equalAttributes] on two elements holds exactly when the two
    attribute lists, ['frontyid'] taken out, are the same list: the same
    names with the same values in the same order. *)
Theorem equalAttributes_compares_in_order (e1 e2 : ElementData) :
  _equalAttributes (Element e1) (Element e2) = true
  ↔ List.filter skipAttributes (el_attributes e1)
    = List.filter skipAttributes (el_attributes e2).
Proof.
  unfold _equalAttributes. cbn [attributes]. split.
  - destruct (Nat.eqb_spec (length (List.filter skipAttributes (el_attributes e1)))
                (length (List.filter skipAttributes (el_attributes e2)))) as [E|];
      [|discriminate].
    cbn [negb]. apply sameAttributesFrom_eq, E.
  - intros ->. rewrite Nat.eqb_refl. cbn [negb]. apply sameAttributesFrom_refl.
Qed.

Lemma setAttr_same a v l : lookupAttr a l = Some v → setAttr a v l = l.
Proof.
  induction l as [|x r IH]; simpl; [discriminate|].
  destruct (String.eqb_spec (name x) a) as [E|E].
  - intros [= <-]. subst a. destruct x; reflexivity.
  - intros H. f_equal. exact (IH H).
Qed.

Lemma lookupAttr_elem l x :
  validAttributes l → x ∈ l → lookupAttr (name x) l = Some (value x).
Proof.
  unfold validAttributes. induction l as [|y r IH]; simpl; intros Hv Hin.
  - apply elem_of_nil in Hin as [].
  - apply NoDup_cons in Hv as [Hy Hr]. apply elem_of_cons in Hin as [->|Hin].
    + rewrite String.eqb_refl. reflexivity.
    + destruct (String.eqb_spec (name y) (name x)) as [E|E]; [|exact (IH Hr Hin)].
      exfalso. apply Hy. rewrite E. apply list_elem_of_fmap. eauto.
Qed.

Lemma lookupAttr_is_Some a l : a ∈ name <$> l → is_Some (lookupAttr a l).
Proof.
  intros Hin. destruct (lookupAttr a l) eqn:E; [eauto|].
  apply lookupAttr_None in E. contradiction.
Qed.

Lemma lookupAttr_is_Some_inv a l : is_Some (lookupAttr a l) → a ∈ name <$> l.
Proof.
  intros [v Hv]. destruct (decide (a ∈ name <$> l)) as [H|H]; [exact H|].
  apply lookupAttr_None in H. congruence.
Qed.

(** The first loop of the ['attributes'] case on a target that already
    has the attributes of the replacement: every turn writes a value
    over the same value, or skips ['frontyid']. *)
Lemma copied_noop l1 : ∀ seg,
  (∀ x, x ∈ seg → name x ≠ "frontyid" → lookupAttr (name x) l1 = Some (value x)) →
  (∀ x, x ∈ seg → name x = "frontyid" → is_Some (lookupAttr "frontyid" l1)) →
  fold_left (copyOne (Some ["frontyid"])) seg l1 = l1.
Proof.
  induction seg as [|x seg IH]; intros Hval Hid; [reflexivity|]. cbn [fold_left].
  assert (copyOne (Some ["frontyid"]) l1 x = l1) as ->.
  { unfold copyOne, wanted. destruct (String.eqb_spec (name x) "frontyid") as [E|E].
    - destruct (Hid x (list_elem_of_here _ _) E) as [v Hv]. rewrite E.
      rewrite Hv. reflexivity.
    - assert (mem (name x) ["frontyid"] = false) as ->.
      { destruct (mem (name x) ["frontyid"]) eqn:Hm; [|reflexivity].
        apply mem_elem_of, list_elem_of_singleton in Hm. contradiction. }
      cbn [negb orb]. apply setAttr_same, Hval; [apply list_elem_of_here | exact E]. }
  apply IH.
  - intros y Hy. apply Hval. apply list_elem_of_further, Hy.
  - intros y Hy. apply Hid. apply list_elem_of_further, Hy.
Qed.

Lemma filter_kept_noop l2 : ∀ l1,
  (∀ x, x ∈ l1 → is_Some (lookupAttr (name x) l2)) →
  List.filter (kept l2) l1 = l1.
Proof.
  induction l1 as [|x r IH]; intros H; [reflexivity|]. cbn [List.filter].
  unfold kept at 1. destruct (H x (list_elem_of_here _ _)) as [v ->].
  f_equal. apply IH. intros y Hy. apply H. apply list_elem_of_further, Hy.
Qed.

Lemma patch_noop l1 l2 :
  validAttributes l2 → attributeEqual l1 l2 → sameTagging l1 l2 →
  List.filter (kept l2) (fold_left (copyOne (Some ["frontyid"])) l2 l1) = l1.
Proof.
  intros Hv2 Heq Htag. rewrite copied_noop.
  - apply filter_kept_noop. intros x Hx.
    assert (is_Some (lookupAttr (name x) l1)) as Hsome
      by (apply lookupAttr_is_Some, list_elem_of_fmap; eauto).
    destruct (String.eqb_spec (name x) "frontyid") as [E|E].
    + rewrite E in *. destruct (lookupAttr "frontyid" l2) eqn:E2; [eauto|].
      apply Htag in E2. rewrite E2 in Hsome. destruct Hsome; discriminate.
    + rewrite <- (Heq _ E). exact Hsome.
  - intros x Hx Hne. rewrite (Heq _ Hne). apply lookupAttr_elem; assumption.
  - intros x Hx E.
    assert (is_Some (lookupAttr "frontyid" l2)) as Hsome
      by (apply lookupAttr_is_Some, list_elem_of_fmap; eauto).
    destruct (lookupAttr "frontyid" l1) eqn:E1; [eauto|].
    apply Htag in E1. rewrite E1 in Hsome. destruct Hsome; discriminate.
Qed.

(** A target that already has the attributes of the replacement, with
    the same values but in any order: the ['attributes'] patch, applied
    as the engine applies it (skipping ['frontyid']), leaves the attribute
    list of the target as it is. In particular it does not reorder it, so
    that [_equalAttributes], which compares in order, answers after the
    patch what it answered before. *)
Theorem attributes_patch_keeps_equal_attributes (σ : store) (t1 t2 : nid)
    (e1 e2 : ElementData) :
  σ !! t1 = Some (Element e1) → σ !! t2 = Some (Element e2) → t1 ≠ t2 →
  validAttributes (el_attributes e1) → validAttributes (el_attributes e2) →
  attributeEqual (el_attributes e1) (el_attributes e2) →
  sameTagging (el_attributes e1) (el_attributes e2) →
  ∃ e1', applyAttributes (Some ["frontyid"]) t1 t2 σ = (Done tt, <[t1 := Element e1']> σ)
         ∧ el_attributes e1' = el_attributes e1
         ∧ _equalAttributes (Element e1') (Element e2)
           = _equalAttributes (Element e1) (Element e2).
Proof.
  intros H1 H2 Hne Hv1 Hv2 Heq Htag.
  destruct (applyAttributes_run (Some ["frontyid"]) t1 t2 σ e1 e2 H1 H2 Hne Hv1)
    as (e1' & Hrun & Hattrs & _).
  exists e1'. split; [exact Hrun|].
  rewrite (patch_noop _ _ Hv2 Heq Htag) in Hattrs. split; [exact Hattrs|].
  unfold _equalAttributes. cbn [attributes]. rewrite Hattrs. reflexivity.
Qed.

Lemma attributes_patch_keeps_equal_attributes_witness :
  ∃ e1', applyAttributes (Some ["frontyid"]) 1 2 reordered
         = (Done tt, <[1 := Element e1']> reordered)
         ∧ el_attributes e1' = [mkAttr "class" "a"; mkAttr "lang" "en"]
         ∧ _equalAttributes (Element e1')
             (Element (mkElement "P" [mkAttr "lang" "en"; mkAttr "class" "a"] [] None None))
           = false.
Proof.
  apply (attributes_patch_keeps_equal_attributes reordered 1 2
           (mkElement "P" [mkAttr "class" "a"; mkAttr "lang" "en"] [] None None)
           (mkElement "P" [mkAttr "lang" "en"; mkAttr "class" "a"] [] None None));
    try reflexivity.
  - lia.
  - unfold validAttributes. apply (bool_decide_unpack _). vm_compute. exact I.
  - unfold validAttributes. apply (bool_decide_unpack _). vm_compute. exact I.
  - intros a _. cbn [el_attributes lookupAttr name value].
    destruct (String.eqb_spec "class" a) as [<-|]; [reflexivity|].
    destruct (String.eqb_spec "lang" a); reflexivity.
  - split; intros _; reflexivity.
Defined.

Lemma valid_filter (f : Attr → bool) l :
  validAttributes l → validAttributes (List.filter f l).
Proof.
  unfold validAttributes. induction l as [|x r IH]; simpl; intros H; [exact H|].
  apply NoDup_cons in H as [Hx Hr]. destruct (f x); [|exact (IH Hr)].
  simpl. apply NoDup_cons. split; [|exact (IH Hr)].
  intros Hin. apply Hx. apply list_elem_of_fmap in Hin as (y & Hy & Hin).
  apply list_elem_of_fmap. exists y. split; [exact Hy|].
  apply list_elem_of_In. apply list_elem_of_In, filter_In in Hin as [Hin _]. exact Hin.
Qed.

Lemma copyOne_present skip l x a :
  is_Some (lookupAttr a l) ∨ a = name x → is_Some (lookupAttr a (copyOne skip l x)).
Proof.
  unfold copyOne, wanted. intros H.
  destruct (String.eqb_spec a (name x)) as [->|Hne].
  - destruct skip as [sk|]; [|rewrite lookupAttr_setAttr_eq; eauto].
    destruct (lookupAttr (name x) l) eqn:E.
    + destruct (negb (mem (name x) sk)); cbn [orb negb];
        [rewrite lookupAttr_setAttr_eq|rewrite E]; eauto.
    + rewrite orb_true_r, lookupAttr_setAttr_eq. eauto.
  - destruct H as [H|H]; [|contradiction].
    match goal with |- context [if ?c then _ else _] => destruct c end; [|exact H].
    rewrite lookupAttr_setAttr_ne by exact Hne. exact H.
Qed.

Lemma copied_present skip a : ∀ seg l,
  is_Some (lookupAttr a l) ∨ a ∈ name <$> seg →
  is_Some (lookupAttr a (fold_left (copyOne skip) seg l)).
Proof.
  induction seg as [|x seg IH]; intros l H; cbn [fold_left].
  - destruct H as [H|H]; [exact H|]. apply elem_of_nil in H as [].
  - apply IH. destruct H as [H|H].
    + left. apply copyOne_present. left. exact H.
    + rewrite fmap_cons in H. apply elem_of_cons in H as [->|H]; [|right; exact H].
      left. apply copyOne_present. right. reflexivity.
Qed.

(** Applying an ['attributes'] patch a second time changes no attribute
    of the target: after the first application the target has, with
    ['frontyid'] skipped, the attributes of the replacement, and the
    second finds nothing to write or to remove. *)
Theorem attributes_patch_is_idempotent (σ : store) (t1 t2 : nid) (e1 e2 : ElementData) :
  σ !! t1 = Some (Element e1) → σ !! t2 = Some (Element e2) → t1 ≠ t2 →
  validAttributes (el_attributes e1) → validAttributes (el_attributes e2) →
  ∃ e1' e1'',
    applyAttributes (Some ["frontyid"]) t1 t2 σ = (Done tt, <[t1 := Element e1']> σ)
    ∧ applyAttributes (Some ["frontyid"]) t1 t2 (<[t1 := Element e1']> σ)
      = (Done tt, <[t1 := Element e1'']> σ)
    ∧ el_attributes e1'' = el_attributes e1'.
Proof.
  intros H1 H2 Hne Hv1 Hv2.
  assert (skipsFrontyidOnly (Some ["frontyid"])) as Hskip.
  { intros l a [= <-] Hin. apply list_elem_of_singleton in Hin. exact Hin. }
  destruct (applyAttributes_run (Some ["frontyid"]) t1 t2 σ e1 e2 H1 H2 Hne Hv1)
    as (e1' & Hrun & Hattrs & _).
  assert (validAttributes (el_attributes e1')) as Hv1'.
  { rewrite Hattrs. apply valid_filter, valid_copied, Hv1. }
  assert (attributeEqual (el_attributes e1') (el_attributes e2)) as Heq.
  { rewrite Hattrs. apply patched_attributeEqual; assumption. }
  assert (sameTagging (el_attributes e1') (el_attributes e2)) as Htag.
  { unfold sameTagging. rewrite Hattrs, lookup_filter_kept.
    destruct (lookupAttr "frontyid" (el_attributes e2)) eqn:E2; [|split; reflexivity].
    destruct (copied_present (Some ["frontyid"]) "frontyid" (el_attributes e2)
                (el_attributes e1)) as [v ->].
    { right. apply lookupAttr_is_Some_inv. rewrite E2. eauto. }
    split; discriminate. }
  destruct (applyAttributes_run (Some ["frontyid"]) t1 t2 (<[t1 := Element e1']> σ) e1' e2)
    as (e1'' & Hrun' & Hattrs' & _); try assumption.
  { apply lookup_insert_eq. }
  { rewrite lookup_insert_ne by exact Hne. exact H2. }
  exists e1', e1''. split; [exact Hrun|]. rewrite insert_insert_eq in Hrun'.
  split; [exact Hrun'|]. rewrite Hattrs'. apply patch_noop; assumption.
Qed.

Lemma attributes_patch_is_idempotent_witness :
  ∃ e1' e1'',
    applyAttributes (Some ["frontyid"]) 1 2 Examples.restyled
    = (Done tt, <[1 := Element e1']> Examples.restyled)
    ∧ applyAttributes (Some ["frontyid"]) 1 2 (<[1 := Element e1']> Examples.restyled)
      = (Done tt, <[1 := Element e1'']> Examples.restyled)
    ∧ el_attributes e1'' = el_attributes e1'.
Proof.
  apply (attributes_patch_is_idempotent Examples.restyled 1 2
           (mkElement "P" [mkAttr "class" "a"; mkAttr "lang" "en"; mkAttr "frontyid" "3"]
              [] None None)
           (mkElement "P" [mkAttr "title" "t"; mkAttr "class" "b"] [] None None)).
  - reflexivity.
  - reflexivity.
  - lia.
  - unfold validAttributes. apply (bool_decide_unpack _). vm_compute. exact I.
  - unfold validAttributes. apply (bool_decide_unpack _). vm_compute. exact I.
Defined.

End AttributeFacts.

(* ===================================================================== *)
(** ** Properties of the identifier markers                             *)
(* ===================================================================== *)

Module MarkerFacts.
Import TreeComparator Component RealNodes DiffFacts PatchFacts.

(** *** Numbers in decimal *)

Lemma allDigits_string_of_uint d : allDigits (NilEmpty.string_of_uint d) = true.
Proof. induction d; cbn [NilEmpty.string_of_uint allDigits]; try rewrite IHd; reflexivity. Qed.

Lemma to_uint_nonnil n : Nat.to_uint n ≠ Decimal.Nil.
Proof.
  rewrite <- (Unsigned.of_to n) at 1. rewrite Unsigned.to_of. apply unorm_nonnil.
Qed.

Lemma decimal_digits n : allDigits (decimal n) = true ∧ decimal n ≠ "".
Proof.
  unfold decimal. pose proof (to_uint_nonnil n) as Hn.
  pose proof (allDigits_string_of_uint (Nat.to_uint n)) as Hd.
  destruct (Nat.to_uint n); try contradiction; split; try exact Hd; discriminate.
Qed.

Lemma decimal_inj n m : decimal n = decimal m → n = m.
Proof.
  unfold decimal. intros H. apply Unsigned.to_uint_inj.
  assert (Some (Nat.to_uint n) = Some (Nat.to_uint m)) as [= E]; [|exact E].
  rewrite <- (NilZero.usu _ (to_uint_nonnil n)), <- (NilZero.usu _ (to_uint_nonnil m)), H.
  reflexivity.
Qed.

Lemma isMarker_marker counter : isMarker (marker counter).
Proof.
  destruct (decimal_digits counter) as [Hd Hne].
  exists (decimal counter). auto.
Qed.

Lemma marker_append counter v :
  "__FTN__:" +:+ decimal counter +:+ "#" +:+ v = marker counter +:+ v.
Proof. unfold marker. rewrite !append_assoc. reflexivity. Qed.

Lemma matchIdentifier_marker counter v :
  matchIdentifier (marker counter +:+ v) = Some (decimal counter, v).
Proof.
  destruct (decimal_digits counter) as [Hd Hne].
  unfold matchIdentifier, marker. rewrite !append_assoc, stripPrefix_append.
  change ("#" +:+ v) with (String "#" v).
  rewrite (spanDigits_append (decimal counter) v Hd).
  destruct (decimal counter); [congruence | reflexivity].
Qed.

Lemma append_length (s r : string) : String.length (s +:+ r) = String.length s + String.length r.
Proof.
  induction s as [|c s IH]; [reflexivity|]. rewrite append_cons. cbn [String.length].
  rewrite IH. reflexivity.
Qed.

Lemma marked_differs m w : isMarker m → (m +:+ w =? w)%string = false.
Proof.
  intros (ds & _ & _ & ->). apply String.eqb_neq. intros H.
  apply (f_equal String.length) in H. rewrite !append_length in H. cbn in H. lia.
Qed.

(** *** Tagging, then patching the text *)

Lemma tagTree_text fuel t counter (σ : store) n :
  σ !! t = Some n → isTextOrComment n = true →
  _tagTree (S fuel) t counter σ
  = (Done (S counter),
     <[t := setNodeValue (marker counter +:+ toString (nodeValue n)) n]> σ).
Proof.
  intros Ht Hk. cbn [_tagTree]. unfold mbind at 1, M_bind at 1, bind at 1, getNode.
  rewrite Ht. destruct n as [e|v|v]; [discriminate| |];
    unfold mbind, M_bind, bind, modifyNode; rewrite Ht, marker_append; reflexivity.
Qed.

Lemma applyNodeValue_run (σ : store) t r target source :
  σ !! t = Some target → σ !! r = Some source →
  applyNodeValue t r σ
  = (Done tt,
     <[t := setNodeValue (default "" (matchMarker (toString (nodeValue target)))
                          +:+ toString (nodeValue source)) target]> σ).
Proof.
  intros Ht Hr. unfold applyNodeValue, mbind, M_bind, bind, getNode, modifyNode.
  rewrite Ht, Hr, Ht. reflexivity.
Qed.

(** A text or comment node that [_tagTree] has tagged keeps its tag
    under a ['node-value'] patch: tagging with the counter value
    [counter], then applying the patch, leaves the node with the marker of
    [counter] followed by the value of the replacement. Nothing else is
    written, and the counter has advanced by one. *)
Theorem tag_survives_node_value_patch (fuel counter : nat) (σ : store)
    (toReplace replacement : nid) (target source : Node) (v : string) :
  σ !! toReplace = Some target → isTextOrComment target = true →
  σ !! replacement = Some source → nodeValue source = Some v →
  toReplace ≠ replacement →
  (counter' ← _tagTree (S fuel) toReplace counter;
   applyNodeValue toReplace replacement;;
   mret counter') σ
  = (Done (S counter), <[toReplace := setNodeValue (marker counter +:+ v) target]> σ).
Proof.
  intros Ht Hk Hr Hv Hne.
  unfold mbind at 1, M_bind at 1, bind at 1. rewrite (tagTree_text fuel _ _ σ target Ht Hk).
  rewrite (run_bind _ _ _ _ _
             (applyNodeValue_run _ toReplace replacement _ source
                (lookup_insert_eq _ _ _)
                ltac:(rewrite lookup_insert_ne by exact Hne; exact Hr))).
  rewrite insert_insert_eq, Hv. cbn [mret M_ret ret]. f_equal. f_equal.
  destruct target as [e|w|w]; [discriminate| |];
    cbn [setNodeValue nodeValue toString default from_option id];
    rewrite (matchMarker_marker _ _ (isMarker_marker counter)); reflexivity.
Qed.

Lemma tag_survives_node_value_patch_witness :
  (counter' ← _tagTree (S 0) 1 7; applyNodeValue 1 2;; mret counter') plain
  = (Done (S 7), <[1 := setNodeValue (marker 7 +:+ "new") (Text "old")]> plain).
Proof.
  apply (tag_survives_node_value_patch 0 7 plain 1 2 (Text "old") (Text "new") "new");
    first [reflexivity | lia].
Defined.

(** A ['node-value'] patch never settles a tagged node: once it has been
    applied to a text or comment node that carries a marker, comparing
    the node with the replacement again returns the same patch, whatever
    the text of the replacement. *)
Theorem node_value_patch_is_returned_again (fuel : nat) (σ : store)
    (toReplace replacement : nid) (target source : Node) (m v : string) :
  σ !! toReplace = Some target → σ !! replacement = Some source →
  isTextOrComment target = true → nodeType target = nodeType source →
  matchMarker (toString (nodeValue target)) = Some m → nodeValue source = Some v →
  toReplace ≠ replacement →
  ∃ σ',
    applyNodeValue toReplace replacement σ = (Done tt, σ')
    ∧ diff (S fuel) toReplace replacement None σ'
      = (Done [NodeValue toReplace replacement], σ').
Proof.
  intros Ht Hr Hk Hty Hm Hv Hne.
  exists (<[toReplace := setNodeValue (m +:+ v) target]> σ). split.
  - rewrite (applyNodeValue_run σ _ _ _ _ Ht Hr), Hm, Hv. reflexivity.
  - apply matchMarker_Some in Hm as [Hm _].
    rewrite (diff_compare fuel toReplace replacement None _
               (setNodeValue (m +:+ v) target) source eq_refl).
    + destruct target as [e|w|w]; [discriminate| |];
        destruct source as [e'|w'|w']; try discriminate;
        cbn in Hv; injection Hv as ->;
        cbn [setNodeValue childNodes length Nat.ltb Nat.leb orb mret M_ret ret fst
             outcomeMap];
        unfold compareNodes, differentValues;
        cbn [isTextOrComment nodeType nodeValue andb];
        rewrite (marked_differs m v Hm); reflexivity.
    + apply lookup_insert_eq.
    + rewrite lookup_insert_ne by exact Hne. exact Hr.
    + destruct target, source; try discriminate; reflexivity.
    + destruct target, source; try discriminate; reflexivity.
Qed.

Lemma node_value_patch_is_returned_again_witness :
  ∃ σ',
    applyNodeValue 1 2 tagged = (Done tt, σ')
    ∧ diff (S 0) 1 2 None σ' = (Done [NodeValue 1 2], σ').
Proof.
  apply (node_value_patch_is_returned_again 0 tagged 1 2
           (Text "__FTN__:7#old") (Text "new") "__FTN__:7#" "new");
    first [reflexivity | lia].
Defined.

(** *** Tagging, then indexing *)

Lemma setNodeValue_restores n v :
  isTextOrComment n = true →
  setNodeValue (toString (nodeValue n)) (setNodeValue v n) = n.
Proof. destruct n; [discriminate| |]; reflexivity. Qed.

Lemma indexNodes_text fuel c t ix (σ : store) n counter v :
  σ !! t = Some n → isTextOrComment n = true →
  nodeValue n = Some (marker counter +:+ v) →
  _indexNodes (S fuel) c t ix σ
  = (Done (mkIndexes (elements ix) (<[decimal counter := t]> (text_nodes ix))
             (_mappingIdsOfChilds ix) (_nodesWithFrontyComponentAttribute ix)),
     <[t := setNodeValue v n]> σ).
Proof.
  intros Ht Hk Hv. cbn [_indexNodes]. unfold mbind at 1, M_bind at 1, bind at 1, getNode.
  rewrite Ht. destruct n as [e|w|w]; [discriminate| |];
    cbn in Hv; injection Hv as ->; rewrite matchIdentifier_marker;
    unfold mbind, M_bind, bind, modifyNode; cbn [defined ret]; rewrite Ht; reflexivity.
Qed.

(** Identifiers do not collide. Two text or comment nodes that were
    tagged at different counter values and then indexed are both found
    again: a node of the snapshot that carries the marker of one counter
    value resolves to the node indexed for that value, whichever of the
    two was indexed last. *)
Theorem tagged_nodes_resolve_apart (getElementById : string → M (option nid))
    (fuel fuel' c1 c2 : nat) (c : Component) (σ σ1 σ2 : store) (t1 t2 u : nid)
    (n1 n2 nu : Node) (v1 v2 v : string) (ix ix1 ix2 : Indexes) :
  c1 ≠ c2 →
  σ !! t1 = Some n1 → isTextOrComment n1 = true → nodeValue n1 = Some (marker c1 +:+ v1) →
  _indexNodes (S fuel) c t1 ix σ = (Done ix1, σ1) →
  σ1 !! t2 = Some n2 → isTextOrComment n2 = true → nodeValue n2 = Some (marker c2 +:+ v2) →
  _indexNodes (S fuel') c t2 ix1 σ1 = (Done ix2, σ2) →
  σ2 !! u = Some nu → isTextOrComment nu = true → nodeValue nu = Some (marker c1 +:+ v) →
  _resolveRealNode getElementById ix2 u σ2 = (Done (RealNode t1), σ2).
Proof.
  intros Hc H1 Hk1 Hv1 Hrun1 H2 Hk2 Hv2 Hrun2 Hu Hku Hvu.
  rewrite (indexNodes_text fuel c t1 ix σ n1 c1 v1 H1 Hk1 Hv1) in Hrun1.
  injection Hrun1 as <- <-.
  rewrite (indexNodes_text fuel' c t2 _ _ n2 c2 v2 H2 Hk2 Hv2) in Hrun2.
  injection Hrun2 as <- <-.
  unfold _resolveRealNode, mbind at 1, M_bind at 1, bind at 1, getNode. rewrite Hu.
  destruct nu as [e|w|w]; [discriminate| |];
    cbn in Hvu; injection Hvu as ->; rewrite matchIdentifier_marker;
    unfold mbind, M_bind, bind; cbn [defined ret text_nodes];
    rewrite lookup_insert_ne by (intros E; apply decimal_inj in E; congruence);
    rewrite lookup_insert_eq; reflexivity.
Qed.

Lemma tagged_nodes_resolve_apart_witness :
  _resolveRealNode (λ _, mret None)
    (mkIndexes emptyObject (<[decimal 8 := 2]> (<[decimal 7 := 1]> ∅)) ∅ []) 3
    (<[2 := Text "new"]> (<[1 := Text "old"]> twice))
  = (Done (RealNode 1), <[2 := Text "new"]> (<[1 := Text "old"]> twice)).
Proof.
  apply (tagged_nodes_resolve_apart (λ _, mret None) 0 0 7 8 Examples.app
           twice (<[1 := Text "old"]> twice)
           (<[2 := Text "new"]> (<[1 := Text "old"]> twice)) 1 2 3
           (Text "__FTN__:7#old") (Text "__FTN__:8#new") (Text "__FTN__:7#old")
           "old" "new" "old" noIndexes
           (mkIndexes emptyObject (<[decimal 7 := 1]> ∅) ∅ [])
           (mkIndexes emptyObject (<[decimal 8 := 2]> (<[decimal 7 := 1]> ∅)) ∅ []));
    first [reflexivity | lia].
Defined.

End MarkerFacts.

(* ===================================================================== *)
(** ** Properties of [_tagTree] on whole trees                          *)
(* ===================================================================== *)

Module TaggingFacts.
Import TreeComparator Component RealNodes Tagging PatchFacts MarkerFacts.

Lemma shape_tagNode counter n : shape (Some (tagNode counter n)) = shape (Some n).
Proof. destruct n; reflexivity. Qed.

Lemma preorder_S h (σ : store) r :
  preorder (S h) σ r
  = match σ !! r with
    | Some (Element e) => r :: concat (preorder h σ <$> el_childNodes e)
    | Some _ => [r]
    | None => []
    end.
Proof. reflexivity. Qed.

Lemma within_S h (σ : store) r :
  within (S h) σ r
  = match σ !! r with
    | Some (Element e) => Forall (within h σ) (el_childNodes e)
    | Some _ => True
    | None => False
    end.
Proof. reflexivity. Qed.

Lemma preorder_shape h : ∀ (σ σ' : store) r,
  (∀ x : nid, shape (σ' !! x) = shape (σ !! x)) → preorder h σ' r = preorder h σ r.
Proof.
  induction h as [|h IH]; intros σ σ' r Hs; [reflexivity|]. rewrite !preorder_S.
  generalize (Hs r).
  destruct (σ' !! r) as [[e'|v'|v']|], (σ !! r) as [[e|v|v]|]; try discriminate;
    try reflexivity.
  cbn. intros [= ->]. f_equal. f_equal.
  apply list_fmap_ext. intros _ x _. apply IH, Hs.
Qed.

Lemma within_shape h : ∀ (σ σ' : store) r,
  (∀ x : nid, shape (σ' !! x) = shape (σ !! x)) → within h σ r → within h σ' r.
Proof.
  induction h as [|h IH]; intros σ σ' r Hs; [exact id|]. rewrite !within_S.
  generalize (Hs r).
  destruct (σ' !! r) as [[e'|v'|v']|], (σ !! r) as [[e|v|v]|]; try discriminate; auto.
  cbn. intros [= ->] H. eapply Forall_impl; [exact H|]. intros x. apply IH, Hs.
Qed.

Lemma shape_alter counter (r : nid) (σ : store) (x : nid) :
  shape (alter (tagNode counter) r σ !! x) = shape (σ !! x).
Proof.
  destruct (decide (r = x)) as [->|Hne].
  - rewrite lookup_alter_eq. destruct (σ !! x) as [n|]; [apply shape_tagNode | reflexivity].
  - rewrite lookup_alter_ne by exact Hne. reflexivity.
Qed.

Lemma shape_tagAll nodes : ∀ counter (σ : store) (x : nid),
  shape (tagAll nodes counter σ !! x) = shape (σ !! x).
Proof.
  induction nodes as [|r rest IH]; intros counter σ x; [reflexivity|].
  cbn [tagAll]. rewrite IH. apply shape_alter.
Qed.

Lemma tagAll_app l1 : ∀ l2 counter (σ : store),
  tagAll (l1 ++ l2) counter σ = tagAll l2 (counter + length l1) (tagAll l1 counter σ).
Proof.
  induction l1 as [|r l1 IH]; intros l2 counter σ.
  - cbn. rewrite Nat.add_0_r. reflexivity.
  - cbn [app tagAll length]. rewrite IH. f_equal. lia.
Qed.

Lemma modify_alter (σ : store) (r : nid) n f :
  σ !! r = Some n → modifyNode r f σ = (Done tt, alter f r σ).
Proof.
  intros H. rewrite (run_modifyNode σ r n f H). f_equal.
  rewrite <- (insert_id σ r n H) at 2. rewrite alter_insert_eq. reflexivity.
Qed.

Lemma alter_Some (σ : store) (r : nid) n f : σ !! r = Some n → alter f r σ = <[r := f n]> σ.
Proof.
  intros H. rewrite <- (insert_id σ r n H) at 1. apply alter_insert_eq.
Qed.

Lemma tagTree_S fuel r counter :
  _tagTree (S fuel) r counter
  = (n ← getNode r;
     match n with
     | Element e =>
         modifyNode r (setAttribute "frontyid" (decimal counter));;
         tagChildren fuel (el_childNodes e) (S counter)
     | Text v | Comment v =>
         modifyNode r (setNodeValue ("__FTN__:" +:+ decimal counter +:+ "#" +:+ v));;
         mret (S counter)
     end).
Proof. reflexivity. Qed.

Lemma tagNode_run (σ : store) (r : nid) n counter :
  σ !! r = Some n →
  modifyNode r (tagNode counter) σ = (Done tt, alter (tagNode counter) r σ).
Proof. apply modify_alter. Qed.

Section Children.
Variable h : nat.
Hypothesis IH : ∀ fuel (σ : store) r counter,
  within h σ r → h ≤ fuel →
  _tagTree fuel r counter σ
  = (Done (counter + length (preorder h σ r)), tagAll (preorder h σ r) counter σ).

Lemma tagChildren_run fuel : ∀ l (σ : store) counter,
  Forall (within h σ) l → h ≤ fuel →
  tagChildren fuel l counter σ
  = (Done (counter + length (concat (preorder h σ <$> l))),
     tagAll (concat (preorder h σ <$> l)) counter σ).
Proof.
  induction l as [|c rest IHl]; intros σ counter Hw Hf.
  - cbn. rewrite Nat.add_0_r. reflexivity.
  - apply Forall_cons in Hw as [Hc Hrest]. cbn [tagChildren].
    rewrite (run_bind _ _ _ _ _ (IH fuel σ c counter Hc Hf)).
    fold (tagChildren fuel).
    rewrite IHl.
    + assert (preorder h (tagAll (preorder h σ c) counter σ) <$> rest
              = preorder h σ <$> rest) as ->.
      { apply list_fmap_ext. intros _ x _. apply preorder_shape.
        intros y. apply shape_tagAll. }
      rewrite fmap_cons, concat_cons, length_app, tagAll_app, Nat.add_assoc.
      reflexivity.
    + eapply Forall_impl; [exact Hrest|]. intros x. apply within_shape.
      intros y. apply shape_tagAll.
    + exact Hf.
Qed.

End Children.

(** [_tagTree] on a tree of height less than [h], with fuel enough: the
    counter advances by the number of nodes, and the nodes are tagged one
    after the other in document order. *)
Lemma tagTree_run h : ∀ fuel (σ : store) r counter,
  within h σ r → h ≤ fuel →
  _tagTree fuel r counter σ
  = (Done (counter + length (preorder h σ r)), tagAll (preorder h σ r) counter σ).
Proof.
  induction h as [|h IH]; intros fuel σ r counter Hw Hf; [destruct Hw|].
  destruct fuel as [|fuel]; [lia|]. rewrite within_S in Hw. rewrite preorder_S, tagTree_S.
  unfold mbind at 1, M_bind at 1, bind at 1, getNode.
  destruct (σ !! r) as [[e|v|v]|] eqn:Hr; [| | |destruct Hw].
  - rewrite (run_bind _ _ _ _ _ (run_modifyNode σ r _ _ Hr)).
    change (setAttribute "frontyid" (decimal counter) (Element e))
      with (tagNode counter (Element e)).
    rewrite <- (alter_Some σ r (Element e) (tagNode counter) Hr).
    cbn [tagAll length].
    rewrite (tagChildren_run h IH fuel).
    + assert (preorder h (alter (tagNode counter) r σ) <$> el_childNodes e
              = preorder h σ <$> el_childNodes e) as ->.
      { apply list_fmap_ext. intros _ x _. apply preorder_shape. intros y.
        apply shape_alter. }
      rewrite Nat.add_succ_r. reflexivity.
    + eapply Forall_impl; [exact Hw|]. intros x. apply within_shape. intros y.
      apply shape_alter.
    + lia.
  - rewrite (run_bind _ _ _ _ _ (run_modifyNode σ r _ _ Hr)).
    cbn [tagAll length]. rewrite (alter_Some σ r _ _ Hr). cbn [tagNode].
    rewrite marker_append, Nat.add_1_r. reflexivity.
  - rewrite (run_bind _ _ _ _ _ (run_modifyNode σ r _ _ Hr)).
    cbn [tagAll length]. rewrite (alter_Some σ r _ _ Hr). cbn [tagNode].
    rewrite marker_append, Nat.add_1_r. reflexivity.
Qed.

Lemma tagAll_notin nodes : ∀ counter (σ : store) (x : nid),
  x ∉ nodes → tagAll nodes counter σ !! x = σ !! x.
Proof.
  induction nodes as [|r rest IH]; intros counter σ x Hx; [reflexivity|].
  apply not_elem_of_cons in Hx as [Hne Hrest]. cbn [tagAll].
  rewrite (IH _ _ _ Hrest). apply lookup_alter_ne. congruence.
Qed.

Lemma tagAll_lookup nodes : ∀ counter (σ : store) k (x : nid),
  NoDup nodes → nodes !! k = Some x →
  tagAll nodes counter σ !! x = tagNode (counter + k) <$> σ !! x.
Proof.
  induction nodes as [|r rest IH]; intros counter σ k x Hnd Hk; [discriminate|].
  apply NoDup_cons in Hnd as [Hr Hnd]. cbn [tagAll]. destruct k as [|k].
  - injection Hk as <-. rewrite (tagAll_notin _ _ _ _ Hr), lookup_alter_eq, Nat.add_0_r.
    reflexivity.
  - cbn in Hk. rewrite (IH _ _ k x Hnd Hk), lookup_alter_ne.
    + f_equal. f_equal. lia.
    + intros ->. apply Hr. apply list_elem_of_lookup. eauto.
Qed.

(** [_tagTree] on a tree (no node reached twice): it returns, the
    counter has advanced by the number of nodes of the tree, the node at
    position [k] of the document order carries the identifier
    [counter + k] (as ['frontyid'] attribute on an element, as marker in
    front of the value of a text or comment node), and no node outside the
    tree is written. *)
Theorem tagTree_numbers_nodes_in_document_order (h fuel : nat) (σ : store) (r : nid)
    (counter : nat) :
  within h σ r → h ≤ fuel → NoDup (preorder h σ r) →
  ∃ σ',
    _tagTree fuel r counter σ = (Done (counter + length (preorder h σ r)), σ')
    ∧ (∀ k x, preorder h σ r !! k = Some x →
         σ' !! x = tagNode (counter + k) <$> σ !! x)
    ∧ (∀ x, x ∉ preorder h σ r → σ' !! x = σ !! x).
Proof.
  intros Hw Hf Hnd. exists (tagAll (preorder h σ r) counter σ).
  split; [apply tagTree_run; assumption|]. split.
  - intros k x Hk. apply tagAll_lookup; assumption.
  - intros x Hx. apply tagAll_notin, Hx.
Qed.

Lemma tagTree_numbers_nodes_in_document_order_witness :
  ∃ σ',
    _tagTree 3 1 5 listing = (Done (5 + length (preorder 3 listing 1)), σ')
    ∧ (∀ k x, preorder 3 listing 1 !! k = Some x →
         σ' !! x = tagNode (5 + k) <$> listing !! x)
    ∧ (∀ x, x ∉ preorder 3 listing 1 → σ' !! x = listing !! x).
Proof.
  apply (tagTree_numbers_nodes_in_document_order 3 3 listing 1 5).
  - vm_compute. repeat (constructor; vm_compute).
  - lia.
  - apply (bool_decide_unpack _). vm_compute. exact I.
Defined.

End TaggingFacts.

(* ===================================================================== *)
(** ** Properties of [_indexNodes] after [_tagTree]                     *)
(* ===================================================================== *)

Module IndexingFacts.
Import TreeComparator Component RealNodes Tagging Indexing PatchFacts MarkerFacts TaggingFacts.

Lemma indexNodes_S fuel c r ix :
  _indexNodes (S fuel) c r ix
  = (n ← getNode r;
     match n with
     | Element e =>
         ix1 ← match lookupAttr "frontyid" (el_attributes e) with
               | Some frontyid =>
                   modifyNode r (removeAttribute "frontyid");;
                   mret (indexElement c r e frontyid ix)
               | None => mret ix
               end;
         let ix2 :=
           if hasAttribute n "fronty-component"
           then mkIndexes (elements ix1) (text_nodes ix1) (_mappingIdsOfChilds ix1)
                  (_nodesWithFrontyComponentAttribute ix1 ++ [r])
           else ix1 in
         indexChildNodes fuel c (el_childNodes e) ix2
     | Text v | Comment v =>
         '(id, payload) ← defined (matchIdentifier v);
         modifyNode r (setNodeValue payload);;
         mret (mkIndexes (elements ix) (<[id := r]> (text_nodes ix))
                 (_mappingIdsOfChilds ix) (_nodesWithFrontyComponentAttribute ix))
     end).
Proof. reflexivity. Qed.

Lemma registerAll_app c σ l1 : ∀ l2 counter ix,
  registerAll c σ (l1 ++ l2) counter ix
  = registerAll c σ l2 (counter + length l1) (registerAll c σ l1 counter ix).
Proof.
  induction l1 as [|x l1 IH]; intros l2 counter ix.
  - cbn. rewrite Nat.add_0_r. reflexivity.
  - cbn [app registerAll length]. rewrite IH. f_equal. lia.
Qed.

Lemma removeAttr_setAttr a v l :
  lookupAttr a l = None → removeAttr a (setAttr a v l) = l.
Proof.
  induction l as [|x r IH]; simpl.
  - rewrite String.eqb_refl. reflexivity.
  - destruct (String.eqb_spec (name x) a) as [E|E]; [discriminate|].
    intros H. simpl. destruct (String.eqb_spec (name x) a); [contradiction|].
    f_equal. exact (IH H).
Qed.

Lemma insert_tagAll nodes : ∀ counter (σ : store) (r : nid) n,
  r ∉ nodes → <[r := n]> (tagAll nodes counter σ) = tagAll nodes counter (<[r := n]> σ).
Proof.
  induction nodes as [|x rest IH]; intros counter σ r n Hr; [reflexivity|].
  apply not_elem_of_cons in Hr as [Hne Hrest]. cbn [tagAll].
  rewrite (IH _ _ _ _ Hrest). f_equal. apply insert_alter_ne. exact Hne.
Qed.

(** Undoing the tag of the first node of a list of tagged nodes. *)
Lemma untag_first (σ : store) (r : nid) n n' rest counter :
  σ !! r = Some n → r ∉ rest →
  <[r := n]> (tagAll (r :: rest) counter σ) = tagAll rest (S counter) σ
  ∧ (tagAll (r :: rest) counter σ !! r = Some n' → n' = tagNode counter n).
Proof.
  intros Hr Hnot. cbn [tagAll]. split.
  - rewrite (insert_tagAll _ _ _ _ _ Hnot), insert_alter_eq, (insert_id _ _ _ Hr).
    reflexivity.
  - rewrite (tagAll_notin _ _ _ _ Hnot), lookup_alter_eq, Hr. cbn. congruence.
Qed.

Lemma untagged_app σ l1 l2 : untagged σ (l1 ++ l2) → untagged σ l1 ∧ untagged σ l2.
Proof.
  intros H. split; intros x e Hx; apply H; apply elem_of_app; auto.
Qed.

Lemma untagged_cons σ x l : untagged σ (x :: l) → untagged σ l.
Proof. intros H y e Hy. apply H. apply list_elem_of_further, Hy. Qed.

Section Run.
Variable c : Component.
Variable σ : store.

Section Children.
Variable h : nat.
Hypothesis IH : ∀ fuel (r : nid) counter q ix,
  within h σ r → h ≤ fuel → NoDup (preorder h σ r ++ q) → untagged σ (preorder h σ r) →
  _indexNodes fuel c r ix (tagAll (preorder h σ r ++ q) counter σ)
  = (Done (registerAll c σ (preorder h σ r) counter ix),
     tagAll q (counter + length (preorder h σ r)) σ).

Lemma indexChildNodes_run fuel : ∀ l counter q ix,
  Forall (within h σ) l → h ≤ fuel →
  NoDup (concat (preorder h σ <$> l) ++ q) →
  untagged σ (concat (preorder h σ <$> l)) →
  indexChildNodes fuel c l ix (tagAll (concat (preorder h σ <$> l) ++ q) counter σ)
  = (Done (registerAll c σ (concat (preorder h σ <$> l)) counter ix),
     tagAll q (counter + length (concat (preorder h σ <$> l))) σ).
Proof.
  induction l as [|a rest IHl]; intros counter q ix Hw Hf Hnd Hun.
  - cbn. rewrite Nat.add_0_r. reflexivity.
  - apply Forall_cons in Hw as [Ha Hrest].
    rewrite fmap_cons, concat_cons in *. rewrite <- app_assoc in *.
    apply untagged_app in Hun as [Hua Hur].
    cbn [indexChildNodes].
    rewrite (run_bind _ _ _ _ _ (IH fuel a counter _ ix Ha Hf Hnd Hua)).
    fold (indexChildNodes fuel c).
    rewrite (IHl _ q _ Hrest Hf); [|apply NoDup_app in Hnd as (_ & _ & H); exact H|exact Hur].
    rewrite registerAll_app, length_app, Nat.add_assoc. reflexivity.
Qed.

End Children.

Lemma indexNodes_run h : ∀ fuel (r : nid) counter q ix,
  within h σ r → h ≤ fuel → NoDup (preorder h σ r ++ q) → untagged σ (preorder h σ r) →
  _indexNodes fuel c r ix (tagAll (preorder h σ r ++ q) counter σ)
  = (Done (registerAll c σ (preorder h σ r) counter ix),
     tagAll q (counter + length (preorder h σ r)) σ).
Proof.
  induction h as [|h IH]; intros fuel r counter q ix Hw Hf Hnd Hun; [destruct Hw|].
  destruct fuel as [|fuel]; [lia|]. rewrite within_S in Hw.
  rewrite preorder_S in *. rewrite indexNodes_S.
  destruct (σ !! r) as [n|] eqn:Hr; [|destruct Hw].
  assert (∃ rest, (match n with
                   | Element e => r :: concat (preorder h σ <$> el_childNodes e)
                   | _ => [r]
                   end) = r :: rest) as [rest Hp] by (destruct n; eauto).
  rewrite Hp in *. rewrite <- app_comm_cons in *. apply NoDup_cons in Hnd as [Hnot Hnd].
  destruct (untag_first σ r n (tagNode counter n) (rest ++ q) counter Hr Hnot)
    as [Hstore _].
  assert (tagAll (r :: rest ++ q) counter σ !! r = Some (tagNode counter n)) as Hread.
  { cbn [tagAll]. rewrite (tagAll_notin _ _ _ _ Hnot), lookup_alter_eq, Hr. reflexivity. }
  rewrite (run_bind _ _ _ _ _ (run_getNode _ _ _ Hread)).
  destruct n as [e|v|v].
  - injection Hp as <-. cbn [tagNode setAttribute withAttributes el_attributes].
    rewrite lookupAttr_setAttr_eq.
    rewrite (run_bind _ _ _ _ _ (run_bind _ _ _ _ _ (run_modifyNode _ _ _ _ Hread))).
    assert (removeAttribute "frontyid" (tagNode counter (Element e)) = Element e) as ->.
    { cbn. rewrite removeAttr_setAttr; [destruct e; reflexivity|].
      apply (Hun r e); [apply list_elem_of_here | exact Hr]. }
    rewrite Hstore. cbn [mret M_ret ret el_childNodes].
    rewrite (indexChildNodes_run h IH fuel _ (S counter) q _ Hw ltac:(lia) Hnd
               (untagged_cons _ _ _ Hun)).
    cbn [registerAll length]. unfold registerNode. rewrite Hr.
    unfold indexElement, hasAttribute. cbn [getAttribute el_attributes].
    rewrite !lookupAttr_setAttr_ne by discriminate.
    rewrite Nat.add_succ_r. reflexivity.
  - injection Hp as <-. cbn [tagNode setNodeValue nodeValue toString default from_option id].
    rewrite matchIdentifier_marker. cbn [defined].
    rewrite (run_bind (ret _) _ _ _ _ eq_refl).
    rewrite (run_bind _ _ _ _ _ (run_modifyNode _ _ _ _ Hread)).
    cbn [setNodeValue tagNode]. rewrite Hstore.
    cbn [registerAll length mret M_ret ret]. unfold registerNode. rewrite Hr.
    rewrite Nat.add_1_r. reflexivity.
  - injection Hp as <-. cbn [tagNode setNodeValue nodeValue toString default from_option id].
    rewrite matchIdentifier_marker. cbn [defined].
    rewrite (run_bind (ret _) _ _ _ _ eq_refl).
    rewrite (run_bind _ _ _ _ _ (run_modifyNode _ _ _ _ Hread)).
    cbn [setNodeValue tagNode]. rewrite Hstore.
    cbn [registerAll length mret M_ret ret]. unfold registerNode. rewrite Hr.
    rewrite Nat.add_1_r. reflexivity.
Qed.

End Run.

Lemma decimal_not_proto n : decimal n ≠ "__proto__".
Proof.
  intros E. destruct (decimal_digits n) as [Hd _]. rewrite E in Hd. discriminate.
Qed.

Lemma object_get_set_eq n x o : object_get (decimal n) (object_set (decimal n) x o) = Held x.
Proof.
  unfold object_get, object_set.
  destruct (String.eqb_spec (decimal n) "__proto__") as [E|_];
    [destruct (decimal_not_proto n E)|].
  cbn [properties]. rewrite lookup_insert_eq. reflexivity.
Qed.

Lemma object_get_set_ne n m x o :
  n ≠ m → object_get (decimal m) (object_set (decimal n) x o) = object_get (decimal m) o.
Proof.
  intros Hne. unfold object_get, object_set.
  destruct (String.eqb_spec (decimal n) "__proto__") as [E|_];
    [destruct (decimal_not_proto n E)|].
  cbn [properties prototype].
  rewrite lookup_insert_ne by (intros E; apply decimal_inj in E; congruence).
  reflexivity.
Qed.

Lemma registerNode_other c σ counter x ix m :
  counter ≠ m →
  object_get (decimal m) (elements (registerNode c σ counter x ix))
  = object_get (decimal m) (elements ix)
  ∧ text_nodes (registerNode c σ counter x ix) !! decimal m = text_nodes ix !! decimal m.
Proof.
  intros Hne. unfold registerNode, indexElement.
  destruct (σ !! x) as [[e|v|v]|]; [|split; [reflexivity|]..|split; reflexivity].
  - destruct (hasAttribute (Element e) "fronty-component"); cbn [elements text_nodes];
      (split; [apply object_get_set_ne, Hne | reflexivity]).
  - cbn [text_nodes]. apply lookup_insert_ne. intros E. apply decimal_inj in E. congruence.
  - cbn [text_nodes]. apply lookup_insert_ne. intros E. apply decimal_inj in E. congruence.
Qed.

Lemma registerAll_other c σ nodes : ∀ counter ix m,
  m < counter →
  object_get (decimal m) (elements (registerAll c σ nodes counter ix))
  = object_get (decimal m) (elements ix)
  ∧ text_nodes (registerAll c σ nodes counter ix) !! decimal m = text_nodes ix !! decimal m.
Proof.
  induction nodes as [|x rest IH]; intros counter ix m Hm; [split; reflexivity|].
  cbn [registerAll].
  destruct (IH (S counter) (registerNode c σ counter x ix) m ltac:(lia)) as [-> ->].
  apply registerNode_other. lia.
Qed.

Lemma registerNode_recorded c (σ : store) counter (x : nid) ix :
  is_Some (σ !! x) → recorded σ (registerNode c σ counter x ix) counter x.
Proof.
  intros [n Hx]. unfold recorded, registerNode, indexElement. rewrite Hx.
  destruct n as [e|v|v].
  - destruct (hasAttribute (Element e) "fronty-component"); cbn [elements];
      apply object_get_set_eq.
  - cbn [text_nodes]. apply lookup_insert_eq.
  - cbn [text_nodes]. apply lookup_insert_eq.
Qed.

Lemma registerAll_recorded c (σ : store) nodes : ∀ counter ix k (x : nid),
  nodes !! k = Some x → is_Some (σ !! x) →
  recorded σ (registerAll c σ nodes counter ix) (counter + k) x.
Proof.
  induction nodes as [|y rest IH]; intros counter ix k x Hk Hx; [discriminate|].
  cbn [registerAll]. destruct k as [|k].
  - injection Hk as ->. rewrite Nat.add_0_r.
    pose proof (registerNode_recorded c σ counter x ix Hx) as Hrec.
    unfold recorded in *.
    destruct (registerAll_other c σ rest (S counter) (registerNode c σ counter x ix)
                counter ltac:(lia)) as [-> ->].
    exact Hrec.
  - cbn in Hk. replace (counter + S k) with (S counter + k) by lia.
    apply IH; assumption.
Qed.

Lemma preorder_defined h : ∀ (σ : store) (r x : nid),
  x ∈ preorder h σ r → is_Some (σ !! x).
Proof.
  induction h as [|h IH]; intros σ r x Hx; [apply elem_of_nil in Hx as []|].
  rewrite preorder_S in Hx. destruct (σ !! r) as [[e|v|v]|] eqn:Hr.
  - apply elem_of_cons in Hx as [->|Hx]; [eauto|].
    apply list_elem_of_In, in_concat in Hx as (l & Hl & Hx).
    apply list_elem_of_In, list_elem_of_fmap in Hl as (child & -> & _).
    apply list_elem_of_In in Hx. exact (IH _ _ _ Hx).
  - apply list_elem_of_singleton in Hx as ->. eauto.
  - apply list_elem_of_singleton in Hx as ->. eauto.
  - apply elem_of_nil in Hx as [].
Qed.

(** [_indexNodes] undoes [_tagTree]. On a tree (no node reached twice)
    none of whose elements carries a ['frontyid'] attribute, tagging from
    the counter value [counter] and then indexing gives the store back as
    it was, and the node at position [k] of the document order is
    recorded under the identifier [counter + k]: in [elements] if it is an
    element, in [text_nodes] if it is a text or comment node. *)
Theorem indexing_undoes_tagging (h fuel fuel' counter : nat) (c : Component)
    (σ : store) (r : nid) (ix : Indexes) :
  within h σ r → h ≤ fuel → h ≤ fuel' →
  NoDup (preorder h σ r) → untagged σ (preorder h σ r) →
  (_ ← _tagTree fuel r counter; _indexNodes fuel' c r ix) σ
  = (Done (registerAll c σ (preorder h σ r) counter ix), σ)
  ∧ ∀ k x, preorder h σ r !! k = Some x →
           recorded σ (registerAll c σ (preorder h σ r) counter ix) (counter + k) x.
Proof.
  intros Hw Hf Hf' Hnd Hun. split.
  - rewrite (run_bind _ _ _ _ _ (tagTree_run h fuel σ r counter Hw Hf)).
    rewrite <- (app_nil_r (preorder h σ r)) at 1.
    rewrite (indexNodes_run c σ h fuel' r counter [] ix Hw Hf');
      [reflexivity | rewrite app_nil_r; exact Hnd | exact Hun].
  - intros k x Hk. apply registerAll_recorded; [exact Hk|].
    apply (preorder_defined h σ r). apply list_elem_of_lookup. eauto.
Qed.

Lemma indexing_undoes_tagging_witness :
  (_ ← _tagTree 3 1 5; _indexNodes 3 Examples.app 1 noIndexes) listing
  = (Done (registerAll Examples.app listing (preorder 3 listing 1) 5 noIndexes), listing)
  ∧ ∀ k x, preorder 3 listing 1 !! k = Some x →
           recorded listing
             (registerAll Examples.app listing (preorder 3 listing 1) 5 noIndexes)
             (5 + k) x.
Proof.
  apply (indexing_undoes_tagging 3 3 3 5 Examples.app listing 1 noIndexes).
  - vm_compute. repeat (constructor; vm_compute).
  - lia.
  - lia.
  - apply (bool_decide_unpack _). vm_compute. exact I.
  - intros x e Hx Hl. vm_compute in Hx.
    repeat (apply elem_of_cons in Hx as [->|Hx];
            [vm_compute in Hl; first [discriminate | injection Hl as <-; reflexivity]|]);
    apply elem_of_nil in Hx as [].
Defined.

End IndexingFacts.

(* ===================================================================== *)
(** ** Properties of the first render                                   *)
(* ===================================================================== *)

Module FirstRenderFacts.
Import TreeComparator Component RealNodes Tagging FirstRender PatchFacts TaggingFacts.

Lemma within_root h (σ : store) (r : nid) : within h σ r → r ∈ preorder h σ r.
Proof.
  destruct h as [|h]; [contradiction|]. rewrite within_S, preorder_S.
  destruct (σ !! r) as [[e|v|v]|]; [intros _..|contradiction]; apply list_elem_of_here.
Qed.

Lemma outside_tree h : ∀ (σ : store) (r x : nid) n,
  within h σ r → x ∉ preorder h σ r →
  within h (<[x := n]> σ) r ∧ preorder h (<[x := n]> σ) r = preorder h σ r.
Proof.
  induction h as [|h IH]; intros σ r x n Hw Hx; [contradiction|].
  assert (x ≠ r) as Hne by (intros ->; apply Hx, within_root, Hw).
  rewrite within_S in Hw. rewrite preorder_S in Hx. rewrite within_S, !preorder_S.
  rewrite lookup_insert_ne by exact Hne.
  destruct (σ !! r) as [[e|v|v]|]; [|auto..].
  apply not_elem_of_cons in Hx as [_ Hx].
  assert (∀ c, c ∈ el_childNodes e →
            within h (<[x := n]> σ) c ∧ preorder h (<[x := n]> σ) c = preorder h σ c) as Hc.
  { intros c Hc. rewrite Forall_forall in Hw. apply IH; [apply Hw, Hc|].
    intros Hin. apply Hx. apply list_elem_of_In, in_concat.
    exists (preorder h σ c). split; [|apply list_elem_of_In, Hin].
    apply list_elem_of_In, list_elem_of_fmap. eauto. }
  split.
  - apply Forall_forall. intros c Hin. apply Hc, Hin.
  - f_equal. f_equal. apply list_fmap_ext. intros i c Hin.
    apply Hc. apply list_elem_of_lookup. eauto.
Qed.

(** A first render never compares. With no snapshot yet,
    [_renderNewTree] empties the host element, tags the whole new tree,
    and has [diff] answer with the one patch that replaces the host
    element by the new tree; the snapshot is then the new tree, and the
    counter has advanced by the number of its nodes. *)
Theorem first_render_replaces_the_host (h fuel : nat) (c : Component) (σ : store)
    (componentNode newTree : nid) (host : Node) :
  _previousVirtualDOM c = None →
  σ !! componentNode = Some host →
  within h σ newTree → componentNode ∉ preorder h σ newTree → h ≤ fuel →
  (_renderNewTree fuel c componentNode newTree σ).1
  = Done ([ReplaceSubtree componentNode newTree],
          mkComponent (htmlNodeId c) (childComponentIds c) (Some newTree)
            (_generatedIdsCounter c + length (preorder h σ newTree))).
Proof.
  intros Hfirst Hhost Hw Hout Hf. unfold _renderNewTree. rewrite Hfirst.
  rewrite bool_decide_eq_true_2 by reflexivity. cbn [default from_option id].
  rewrite (run_bind _ _ _ _ _ (run_modifyNode σ componentNode host _ Hhost)).
  destruct (outside_tree h σ newTree componentNode (removeChildren host) Hw Hout)
    as [Hw1 Hp1].
  rewrite (run_bind _ _ _ _ _ (tagTree_run h fuel _ newTree (_generatedIdsCounter c) Hw1 Hf)).
  rewrite Hp1.
  set (σ2 := tagAll (preorder h σ newTree) (_generatedIdsCounter c)
               (<[componentNode := removeChildren host]> σ)).
  assert (∃ n, σ2 !! newTree = Some n) as [n Hn].
  { destruct h as [|h']; [contradiction|]. rewrite within_S in Hw1.
    pose proof (shape_tagAll (preorder (S h') σ newTree) (_generatedIdsCounter c)
                  (<[componentNode := removeChildren host]> σ) newTree) as Hs.
    fold σ2 in Hs.
    destruct (<[componentNode := removeChildren host]> σ !! newTree) as [m|];
      [|contradiction].
    destruct (σ2 !! newTree) as [n|]; [eauto|].
    destruct m; discriminate. }
  rewrite (run_bind _ _ _ _ _ (run_getNode σ2 newTree n Hn)).
  destruct fuel as [|fuel]; [destruct h; [contradiction|lia]|].
  destruct n as [e|v|v].
  - rewrite (run_bind _ _ _ _ _ (run_modifyNode σ2 newTree _ _ Hn)). reflexivity.
  - reflexivity.
  - reflexivity.
Qed.

Lemma first_render_replaces_the_host_witness :
  (_renderNewTree 3 Examples.app 0 1 hosting).1
  = Done ([ReplaceSubtree 0 1],
          mkComponent "app" [] (Some 1) (0 + length (preorder 3 hosting 1))).
Proof.
  apply (first_render_replaces_the_host 3 3 Examples.app hosting 0 1
           (Element (mkElement "DIV" [mkAttr "id" "app"] [5] None None))).
  - reflexivity.
  - reflexivity.
  - vm_compute. repeat (constructor; vm_compute).
  - apply (bool_decide_unpack _). vm_compute. exact I.
  - lia.
Defined.

End FirstRenderFacts.

(* ===================================================================== *)
(** ** Properties of [applyPatches] on child lists                      *)
(* ===================================================================== *)

Module PatchingFacts.
Import TreeComparator Tagging Patching.

Lemma alter_node (σ : store) (r : nid) n f : σ !! r = Some n → alter f r σ = <[r := f n]> σ.
Proof.
  intros H. rewrite <- (insert_id σ r n H) at 1. apply alter_insert_eq.
Qed.

(** **** Parents *)

Lemma parentNode_childOf (σ : store) (x p : nid) : childOf σ x p → parentNode σ x = Some p.
Proof.
  intros [(e & Hp & Hin) Huniq]. unfold parentNode.
  destruct (List.filter _ _) as [|[p' n'] rest] eqn:Hf.
  - exfalso.
    assert (In (p, Element e)
              (List.filter (λ pn : nid * Node, bool_decide (x ∈ childNodes pn.2))
                 (map_to_list σ))) as HIn.
    { apply filter_In. split.
      - apply list_elem_of_In, elem_of_map_to_list. exact Hp.
      - apply bool_decide_eq_true. exact Hin. }
    rewrite Hf in HIn. destruct HIn.
  - assert (In (p', n')
              (List.filter (λ pn : nid * Node, bool_decide (x ∈ childNodes pn.2))
                 (map_to_list σ))) as HIn by (rewrite Hf; left; reflexivity).
    apply filter_In in HIn as [HIn Hx].
    apply list_elem_of_In, elem_of_map_to_list in HIn.
    apply bool_decide_eq_true in Hx. cbn in Hx.
    cbn. f_equal. exact (Huniq p' n' HIn Hx).
Qed.

Lemma parentNode_orphan (σ : store) (x : nid) : orphan σ x → parentNode σ x = None.
Proof.
  intros Ho. unfold parentNode.
  destruct (List.filter _ _) as [|[p' n'] rest] eqn:Hf; [reflexivity|].
  exfalso.
  assert (In (p', n')
            (List.filter (λ pn : nid * Node, bool_decide (x ∈ childNodes pn.2))
               (map_to_list σ))) as HIn by (rewrite Hf; left; reflexivity).
  apply filter_In in HIn as [HIn Hx].
  apply list_elem_of_In, elem_of_map_to_list in HIn.
  apply bool_decide_eq_true in Hx. exact (Ho p' n' HIn Hx).
Qed.

Lemma detach_orphan (σ : store) (x : nid) : orphan σ x → detach x σ = σ.
Proof. intros Ho. unfold detach. rewrite (parentNode_orphan σ x Ho). reflexivity. Qed.

Lemma detach_childOf (σ : store) (x p : nid) e :
  childOf σ x p → σ !! p = Some (Element e) →
  detach x σ = <[p := Element (kids (without x (el_childNodes e)) e)]> σ.
Proof.
  intros Hc Hp. unfold detach. rewrite (parentNode_childOf σ x p Hc).
  rewrite (alter_node σ p _ _ Hp). reflexivity.
Qed.

(** Detaching a node that is not a child of [p] leaves [p] as it is. *)
Lemma detach_other (σ : store) (x p : nid) e :
  σ !! p = Some (Element e) → x ∉ el_childNodes e →
  orphan σ x ∨ (∃ q, childOf σ x q) →
  detach x σ !! p = Some (Element e).
Proof.
  intros Hp Hx [Ho | (q & Hq)].
  - rewrite (detach_orphan σ x Ho). exact Hp.
  - destruct Hq as [(eq & Hq & Hin) Hu].
    rewrite (detach_childOf σ x q eq (conj (ex_intro _ eq (conj Hq Hin)) Hu) Hq).
    destruct (decide (q = p)) as [->|Hne].
    + rewrite Hp in Hq. injection Hq as <-. contradiction.
    + rewrite lookup_insert_ne by exact Hne. exact Hp.
Qed.

(** **** Child lists *)

Lemma without_notin (x : nid) l : x ∉ l → without x l = l.
Proof.
  induction l as [|y l IH]; intros Hx; [reflexivity|].
  apply not_elem_of_cons in Hx as [Hne Hx]. unfold without. cbn.
  rewrite bool_decide_eq_false_2 by congruence. cbn. f_equal. exact (IH Hx).
Qed.

Lemma without_app (x : nid) l1 l2 : without x (l1 ++ l2) = without x l1 ++ without x l2.
Proof. unfold without. apply List.filter_app. Qed.

Lemma without_cons_eq (x : nid) l : without x (x :: l) = without x l.
Proof. unfold without. cbn. rewrite bool_decide_eq_true_2 by reflexivity. reflexivity. Qed.

Lemma without_cons_ne (x y : nid) l : y ≠ x → without x (y :: l) = y :: without x l.
Proof.
  intros Hne. unfold without. cbn. rewrite bool_decide_eq_false_2 by exact Hne. reflexivity.
Qed.

Lemma without_elem (x y : nid) l : y ∈ without x l ↔ y ∈ l ∧ y ≠ x.
Proof.
  unfold without. rewrite !list_elem_of_In, filter_In, negb_true_iff, bool_decide_eq_false.
  reflexivity.
Qed.

Lemma before_null (x : nid) l : before None x l = l ++ [x].
Proof. induction l as [|y l IH]; [reflexivity|]. cbn. rewrite IH. reflexivity. Qed.

Lemma before_here (r x : nid) l1 l2 :
  r ∉ l1 → before (Some r) x (l1 ++ r :: l2) = l1 ++ x :: r :: l2.
Proof.
  induction l1 as [|y l1 IH]; intros Hr.
  - cbn. rewrite bool_decide_eq_true_2 by reflexivity. reflexivity.
  - apply not_elem_of_cons in Hr as [Hne Hr]. cbn.
    rewrite bool_decide_eq_false_2 by congruence. rewrite (IH Hr). reflexivity.
Qed.

(** The child at a position of a list without repetition is found where
    it is. *)
Lemma before_position (x : nid) l n :
  NoDup l → before (l !! n) x l = take n l ++ x :: drop n l.
Proof.
  intros Hnd. destruct (l !! n) as [r|] eqn:Hl.
  - rewrite <- (take_drop_middle l n r Hl) at 1.
    rewrite before_here.
    + rewrite (drop_S l r n Hl). reflexivity.
    + intros Hin. apply list_elem_of_lookup in Hin as (i & Hi).
      pose proof (lookup_lt_Some _ _ _ Hi) as Hlt. rewrite length_take in Hlt.
      rewrite lookup_take_lt in Hi by lia.
      pose proof (NoDup_lookup l i n r Hnd Hi Hl). lia.
  - rewrite before_null. apply lookup_ge_None in Hl.
    rewrite take_ge, drop_ge by lia. reflexivity.
Qed.

Lemma nextSibling_elem (x r : nid) l : nextSibling x l = Some r → r ∈ l.
Proof.
  induction l as [|y l IH]; [discriminate|]. cbn.
  destruct (bool_decide (y = x)).
  - destruct l as [|z l]; [discriminate|]. cbn. intros [= ->].
    apply list_elem_of_further, list_elem_of_here.
  - intros H. apply list_elem_of_further, IH, H.
Qed.

Lemma substitute_notin (a b : nid) l : a ∉ l → substitute a b l = l.
Proof.
  induction l as [|y l IH]; intros Ha; [reflexivity|].
  apply not_elem_of_cons in Ha as [Hne Ha]. unfold substitute in *. cbn.
  rewrite bool_decide_eq_false_2 by congruence. f_equal. exact (IH Ha).
Qed.

(** The four steps of the DOM's "replace", on the child list. *)
Lemma replace_in_list (a b : nid) l :
  NoDup l → a ∈ l → before (nextSibling a l) b (without a l) = substitute a b l.
Proof.
  induction l as [|y l IH]; intros Hnd Ha; [inversion Ha|].
  apply NoDup_cons in Hnd as [Hy Hnd]. cbn [nextSibling].
  destruct (decide (y = a)) as [->|Hne].
  - rewrite bool_decide_eq_true_2 by reflexivity.
    rewrite without_cons_eq, (without_notin a l Hy).
    unfold substitute. cbn. rewrite bool_decide_eq_true_2 by reflexivity.
    fold (substitute a b l). rewrite (substitute_notin a b l Hy).
    destruct l as [|r l]; [reflexivity|]. cbn.
    rewrite bool_decide_eq_true_2 by reflexivity. reflexivity.
  - rewrite bool_decide_eq_false_2 by exact Hne.
    rewrite without_cons_ne by exact Hne.
    apply elem_of_cons in Ha as [Ha | Ha]; [congruence|].
    unfold substitute. cbn. rewrite (bool_decide_eq_false_2 (y = a)) by exact Hne.
    fold (substitute a b l). rewrite <- (IH Hnd Ha).
    rewrite bool_decide_eq_false_2; [reflexivity|].
    intros Heq. apply nextSibling_elem in Heq. contradiction.
Qed.

(** **** The tree below a node *)

Lemma preorder_update (σ : store) (y : nid) n h (x : nid) :
  is_Some (σ !! y) → y ∉ preorder h σ x → preorder h (<[y := n]> σ) x = preorder h σ x.
Proof.
  intros Hy. revert x. induction h as [|h IH]; intros x Hx; [reflexivity|].
  cbn [preorder] in *. destruct (decide (x = y)) as [->|Hne].
  - destruct Hy as [ny Hy]. rewrite Hy in Hx. exfalso. apply Hx.
    destruct ny; apply list_elem_of_here.
  - rewrite lookup_insert_ne by congruence.
    destruct (σ !! x) as [[e| |]|]; try reflexivity.
    f_equal. f_equal. apply Forall_fmap_ext_1, Forall_forall. intros c Hc.
    apply IH. intros Hin. apply Hx, list_elem_of_further, list_elem_of_In, in_concat.
    exists (preorder h σ c). split; [|apply list_elem_of_In, Hin].
    apply list_elem_of_In, list_elem_of_fmap. exists c. split; [reflexivity | exact Hc].
Qed.

Lemma preorder_created (σ : store) (t : nid) n h (x : nid) :
  orphan σ t → x ≠ t → preorder h (<[t := n]> σ) x = preorder h σ x.
Proof.
  intros Ho. revert x. induction h as [|h IH]; intros x Hx; [reflexivity|].
  cbn [preorder]. rewrite lookup_insert_ne by congruence.
  destruct (σ !! x) as [[e| |]|] eqn:Hnx; try reflexivity.
  f_equal. f_equal. apply Forall_fmap_ext_1, Forall_forall. intros c Hc.
  apply IH. intros ->. exact (Ho x (Element e) Hnx Hc).
Qed.

Lemma apart_update (σ : store) (x p y : nid) n :
  is_Some (σ !! y) → apart σ x y → apart σ x p → apart (<[y := n]> σ) x p.
Proof.
  intros Hy Hay Hap h. rewrite (preorder_update σ y n h x Hy (Hay h)). apply Hap.
Qed.

Lemma apart_created (σ : store) (x p t : nid) n :
  orphan σ t → x ≠ t → apart σ x p → apart (<[t := n]> σ) x p.
Proof.
  intros Ho Hne Hap h. rewrite (preorder_created σ t n h x Ho Hne). apply Hap.
Qed.

Lemma apart_not_ancestor (σ : store) (x p : nid) :
  apart σ x p → inclusiveAncestor σ x p = false.
Proof. intros H. unfold inclusiveAncestor. apply bool_decide_eq_false, H. Qed.

(** **** Single operations *)

Lemma kids_kids l l' e : kids l (kids l' e) = kids l e.
Proof. reflexivity. Qed.

(** A node from elsewhere is put into the child list of [p]. *)
Lemma insertBefore_run (σ : store) (p x : nid) reference ep :
  σ !! p = Some (Element ep) → x ∉ el_childNodes ep →
  orphan σ x ∨ (∃ q, childOf σ x q) → apart σ x p →
  (∀ r, reference = Some r → r ∈ el_childNodes ep) →
  insertBefore p x reference σ
  = (None, <[p := Element (kids (before reference x (el_childNodes ep)) ep)]> (detach x σ)).
Proof.
  intros Hp Hx Hfrom Hap Href. unfold insertBefore. rewrite Hp.
  rewrite (apart_not_ancestor σ x p Hap).
  assert (match reference with
          | Some r => negb (bool_decide (r ∈ el_childNodes ep))
          | None => false
          end = false) as ->.
  { destruct reference as [r|]; [|reflexivity].
    rewrite bool_decide_eq_true_2 by (apply Href; reflexivity). reflexivity. }
  rewrite (bool_decide_eq_false_2 (reference = Some x))
    by (intros Heq; apply Hx, Href, Heq).
  rewrite (alter_node _ p _ _ (detach_other σ x p ep Hp Hx Hfrom)). reflexivity.
Qed.

(** A child of [p] is put before another child of [p]. *)
Lemma insertBefore_sibling (σ : store) (p x r : nid) ep :
  σ !! p = Some (Element ep) → childOf σ x p → apart σ x p →
  r ∈ el_childNodes ep → r ≠ x →
  insertBefore p x (Some r) σ
  = (None, <[p := Element (kids (before (Some r) x (without x (el_childNodes ep))) ep)]> σ).
Proof.
  intros Hp Hc Hap Hr Hne. unfold insertBefore. rewrite Hp.
  rewrite (apart_not_ancestor σ x p Hap).
  rewrite (bool_decide_eq_true_2 _ Hr). cbn [negb].
  rewrite (bool_decide_eq_false_2 (Some r = Some x)) by congruence.
  rewrite (detach_childOf σ x p ep Hc Hp).
  rewrite (alter_node _ p _ _ (lookup_insert_eq σ p _)).
  rewrite insert_insert_eq. reflexivity.
Qed.

Lemma removeFromParent_run (σ : store) (p x : nid) ep :
  σ !! p = Some (Element ep) → childOf σ x p →
  removeFromParent x σ = (None, <[p := Element (kids (without x (el_childNodes ep)) ep)]> σ).
Proof.
  intros Hp Hc. unfold removeFromParent. rewrite (parentNode_childOf σ x p Hc).
  rewrite (detach_childOf σ x p ep Hc Hp). reflexivity.
Qed.

(** **** Child lists and parents after an update of [p] *)

Lemma childOf_update (σ : store) (x p : nid) l e :
  childOf σ x p → x ∈ l → childOf (<[p := Element (kids l e)]> σ) x p.
Proof.
  intros [_ Hu] Hx. split.
  - exists (kids l e). rewrite lookup_insert_eq. split; [reflexivity | exact Hx].
  - intros p' n' Hp' Hin. destruct (decide (p' = p)) as [->|Hne]; [reflexivity|].
    rewrite lookup_insert_ne in Hp' by congruence. exact (Hu p' n' Hp' Hin).
Qed.

Lemma orphan_adopted (σ : store) (x p : nid) l e :
  orphan σ x → x ∈ l → childOf (<[p := Element (kids l e)]> σ) x p.
Proof.
  intros Ho Hx. split.
  - exists (kids l e). rewrite lookup_insert_eq. split; [reflexivity | exact Hx].
  - intros p' n' Hp' Hin. destruct (decide (p' = p)) as [->|Hne]; [reflexivity|].
    rewrite lookup_insert_ne in Hp' by congruence. destruct (Ho p' n' Hp' Hin).
Qed.

Lemma childOf_elsewhere (σ : store) (x p q : nid) l e :
  childOf σ x q → q ≠ p → x ∉ l → childOf (<[p := Element (kids l e)]> σ) x q.
Proof.
  intros [(eq & Hq & Hin) Hu] Hne Hx. split.
  - exists eq. rewrite lookup_insert_ne by congruence. split; assumption.
  - intros p' n' Hp' Hin'. destruct (decide (p' = p)) as [->|Hne'].
    + rewrite lookup_insert_eq in Hp'. injection Hp' as <-. contradiction.
    + rewrite lookup_insert_ne in Hp' by congruence. exact (Hu p' n' Hp' Hin').
Qed.

Lemma orphan_update (σ : store) (x p : nid) l e :
  orphan σ x → x ∉ l → orphan (<[p := Element (kids l e)]> σ) x.
Proof.
  intros Ho Hx p' n' Hp'. destruct (decide (p' = p)) as [->|Hne].
  - rewrite lookup_insert_eq in Hp'. injection Hp' as <-. exact Hx.
  - rewrite lookup_insert_ne in Hp' by congruence. exact (Ho p' n' Hp').
Qed.

Lemma childOf_parent (σ : store) (x p : nid) e :
  childOf σ x p → σ !! p = Some (Element e) → x ∈ el_childNodes e.
Proof. intros [(e' & Hp' & Hin) _] Hp. rewrite Hp in Hp'. injection Hp' as <-. exact Hin. Qed.

Lemma childOf_created (σ : store) (x p t : nid) tag :
  childOf σ x p → p ≠ t →
  childOf (<[t := Element (mkElement tag [] [] None None)]> σ) x p.
Proof.
  intros [(e & Hp & Hin) Hu] Hne. split.
  - exists e. rewrite lookup_insert_ne by congruence. split; assumption.
  - intros p' n' Hp' Hin'. destruct (decide (p' = t)) as [->|Hne'].
    + rewrite lookup_insert_eq in Hp'. injection Hp' as <-. cbn in Hin'. inversion Hin'.
    + rewrite lookup_insert_ne in Hp' by congruence. exact (Hu p' n' Hp' Hin').
Qed.

Lemma orphan_created (σ : store) (t : nid) tag :
  orphan σ t → orphan (<[t := Element (mkElement tag [] [] None None)]> σ) t.
Proof.
  intros Ho p' n' Hp'. destruct (decide (p' = t)) as [->|Hne].
  - rewrite lookup_insert_eq in Hp'. injection Hp' as <-. cbn. intros Hin. inversion Hin.
  - rewrite lookup_insert_ne in Hp' by congruence. exact (Ho p' n' Hp').
Qed.

Lemma apart_leaf (σ : store) (t p : nid) tag :
  p ≠ t → apart (<[t := Element (mkElement tag [] [] None None)]> σ) t p.
Proof.
  intros Hne [|h]; cbn [preorder]; [apply not_elem_of_nil|].
  rewrite lookup_insert_eq. cbn. intros Hin.
  apply list_elem_of_singleton in Hin. contradiction.
Qed.

Lemma before_elem (reference : option nid) (x y : nid) l :
  y ∈ before reference x l ↔ y = x ∨ y ∈ l.
Proof.
  induction l as [|z l IH]; cbn.
  - rewrite list_elem_of_singleton. split; [intros ->; left; reflexivity|].
    intros [-> | H]; [reflexivity | inversion H].
  - destruct (bool_decide (reference = Some z)).
    + rewrite elem_of_cons. reflexivity.
    + rewrite !elem_of_cons, IH. tauto.
Qed.

Lemma exchange_notin (a b : nid) l : a ∉ l → b ∉ l → exchange a b l = l.
Proof.
  induction l as [|y l IH]; intros Ha Hb; [reflexivity|].
  apply not_elem_of_cons in Ha as [Hna Ha]. apply not_elem_of_cons in Hb as [Hnb Hb].
  unfold exchange in *. cbn.
  rewrite !bool_decide_eq_false_2 by congruence. f_equal. exact (IH Ha Hb).
Qed.

Lemma exchange_app (a b : nid) l1 l2 :
  exchange a b (l1 ++ l2) = exchange a b l1 ++ exchange a b l2.
Proof. unfold exchange. apply fmap_app. Qed.

Lemma exchange_first (a b : nid) l : exchange a b (a :: l) = b :: exchange a b l.
Proof. unfold exchange. cbn. rewrite bool_decide_eq_true_2 by reflexivity. reflexivity. Qed.

Lemma exchange_second (a b : nid) l : a ≠ b → exchange a b (b :: l) = a :: exchange a b l.
Proof.
  intros Hne. unfold exchange. cbn. rewrite bool_decide_eq_false_2 by congruence.
  rewrite bool_decide_eq_true_2 by reflexivity. reflexivity.
Qed.

(** The four statements of [_swapElements], on a child list in which
    [a] comes before [b]. *)
Lemma swap_in_order (a b t : nid) l1 l2 l3 :
  NoDup (l1 ++ a :: l2 ++ b :: l3) → t ∉ l1 ++ a :: l2 ++ b :: l3 →
  let l := l1 ++ a :: l2 ++ b :: l3 in
  without t (before (Some t) b (without b (before (Some b) a
     (without a (before (Some a) t l)))))
  = l1 ++ b :: l2 ++ a :: l3.
Proof.
  intros Hnd Ht l. subst l.
  apply NoDup_app in Hnd as (N1 & N12 & Hnd).
  apply NoDup_cons in Hnd as (Na & Hnd).
  apply NoDup_app in Hnd as (N2 & N23 & Hnd).
  apply NoDup_cons in Hnd as (Nb & N3).
  assert (a ∉ l1) as A1 by (intros H; apply (N12 a H), list_elem_of_here).
  assert (b ∉ l1) as B1.
  { intros H. apply (N12 b H), list_elem_of_further, elem_of_app. right.
    apply list_elem_of_here. }
  assert (a ∉ l2) as A2 by (intros H; apply Na, elem_of_app; left; exact H).
  assert (a ≠ b) as Hab.
  { intros ->. apply Na, elem_of_app. right. apply list_elem_of_here. }
  assert (a ∉ l3) as A3.
  { intros H. apply Na, elem_of_app. right. apply list_elem_of_further, H. }
  assert (b ∉ l2) as B2 by (intros H; apply (N23 b H), list_elem_of_here).
  apply not_elem_of_app in Ht as [T1 Ht]. apply not_elem_of_cons in Ht as [Hta Ht].
  apply not_elem_of_app in Ht as [T2 Ht]. apply not_elem_of_cons in Ht as [Htb T3].
  rewrite (before_here a t l1 _ A1).
  rewrite without_app, (without_notin a l1 A1), (without_cons_ne a t) by congruence.
  rewrite without_cons_eq, without_app, (without_notin a l2 A2),
    (without_cons_ne a b) by congruence.
  rewrite (without_notin a l3 A3).
  replace (l1 ++ t :: l2 ++ b :: l3) with ((l1 ++ t :: l2) ++ b :: l3)
    by (rewrite <- app_assoc; reflexivity).
  rewrite before_here.
  2:{ rewrite not_elem_of_app, not_elem_of_cons. repeat split; [exact B1 | congruence | exact B2]. }
  rewrite <- app_assoc. cbn [app].
  rewrite without_app, (without_notin b l1 B1), (without_cons_ne b t) by congruence.
  rewrite without_app, (without_notin b l2 B2), (without_cons_ne b a) by congruence.
  rewrite without_cons_eq, (without_notin b l3 Nb).
  rewrite (before_here t b l1 _ T1).
  rewrite without_app, (without_notin t l1 T1), (without_cons_ne t b) by congruence.
  rewrite without_cons_eq, without_app, (without_notin t l2 T2),
    (without_cons_ne t a) by congruence.
  rewrite (without_notin t l3 T3). reflexivity.
Qed.

(** The same on a child list in which [b] comes before [a]. *)
Lemma swap_out_of_order (a b t : nid) l1 l2 l3 :
  NoDup (l1 ++ b :: l2 ++ a :: l3) → t ∉ l1 ++ b :: l2 ++ a :: l3 →
  let l := l1 ++ b :: l2 ++ a :: l3 in
  without t (before (Some t) b (without b (before (Some b) a
     (without a (before (Some a) t l)))))
  = l1 ++ a :: l2 ++ b :: l3.
Proof.
  intros Hnd Ht l. subst l.
  apply NoDup_app in Hnd as (N1 & N12 & Hnd).
  apply NoDup_cons in Hnd as (Nb & Hnd).
  apply NoDup_app in Hnd as (N2 & N23 & Hnd).
  apply NoDup_cons in Hnd as (Na & N3).
  assert (b ∉ l1) as B1 by (intros H; apply (N12 b H), list_elem_of_here).
  assert (a ∉ l1) as A1.
  { intros H. apply (N12 a H), list_elem_of_further, elem_of_app. right.
    apply list_elem_of_here. }
  assert (b ∉ l2) as B2 by (intros H; apply Nb, elem_of_app; left; exact H).
  assert (a ≠ b) as Hab.
  { intros ->. apply Nb, elem_of_app. right. apply list_elem_of_here. }
  assert (b ∉ l3) as B3.
  { intros H. apply Nb, elem_of_app. right. apply list_elem_of_further, H. }
  assert (a ∉ l2) as A2 by (intros H; apply (N23 a H), list_elem_of_here).
  apply not_elem_of_app in Ht as [T1 Ht]. apply not_elem_of_cons in Ht as [Htb Ht].
  apply not_elem_of_app in Ht as [T2 Ht]. apply not_elem_of_cons in Ht as [Hta T3].
  replace (l1 ++ b :: l2 ++ a :: l3) with ((l1 ++ b :: l2) ++ a :: l3)
    by (rewrite <- app_assoc; reflexivity).
  rewrite before_here.
  2:{ rewrite not_elem_of_app, not_elem_of_cons. repeat split; [exact A1 | congruence | exact A2]. }
  rewrite <- app_assoc. cbn [app].
  rewrite without_app, (without_notin a l1 A1), (without_cons_ne a b) by congruence.
  rewrite without_app, (without_notin a l2 A2), (without_cons_ne a t) by congruence.
  rewrite without_cons_eq, (without_notin a l3 Na).
  rewrite (before_here b a l1 _ B1).
  rewrite without_app, (without_notin b l1 B1), (without_cons_ne b a) by congruence.
  rewrite without_cons_eq, without_app, (without_notin b l2 B2),
    (without_cons_ne b t) by congruence.
  rewrite (without_notin b l3 B3).
  replace (l1 ++ a :: l2 ++ t :: l3) with ((l1 ++ a :: l2) ++ t :: l3)
    by (rewrite <- app_assoc; reflexivity).
  rewrite before_here.
  2:{ rewrite not_elem_of_app, not_elem_of_cons. repeat split; [exact T1 | congruence | exact T2]. }
  rewrite <- app_assoc. cbn [app].
  rewrite without_app, (without_notin t l1 T1), (without_cons_ne t a) by congruence.
  rewrite without_app, (without_notin t l2 T2), (without_cons_ne t b) by congruence.
  rewrite without_cons_eq, (without_notin t l3 T3). reflexivity.
Qed.

Lemma swap_in_list (a b t : nid) l :
  NoDup l → a ∈ l → b ∈ l → a ≠ b → t ∉ l →
  without t (before (Some t) b (without b (before (Some b) a
     (without a (before (Some a) t l)))))
  = exchange a b l.
Proof.
  intros Hnd Ha Hb Hab Ht.
  apply list_elem_of_split in Ha as (l1 & r & ->).
  apply elem_of_app in Hb as [Hb | Hb].
  - apply list_elem_of_split in Hb as (l0 & l2 & ->).
    rewrite <- app_assoc in Hnd, Ht |- *. cbn [app] in Hnd, Ht |- *.
    rewrite (swap_out_of_order a b t l0 l2 r Hnd Ht).
    pose proof Hnd as Hnd'.
    apply NoDup_app in Hnd' as (N1 & N12 & Hnd').
    apply NoDup_cons in Hnd' as (Nb & Hnd').
    apply NoDup_app in Hnd' as (N2 & N23 & Hnd').
    apply NoDup_cons in Hnd' as (Na & N3).
    rewrite exchange_app, exchange_second, exchange_app, exchange_first by exact Hab.
    rewrite !exchange_notin; try reflexivity; try assumption.
    + intros H. apply Nb, elem_of_app. right. apply list_elem_of_further, H.
    + intros H. apply (N23 a H), list_elem_of_here.
    + intros H. apply Nb, elem_of_app. left. exact H.
    + intros H. apply (N12 a H), list_elem_of_further, elem_of_app. right.
      apply list_elem_of_here.
    + intros H. apply (N12 b H), list_elem_of_here.
  - apply elem_of_cons in Hb as [Hb | Hb]; [congruence|].
    apply list_elem_of_split in Hb as (l2 & l3 & ->).
    rewrite (swap_in_order a b t l1 l2 l3 Hnd Ht).
    pose proof Hnd as Hnd'.
    apply NoDup_app in Hnd' as (N1 & N12 & Hnd').
    apply NoDup_cons in Hnd' as (Na & Hnd').
    apply NoDup_app in Hnd' as (N2 & N23 & Hnd').
    apply NoDup_cons in Hnd' as (Nb & N3).
    rewrite exchange_app, exchange_first, exchange_app, exchange_second by exact Hab.
    rewrite !exchange_notin; try reflexivity; try assumption.
    + intros H. apply Na, elem_of_app. right. apply list_elem_of_further, H.
    + intros H. apply Na, elem_of_app. left. exact H.
    + intros H. apply (N23 b H), list_elem_of_here.
    + intros H. apply (N12 a H), list_elem_of_here.
    + intros H. apply (N12 b H), list_elem_of_further, elem_of_app. right.
      apply list_elem_of_here.
Qed.

(** ['insert-node'] on an element [p] whose child list has no
    repetition, with a node [x] that is not a child of [p] (it has no
    parent, or one parent elsewhere) and is not above [p], and a
    position that is not negative: the patch throws nothing; [x] stands
    at [beforePos] in the child list of [p] and the children from that
    position on come after it, in their order; past the end of the list
    [x] is appended, as it is to an empty list. A node that had a parent
    has left it. *)
Theorem insert_node_patch_places_the_node (σ : store) (p x : nid) (ep : ElementData)
    (beforePos : Z) (skipAttributes : option (list string)) :
  σ !! p = Some (Element ep) → NoDup (el_childNodes ep) → x ∉ el_childNodes ep →
  orphan σ x ∨ (∃ q, childOf σ x q) → apart σ x p → (0 ≤ beforePos)%Z →
  applyPatches skipAttributes [InsertNode p x beforePos] σ
  = (None, <[p := Element (kids (take (Z.to_nat beforePos) (el_childNodes ep)
                                  ++ x :: drop (Z.to_nat beforePos) (el_childNodes ep)) ep)]>
             (detach x σ)).
Proof.
  intros Hp Hnd Hx Hfrom Hap Hpos.
  cbn [applyPatches applyPatch]. unfold andThen. rewrite Hp. cbn [childNodes].
  destruct (length (el_childNodes ep) =? 0) eqn:Hlen.
  - apply Nat.eqb_eq, nil_length_inv in Hlen. unfold appendChild.
    rewrite (insertBefore_run σ p x None ep Hp Hx Hfrom Hap) by discriminate.
    rewrite Hlen, take_nil, drop_nil. reflexivity.
  - rewrite (proj2 (Z.ltb_ge beforePos 0) Hpos).
    rewrite (insertBefore_run σ p x _ ep Hp Hx Hfrom Hap).
    + rewrite (before_position x _ _ Hnd). reflexivity.
    + intros r Hr. apply list_elem_of_lookup. eexists. exact Hr.
Qed.

Lemma insert_node_patch_places_the_node_witness :
  applyPatches None [InsertNode 0 11 1%Z] lists
  = (None, <[0 := Element (kids [1; 11; 2; 3] (mkElement "UL" [] [1; 2; 3] None None))]>
             (detach 11 lists)).
Proof.
  apply (insert_node_patch_places_the_node lists 0 11
           (mkElement "UL" [] [1; 2; 3] None None) 1%Z None).
  - reflexivity.
  - apply (bool_decide_unpack _). vm_compute. exact I.
  - apply (bool_decide_unpack _). vm_compute. exact I.
  - right. exists 10. split.
    + eexists. split; [reflexivity|]. apply (bool_decide_unpack _). vm_compute. exact I.
    + apply (bool_decide_unpack _). vm_compute. exact I.
  - intros [|h]; apply (bool_decide_unpack _); vm_compute; exact I.
  - lia.
Defined.

(** The default case of [applyPatches], a subtree that is replaced: for
    a child [a] of [p] and a node [b] that is not a child of [p] and not
    above [p], the patch throws nothing; [b] takes the place of [a] in
    the child list of [p], the other children stay where they are, and
    [a] is in no child list afterwards. A node [b] that had a parent
    has left it. *)
Theorem replace_patch_puts_the_node_in_place (σ : store) (p a b : nid) (ep : ElementData)
    (skipAttributes : option (list string)) :
  σ !! p = Some (Element ep) → NoDup (el_childNodes ep) → childOf σ a p →
  b ∉ el_childNodes ep → orphan σ b ∨ (∃ q, childOf σ b q) → apart σ b p →
  applyPatches skipAttributes [ReplaceSubtree a b] σ
  = (None, <[p := Element (kids (substitute a b (el_childNodes ep)) ep)]> (detach b σ)).
Proof.
  intros Hp Hnd Ha Hb Hfrom Hap.
  pose proof (childOf_parent σ a p ep Ha Hp) as Hain.
  cbn [applyPatches applyPatch]. unfold andThen, replaceInParent.
  rewrite (parentNode_childOf σ a p Ha), Hp, (apart_not_ancestor σ b p Hap).
  rewrite (bool_decide_eq_false_2 (nextSibling a (el_childNodes ep) = Some b))
    by (intros Heq; apply Hb, (nextSibling_elem a b _ Heq)).
  rewrite (detach_childOf σ a p ep Ha Hp).
  assert (b ∉ without a (el_childNodes ep)) as Hb'
    by (intros Hin; apply without_elem in Hin as [Hin _]; contradiction).
  destruct Hfrom as [Ho | (q & Hq)].
  - rewrite (detach_orphan _ b (orphan_update σ b p _ ep Ho Hb')).
    rewrite (alter_node _ p _ _ (lookup_insert_eq σ p _)), insert_insert_eq.
    rewrite (detach_orphan σ b Ho). cbn [withChildren el_childNodes kids].
    rewrite (replace_in_list a b _ Hnd Hain). reflexivity.
  - assert (q ≠ p) as Hne.
    { intros ->. apply Hb, (childOf_parent σ b p ep Hq Hp). }
    pose proof Hq as [(eq & Hq' & _) _].
    rewrite (detach_childOf _ b q eq (childOf_elsewhere σ b p q _ ep Hq Hne Hb'))
      by (rewrite lookup_insert_ne by congruence; exact Hq').
    rewrite (alter_node _ p (Element (kids (without a (el_childNodes ep)) ep)))
      by (rewrite lookup_insert_ne by congruence; apply lookup_insert_eq).
    rewrite (insert_insert_ne _ q p) by exact Hne.
    rewrite insert_insert_eq. rewrite (detach_childOf σ b q eq Hq Hq').
    cbn [withChildren el_childNodes kids].
    rewrite (replace_in_list a b _ Hnd Hain). reflexivity.
Qed.

Lemma replace_patch_puts_the_node_in_place_witness :
  applyPatches None [ReplaceSubtree 2 11] lists
  = (None, <[0 := Element (kids [1; 11; 3] (mkElement "UL" [] [1; 2; 3] None None))]>
             (detach 11 lists)).
Proof.
  apply (replace_patch_puts_the_node_in_place lists 0 2 11
           (mkElement "UL" [] [1; 2; 3] None None) None).
  - reflexivity.
  - apply (bool_decide_unpack _). vm_compute. exact I.
  - split.
    + eexists. split; [reflexivity|]. apply (bool_decide_unpack _). vm_compute. exact I.
    + apply (bool_decide_unpack _). vm_compute. exact I.
  - apply (bool_decide_unpack _). vm_compute. exact I.
  - right. exists 10. split.
    + eexists. split; [reflexivity|]. apply (bool_decide_unpack _). vm_compute. exact I.
    + apply (bool_decide_unpack _). vm_compute. exact I.
  - intros [|h]; apply (bool_decide_unpack _); vm_compute; exact I.
Defined.

(** A child of [p], or a node in no child list, is a child of [p] once it
    is in the list [p] is given. *)
Lemma child_after_update (σ : store) (x p : nid) l e :
  childOf σ x p ∨ orphan σ x → x ∈ l → childOf (<[p := Element (kids l e)]> σ) x p.
Proof.
  intros [Hc | Ho] Hx; [apply childOf_update | apply orphan_adopted]; assumption.
Qed.

Lemma insertBeforeInParent_sibling (σ : store) (p x y : nid) l ep :
  σ !! p = Some (Element ep) →
  childOf (<[p := Element (kids l ep)]> σ) x p →
  childOf (<[p := Element (kids l ep)]> σ) y p →
  apart (<[p := Element (kids l ep)]> σ) y p → x ≠ y →
  insertBeforeInParent x y (<[p := Element (kids l ep)]> σ)
  = (None, <[p := Element (kids (before (Some x) y (without y l)) ep)]> σ).
Proof.
  intros Hp Hx Hy Hap Hne. unfold insertBeforeInParent.
  rewrite (parentNode_childOf _ x p Hx).
  rewrite (insertBefore_sibling _ p y x (kids l ep) (lookup_insert_eq σ p _) Hy Hap).
  - rewrite insert_insert_eq. reflexivity.
  - exact (childOf_parent _ x p (kids l ep) Hx (lookup_insert_eq σ p _)).
  - exact Hne.
Qed.

(** ['swap-nodes']: for two different children [a] and [b] of one
    element [p], whichever comes first, [_swapElements] throws nothing,
    exchanges the two in the child list of [p] and leaves the other
    children where they are; the [<div>] it creates as a place holder is
    in no child list afterwards. *)
Theorem swap_nodes_patch_exchanges_two_children (σ : store) (p a b : nid)
    (ep : ElementData) (skipAttributes : option (list string)) :
  σ !! p = Some (Element ep) → NoDup (el_childNodes ep) →
  childOf σ a p → childOf σ b p → a ≠ b → apart σ a p → apart σ b p →
  orphan σ (fresh (dom σ)) →
  applyPatches skipAttributes [SwapNodes a (Some b)] σ
  = (None, <[p := Element (kids (exchange a b (el_childNodes ep)) ep)]>
             (<[fresh (dom σ) := Element (mkElement "DIV" [] [] None None)]> σ)).
Proof.
  intros Hp Hnd Ha Hb Hab Hapa Hapb Ho.
  set (t := fresh (dom σ)) in *. set (l := el_childNodes ep) in *.
  assert (σ !! t = None) as Ht by (apply not_elem_of_dom_1, is_fresh).
  assert (p ≠ t) as Hpt by (intros ->; congruence).
  pose proof (childOf_parent σ a p ep Ha Hp) as Hain.
  pose proof (childOf_parent σ b p ep Hb Hp) as Hbin.
  assert (t ∉ l) as Htl by exact (Ho p (Element ep) Hp).
  assert (a ≠ t) as Hat by (intros ->; contradiction).
  assert (b ≠ t) as Hbt by (intros ->; contradiction).
  cbn [applyPatches applyPatch]. unfold andThen at 1, _swapElements, createElement.
  fold t. set (σ1 := <[t := Element (mkElement "DIV" [] [] None None)]> σ).
  assert (σ1 !! p = Some (Element ep)) as Hp1
    by (unfold σ1; rewrite lookup_insert_ne by congruence; exact Hp).
  assert (childOf σ1 a p) as Ha1 by (apply childOf_created; assumption).
  assert (childOf σ1 b p) as Hb1 by (apply childOf_created; assumption).
  assert (orphan σ1 t) as Ht1 by (apply orphan_created; assumption).
  assert (apart σ1 a p) as Hapa1 by (apply apart_created; assumption).
  assert (apart σ1 b p) as Hapb1 by (apply apart_created; assumption).
  assert (apart σ1 t p) as Hapt1 by (apply apart_leaf; exact Hpt).
  assert (∀ x l', apart σ1 x p → apart (<[p := Element (kids l' ep)]> σ1) x p) as Hkeep.
  { intros x l' H. apply apart_update; [eexists; exact Hp1 | exact H | exact H]. }
  (* obj1.parentNode.insertBefore(temp, obj1) *)
  unfold andThen at 1. unfold insertBeforeInParent at 1.
  rewrite (parentNode_childOf σ1 a p Ha1).
  rewrite (insertBefore_run σ1 p t (Some a) ep Hp1 Htl (or_introl Ht1) Hapt1)
    by (intros r [= <-]; exact Hain).
  rewrite (detach_orphan σ1 t Ht1). fold l.
  set (l1 := before (Some a) t l).
  assert (a ∈ l1) as Ha_l1 by (apply before_elem; right; exact Hain).
  assert (b ∈ l1) as Hb_l1 by (apply before_elem; right; exact Hbin).
  (* obj2.parentNode.insertBefore(obj1, obj2) *)
  unfold andThen at 1.
  rewrite (insertBeforeInParent_sibling σ1 p b a l1 ep Hp1); try congruence.
  2:{ apply child_after_update; [left; exact Hb1 | exact Hb_l1]. }
  2:{ apply child_after_update; [left; exact Ha1 | exact Ha_l1]. }
  2:{ apply Hkeep, Hapa1. }
  set (l2 := before (Some b) a (without a l1)).
  assert (t ∈ l2) as Ht_l2.
  { apply before_elem. right. apply without_elem. split; [|congruence].
    apply before_elem. left. reflexivity. }
  assert (b ∈ l2) as Hb_l2.
  { apply before_elem. right. apply without_elem. split; [exact Hb_l1 | congruence]. }
  (* temp.parentNode.insertBefore(obj2, temp) *)
  unfold andThen at 1.
  rewrite (insertBeforeInParent_sibling σ1 p t b l2 ep Hp1); try congruence.
  2:{ apply child_after_update; [right; exact Ht1 | exact Ht_l2]. }
  2:{ apply child_after_update; [left; exact Hb1 | exact Hb_l2]. }
  2:{ apply Hkeep, Hapb1. }
  set (l3 := before (Some t) b (without b l2)).
  assert (t ∈ l3) as Ht_l3.
  { apply before_elem. right. apply without_elem. split; [exact Ht_l2 | congruence]. }
  (* temp.parentNode.removeChild(temp) *)
  rewrite (removeFromParent_run _ p t (kids l3 ep) (lookup_insert_eq σ1 p _))
    by (apply child_after_update; [right; exact Ht1 | exact Ht_l3]).
  rewrite insert_insert_eq. cbn [el_childNodes kids].
  unfold l3, l2, l1. rewrite (swap_in_list a b t l Hnd Hain Hbin Hab Htl). reflexivity.
Qed.

Lemma swap_nodes_patch_exchanges_two_children_witness :
  applyPatches None [SwapNodes 1 (Some 3)] lists
  = (None, <[0 := Element (kids (exchange 1 3 [1; 2; 3])
                             (mkElement "UL" [] [1; 2; 3] None None))]>
             (<[fresh (dom lists) := Element (mkElement "DIV" [] [] None None)]> lists)).
Proof.
  apply (swap_nodes_patch_exchanges_two_children lists 0 1 3
           (mkElement "UL" [] [1; 2; 3] None None) None).
  - reflexivity.
  - apply (bool_decide_unpack _). vm_compute. exact I.
  - split.
    + eexists. split; [reflexivity|]. apply (bool_decide_unpack _). vm_compute. exact I.
    + apply (bool_decide_unpack _). vm_compute. exact I.
  - split.
    + eexists. split; [reflexivity|]. apply (bool_decide_unpack _). vm_compute. exact I.
    + apply (bool_decide_unpack _). vm_compute. exact I.
  - discriminate.
  - intros [|h]; apply (bool_decide_unpack _); vm_compute; exact I.
  - intros [|h]; apply (bool_decide_unpack _); vm_compute; exact I.
  - apply (bool_decide_unpack _). vm_compute. exact I.
Defined.

(** **** Lists of patches *)

Lemma withoutAll_elem (xs : list nid) (y : nid) l : y ∈ withoutAll xs l ↔ y ∈ l ∧ y ∉ xs.
Proof.
  revert l. induction xs as [|x xs IH]; intros l; cbn.
  - split; [intros H; split; [exact H | apply not_elem_of_nil] | intros [H _]; exact H].
  - fold (withoutAll xs (without x l)). rewrite IH, without_elem, not_elem_of_cons. tauto.
Qed.

Lemma withoutAll_self (l : list nid) : withoutAll l l = [].
Proof.
  destruct (withoutAll l l) as [|y r] eqn:H; [reflexivity|].
  assert (y ∈ withoutAll l l) as Hy by (rewrite H; apply list_elem_of_here).
  apply withoutAll_elem in Hy as [Hin Hout]. contradiction.
Qed.

Lemma kids_same (e : ElementData) : kids (el_childNodes e) e = e.
Proof. destruct e; reflexivity. Qed.

(** ['remove-node'] patches for children of [p]. *)
Lemma removes_run (skipAttributes : option (list string)) (p : nid) rs :
  ∀ (σ : store) ep,
    σ !! p = Some (Element ep) → NoDup rs → (∀ r, r ∈ rs → childOf σ r p) →
    applyPatches skipAttributes (RemoveNode <$> rs) σ
    = (None, <[p := Element (kids (withoutAll rs (el_childNodes ep)) ep)]> σ).
Proof.
  induction rs as [|r rs IH]; intros σ ep Hp Hnd Hc.
  - cbn. rewrite kids_same, (insert_id σ p _ Hp). reflexivity.
  - apply NoDup_cons in Hnd as [Hr Hnd].
    cbn [fmap list_fmap applyPatches applyPatch]. unfold andThen.
    rewrite (removeFromParent_run σ p r ep Hp (Hc r (list_elem_of_here _ _))).
    rewrite (IH _ (kids (without r (el_childNodes ep)) ep) (lookup_insert_eq σ p _) Hnd).
    + rewrite insert_insert_eq. reflexivity.
    + intros r' Hr'. apply childOf_update.
      * apply Hc, list_elem_of_further, Hr'.
      * apply without_elem. split.
        -- apply (childOf_parent σ r' p ep); [|exact Hp].
           apply Hc, list_elem_of_further, Hr'.
        -- intros ->. contradiction.
Qed.

(** ['append-child'] patches that move children of [q] to [p]. *)
Lemma appends_run (skipAttributes : option (list string)) (p q : nid) cs :
  p ≠ q →
  ∀ (σ : store) ep eq,
    σ !! p = Some (Element ep) → σ !! q = Some (Element eq) → NoDup cs →
    (∀ c, c ∈ cs → childOf σ c q ∧ apart σ c p ∧ apart σ c q) →
    applyPatches skipAttributes (AppendChild p <$> cs) σ
    = (None, <[p := Element (kids (el_childNodes ep ++ cs) ep)]>
               (<[q := Element (kids (withoutAll cs (el_childNodes eq)) eq)]> σ)).
Proof.
  intros Hpq. induction cs as [|c cs IH]; intros σ ep eq Hp Hq Hnd Hc.
  - cbn. rewrite app_nil_r, !kids_same, (insert_id σ q _ Hq), (insert_id σ p _ Hp).
    reflexivity.
  - apply NoDup_cons in Hnd as [Hcc Hnd].
    destruct (Hc c (list_elem_of_here _ _)) as (Hcq & Hcp & _).
    assert (∀ x, childOf σ x q → x ∉ el_childNodes ep) as Hnot.
    { intros x [_ Hu] Hin. apply Hpq. exact (Hu p (Element ep) Hp Hin). }
    cbn [fmap list_fmap applyPatches applyPatch]. unfold andThen, appendChild.
    rewrite (insertBefore_run σ p c None ep Hp (Hnot c Hcq)
               (or_intror (ex_intro _ q Hcq)) Hcp) by discriminate.
    rewrite before_null, (detach_childOf σ c q eq Hcq Hq).
    set (σq := <[q := Element (kids (without c (el_childNodes eq)) eq)]> σ).
    assert (σq !! p = Some (Element ep)) as Hpq'
      by (unfold σq; rewrite lookup_insert_ne by congruence; exact Hp).
    rewrite (IH _ (kids (el_childNodes ep ++ [c]) ep)
               (kids (without c (el_childNodes eq)) eq) (lookup_insert_eq σq p _)).
    + cbn [el_childNodes kids]. rewrite <- app_assoc. cbn [app].
      rewrite (insert_insert_ne _ q p) by congruence.
      rewrite insert_insert_eq. unfold σq. rewrite insert_insert_eq. reflexivity.
    + rewrite lookup_insert_ne by congruence. apply lookup_insert_eq.
    + exact Hnd.
    + intros c' Hc'.
      assert (c' ∈ c :: cs) as Hin' by (apply list_elem_of_further, Hc').
      destruct (Hc c' Hin') as (Hq' & Hp' & Hqq').
      assert (c' ≠ c) as Hne by (intros ->; contradiction).
      assert (apart σq c' p ∧ apart σq c' q) as [Hap Haq].
      { split; apply apart_update; try assumption; eexists; exact Hq. }
      split; [|split].
      * apply childOf_elsewhere; [| congruence |].
        -- apply childOf_update; [exact Hq'|]. apply without_elem. split; [|exact Hne].
           exact (childOf_parent σ c' q eq Hq' Hq).
        -- rewrite not_elem_of_app, list_elem_of_singleton. split; [|exact Hne].
           apply Hnot, Hq'.
      * apply apart_update; try assumption. eexists; exact Hpq'.
      * apply apart_update; try assumption. eexists; exact Hpq'.
Qed.

(** A list that is cleared, from [diff] to [applyPatches]: for an
    element [p] with children (each a node, in the child list of [p]
    only) and an element [q] of the same tag and equal attributes without
    children, [diff] returns patches, and applying them throws nothing
    and leaves [p] without children and every other node as it was. *)
Theorem cleared_list_ends_empty (σ : store) (p q : nid) (ep eq : ElementData)
    (skipAttributes : option (list string)) (fuel : nat) :
  σ !! p = Some (Element ep) → σ !! q = Some (Element eq) →
  el_tagName ep = el_tagName eq → _equalAttributes (Element ep) (Element eq) = true →
  el_childNodes eq = [] → NoDup (el_childNodes ep) →
  (∀ c, c ∈ el_childNodes ep → is_Some (σ !! c) ∧ childOf σ c p) →
  ∃ patches,
    diff (S (S fuel)) p q None σ = (Done patches, σ)
    ∧ applyPatches skipAttributes patches σ = (None, <[p := Element (kids [] ep)]> σ).
Proof.
  intros Hp Hq Htag Hattr Hempty Hnd Hc.
  exists (RemoveNode <$> el_childNodes ep). split.
  - rewrite (ShapeFacts.diff_one_side_empty σ p q ep eq fuel Hp Hq Htag).
    + rewrite Hempty, Hattr. cbn. rewrite app_nil_r. reflexivity.
    + apply Forall_forall. intros c Hin. apply Hc, Hin.
    + rewrite Hempty. constructor.
    + right. exact Hempty.
  - rewrite (removes_run skipAttributes p _ σ ep Hp Hnd) by (intros r Hr; apply Hc, Hr).
    rewrite withoutAll_self. reflexivity.
Qed.

(** A list that is filled, from [diff] to [applyPatches]: for an
    element [p] without children and another element [q] of the same tag
    and equal attributes with children (each a node, in the child list
    of [q] only, with neither [p] nor [q] below it), [diff] returns
    patches, and applying them without a [patchMapping] throws nothing,
    gives [p] the children of [q], in their order, and leaves [q]
    without children: the nodes have moved, they are not copied. *)
Theorem filled_list_takes_the_new_children (σ : store) (p q : nid) (ep eq : ElementData)
    (skipAttributes : option (list string)) (fuel : nat) :
  σ !! p = Some (Element ep) → σ !! q = Some (Element eq) → p ≠ q →
  el_tagName ep = el_tagName eq → _equalAttributes (Element ep) (Element eq) = true →
  el_childNodes ep = [] → NoDup (el_childNodes eq) →
  (∀ c, c ∈ el_childNodes eq →
        is_Some (σ !! c) ∧ childOf σ c q ∧ apart σ c p ∧ apart σ c q) →
  ∃ patches,
    diff (S (S fuel)) p q None σ = (Done patches, σ)
    ∧ applyPatches skipAttributes patches σ
      = (None, <[p := Element (kids (el_childNodes eq) ep)]>
                 (<[q := Element (kids [] eq)]> σ)).
Proof.
  intros Hp Hq Hpq Htag Hattr Hempty Hnd Hc.
  exists (AppendChild p <$> el_childNodes eq). split.
  - rewrite (ShapeFacts.diff_one_side_empty σ p q ep eq fuel Hp Hq Htag).
    + rewrite Hempty, Hattr. cbn. rewrite app_nil_r. reflexivity.
    + rewrite Hempty. constructor.
    + apply Forall_forall. intros c Hin. apply Hc, Hin.
    + left. exact Hempty.
  - rewrite (appends_run skipAttributes p q _ Hpq σ ep eq Hp Hq Hnd)
      by (intros c Hin; apply Hc, Hin).
    rewrite withoutAll_self, Hempty. reflexivity.
Qed.

Lemma cleared_list_ends_empty_witness :
  ∃ patches,
    diff 2 10 0 None Shape.filling = (Done patches, Shape.filling)
    ∧ applyPatches None patches Shape.filling
      = (None, <[10 := Element (kids [] (mkElement "UL" [] [11; 12] None None))]>
                 Shape.filling).
Proof.
  apply (cleared_list_ends_empty Shape.filling 10 0
           (mkElement "UL" [] [11; 12] None None) (mkElement "UL" [] [] None None) None 0);
    try reflexivity.
  - apply (bool_decide_unpack _). vm_compute. exact I.
  - intros c Hin. apply list_elem_of_In in Hin.
    destruct Hin as [<- | [<- | []]].
    + split; [eexists; reflexivity|]. split.
      * eexists. split; [reflexivity|]. apply (bool_decide_unpack _). vm_compute. exact I.
      * apply (bool_decide_unpack _). vm_compute. exact I.
    + split; [eexists; reflexivity|]. split.
      * eexists. split; [reflexivity|]. apply (bool_decide_unpack _). vm_compute. exact I.
      * apply (bool_decide_unpack _). vm_compute. exact I.
Defined.

Lemma filled_list_takes_the_new_children_witness :
  ∃ patches,
    diff 2 0 10 None Shape.filling = (Done patches, Shape.filling)
    ∧ applyPatches None patches Shape.filling
      = (None, <[0 := Element (kids [11; 12] (mkElement "UL" [] [] None None))]>
                 (<[10 := Element (kids [] (mkElement "UL" [] [11; 12] None None))]>
                    Shape.filling)).
Proof.
  apply (filled_list_takes_the_new_children Shape.filling 0 10
           (mkElement "UL" [] [] None None) (mkElement "UL" [] [11; 12] None None) None 0);
    try reflexivity.
  - discriminate.
  - apply (bool_decide_unpack _). vm_compute. exact I.
  - intros c Hin. apply list_elem_of_In in Hin.
    destruct Hin as [<- | [<- | []]].
    + split; [eexists; reflexivity|]. split; [split|split].
      * eexists. split; [reflexivity|]. apply (bool_decide_unpack _). vm_compute. exact I.
      * apply (bool_decide_unpack _). vm_compute. exact I.
      * intros [|h]; apply (bool_decide_unpack _); vm_compute; exact I.
      * intros [|h]; apply (bool_decide_unpack _); vm_compute; exact I.
    + split; [eexists; reflexivity|]. split; [split|split].
      * eexists. split; [reflexivity|]. apply (bool_decide_unpack _). vm_compute. exact I.
      * apply (bool_decide_unpack _). vm_compute. exact I.
      * intros [|h]; apply (bool_decide_unpack _); vm_compute; exact I.
      * intros [|h]; apply (bool_decide_unpack _); vm_compute; exact I.
Defined.

End PatchingFacts.

(* ===================================================================== *)
(** ** Properties of the comparison policy of a re-render               *)
(* ===================================================================== *)

Module SlotFacts.
Import TreeComparator Component Slots DiffFacts.

Lemma diff_skip fuel node1 node2 (p : policy) (σ : store) :
  p σ node1 node2 = SKIP → diff (S fuel) node1 node2 (Some p) σ = (Done [], σ).
Proof.
  intros Hp. cbn [diff consult]. unfold mbind, M_bind, bind, getStore, mret, M_ret, ret.
  rewrite Hp. reflexivity.
Qed.

(** On a re-render, two elements with the same non-empty [id] are left
    alone, with all that is below them, as soon as that [id] is a
    property of [childComponentIds]: the [id] of a child component, but
    also, [childComponentIds] being a plain object, the name of any
    member of [Object.prototype], whether or not the component has
    children. *)
Theorem slot_named_like_an_object_member_is_skipped (fuel : nat) (c : Component)
    (σ : store) (node1 node2 : nid) (e1 e2 : ElementData) (i : string) :
  σ !! node1 = Some (Element e1) → σ !! node2 = Some (Element e2) →
  lookupAttr "id" (el_attributes e1) = Some i →
  lookupAttr "id" (el_attributes e2) = Some i →
  i ≠ "" → i ∈ childComponentIds c ∨ i ∈ object_prototype_names →
  diff (S fuel) node1 node2 (Some (renderPolicy c false)) σ = (Done [], σ).
Proof.
  intros H1 H2 Hi1 Hi2 Hne Hin. apply diff_skip.
  unfold renderPolicy. rewrite H1, H2. cbn [nodeId]. rewrite Hi1, Hi2.
  cbn [default from_option id].
  assert (truthy (Some i) = Some i) as -> by (destruct i; [congruence | reflexivity]).
  rewrite bool_decide_eq_true_2 by reflexivity.
  assert (isChildId c i = true) as ->; [|reflexivity].
  unfold isChildId. apply orb_true_iff.
  destruct Hin as [Hin|Hin]; [left|right]; apply PatchFacts.mem_elem_of, Hin.
Qed.

Lemma slot_named_like_an_object_member_is_skipped_witness :
  diff (S 0) 1 11 (Some (renderPolicy Examples.app false)) namedLikeAMember
  = (Done [], namedLikeAMember).
Proof.
  apply (slot_named_like_an_object_member_is_skipped 0 Examples.app namedLikeAMember 1 11
           (mkElement "DIV" [mkAttr "id" "valueOf"] [2] None None)
           (mkElement "DIV" [mkAttr "id" "valueOf"] [12] None None) "valueOf");
    try reflexivity.
  - discriminate.
  - right. apply PatchFacts.mem_elem_of. reflexivity.
Defined.

End SlotFacts.

(* ===================================================================== *)
(** ** Properties of [addObserver], [removeObserver] and [notifyObservers] *)
(* ===================================================================== *)

Module ObserverFacts.
Import Model Examples Observers.

Section Observers.
Context {Data Hint Observer : Type} `{EqDecision Observer}.

Lemma removeFirst_notin (o : Observer) l : o ∉ l → removeFirst o l = l.
Proof.
  induction l as [|x r IH]; intros H; [reflexivity|]. cbn [removeFirst].
  apply not_elem_of_cons in H as [Hx Hr].
  rewrite decide_False by congruence. f_equal. exact (IH Hr).
Qed.

Lemma removeFirst_app_in (o : Observer) l r :
  o ∈ l → removeFirst o (l ++ r) = removeFirst o l ++ r.
Proof.
  induction l as [|x l IH]; intros H; [apply elem_of_nil in H as []|].
  simpl. destruct (decide (x = o)); [reflexivity|].
  apply elem_of_cons in H as [->|H]; [contradiction|].
  simpl. f_equal. exact (IH H).
Qed.

Lemma removeFirst_app_notin (o : Observer) l r :
  o ∉ l → removeFirst o (l ++ r) = l ++ removeFirst o r.
Proof.
  induction l as [|x l IH]; intros H; [reflexivity|].
  apply not_elem_of_cons in H as [Hx Hl]. simpl.
  rewrite decide_False by congruence. f_equal. exact (IH Hl).
Qed.

Lemma removeFirst_length (o : Observer) l :
  o ∈ l → S (length (removeFirst o l)) = length l.
Proof.
  induction l as [|x l IH]; intros H; [apply elem_of_nil in H as []|].
  cbn [removeFirst]. destruct (decide (x = o)); [reflexivity|].
  apply elem_of_cons in H as [->|H]; [contradiction|].
  cbn [length]. f_equal. exact (IH H).
Qed.

(** [removeObserver] after [addObserver]: for an observer that was not
    registered the model is what it was; for one that was, the removal
    takes the earlier registration and leaves the new one, so that the
    observer is now notified last. *)
Theorem unregistering_takes_the_first_registration (o : Observer)
    (m : @Model.Model Data Observer) :
  (o ∉ observers m → removeObserver o (addObserver o m) = m)
  ∧ (o ∈ observers m →
       observers (removeObserver o (addObserver o m)) = removeFirst o (observers m) ++ [o]
       ∧ length (observers (removeObserver o (addObserver o m))) = length (observers m)).
Proof.
  destruct m as [l d]. unfold removeObserver, addObserver. cbn [observers data]. split.
  - intros H. f_equal. rewrite removeFirst_app_notin by exact H.
    cbn [removeFirst]. rewrite decide_True by reflexivity. apply app_nil_r.
  - intros H. rewrite removeFirst_app_in by exact H. split; [reflexivity|].
    rewrite length_app, <- (removeFirst_length o l H). cbn. lia.
Qed.

End Observers.

Lemma unregistering_takes_the_first_registration_witness :
  removeObserver 2 (addObserver 2 twoObservers) = twoObservers
  ∧ observers (removeObserver 0 (addObserver 0 twoObservers))
    = removeFirst 0 (observers twoObservers) ++ [0]
  ∧ length (observers (removeObserver 0 (addObserver 0 twoObservers)))
    = length (observers twoObservers).
Proof.
  split.
  - apply (proj1 (unregistering_takes_the_first_registration 2 twoObservers)).
    apply (bool_decide_unpack _). vm_compute. exact I.
  - apply (proj2 (unregistering_takes_the_first_registration 0 twoObservers)).
    apply (bool_decide_unpack _). vm_compute. exact I.
Defined.

Section Growing.
Context {Data Hint Observer : Type}.
Variable call : Observer → @notifier Data Hint Observer → @Model.Model Data Observer
                → option Hint → list (@event Hint Observer)
                → option (@ending Data Hint Observer).

(** Every observer returns and leaves the model with more observers than
    it found. *)
Hypothesis growing : ∀ o again m h log,
  ∃ m' log', call o again m h log = Some (Returns m' log')
             ∧ length (observers m) < length (observers m').

Lemma notifyFrom_growing hint fuel : ∀ i m log,
  i < length (observers m) → notifyFrom call fuel i hint m log = None.
Proof.
  induction fuel as [|fuel IH]; intros i m log Hi; [reflexivity|].
  cbn [notifyFrom]. destruct (lookup_lt_is_Some_2 _ _ Hi) as [o ->].
  destruct (growing o (λ hint' m' log', notifyFrom call fuel 0 hint' m' log') m hint
              (log ++ [Notify o hint])) as (m' & log' & -> & Hlen).
  apply IH. lia.
Qed.

End Growing.

(** [notifyObservers] reads the length of the observer list at every
    turn: when the model has an observer and every observer called
    returns having registered more observers than it removed, whatever
    else it does, the notification, and with it [set], never returns. *)
Theorem notification_of_growing_observers_never_ends {Data Hint Observer : Type}
    (call : Observer → @notifier Data Hint Observer → @Model.Model Data Observer
            → option Hint → list (@event Hint Observer)
            → option (@ending Data Hint Observer))
    (update : @Model.Model Data Observer → @Model.Model Data Observer)
    (hint : option Hint) (m : @Model.Model Data Observer) (fuel : nat) :
  (∀ o again m' h log,
     ∃ m'' log', call o again m' h log = Some (Returns m'' log')
                 ∧ length (observers m') < length (observers m'')) →
  observers (update m) ≠ [] →
  set call fuel update hint m = None.
Proof.
  intros Hgrow Hne. unfold set, notifyObservers.
  apply notifyFrom_growing; [exact Hgrow|].
  destruct (observers (update m)); [congruence | cbn; lia].
Qed.

Lemma notification_of_growing_observers_never_ends_witness :
  set reRegistering 1000 (λ m, m) None twoObservers = None.
Proof.
  apply (notification_of_growing_observers_never_ends reRegistering (λ m, m) None
           twoObservers 1000).
  - intros o again m h log. eexists _, _. split; [reflexivity|].
    unfold addObserver. cbn [observers]. rewrite length_app. cbn. lia.
  - discriminate.
Defined.

End ObserverFacts.

(* ===================================================================== *)
(** ** Properties of the benchmark application                          *)
(* ===================================================================== *)

Module BenchmarkFacts.
Import Benchmark.

(** *** swapRows *)

Lemma swap_swap (l : list nat) a b :
  l !! 4 = Some a → l !! 9 = Some b →
  <[9 := b]> (<[4 := a]> (<[9 := a]> (<[4 := b]> l))) = l.
Proof.
  intros Ha Hb. apply list_eq. intros i.
  destruct (decide (i = 9)) as [->|H9].
  - rewrite list_lookup_insert_eq; [congruence|].
    rewrite !length_insert. apply lookup_lt_Some in Hb. exact Hb.
  - rewrite list_lookup_insert_ne by congruence.
    destruct (decide (i = 4)) as [->|H4].
    + rewrite list_lookup_insert_eq; [congruence|].
      rewrite !length_insert. apply lookup_lt_Some in Ha. exact Ha.
    + rewrite !list_lookup_insert_ne by congruence. reflexivity.
Qed.

(** [swapRows] on a store of more than ten rows exchanges rows 4 and 9
    and notifies the observers of the store once; doing it again puts
    every row back. On ten rows or fewer (ten included, although row 9
    exists then) it does nothing at all. *)
Theorem swapRows_twice_restores_the_rows (w : World) :
  (10 < length (data w) →
     data (swapRows w) !! 4 = data w !! 9 ∧ data (swapRows w) !! 9 = data w !! 4
     ∧ (∀ i, i ≠ 4 → i ≠ 9 → data (swapRows w) !! i = data w !! i)
     ∧ notified (swapRows w) = notified w ++ [None]
     ∧ data (swapRows (swapRows w)) = data w)
  ∧ (length (data w) ≤ 10 → swapRows w = w).
Proof.
  split.
  - intros Hlen.
    destruct (lookup_lt_is_Some_2 (data w) 4 ltac:(lia)) as [a Ha].
    destruct (lookup_lt_is_Some_2 (data w) 9 ltac:(lia)) as [b Hb].
    assert (swapRows w
            = mkWorld (heap w) (<[9 := a]> (<[4 := b]> (data w))) (lastSelected w)
                (nextId w) (drawn w) (notified w ++ [None])) as Hswap.
    { unfold swapRows. rewrite (proj2 (Nat.ltb_lt _ _) Hlen).
      unfold set. rewrite Ha, Hb. reflexivity. }
    rewrite Hswap. cbn [data notified].
    split; [|split; [|split; [|split]]].
    + rewrite list_lookup_insert_ne by lia.
      rewrite list_lookup_insert_eq by lia. congruence.
    + rewrite list_lookup_insert_eq by (rewrite length_insert; lia). congruence.
    + intros i H4 H9. rewrite !list_lookup_insert_ne by congruence. reflexivity.
    + reflexivity.
    + unfold swapRows. cbn [data]. rewrite !length_insert.
      rewrite (proj2 (Nat.ltb_lt _ _) Hlen). unfold set. cbn [data].
      rewrite list_lookup_insert_ne by lia.
      rewrite list_lookup_insert_eq by lia.
      rewrite list_lookup_insert_eq by (rewrite length_insert; lia).
      cbn [withData data]. apply swap_swap; assumption.
  - intros Hlen. unfold swapRows. rewrite (proj2 (Nat.ltb_ge _ _) Hlen). reflexivity.
Qed.

(** *** updateRows *)

Lemma updateRowsFrom_zero fuel : ∀ i w,
  is_Some (data w !! i) → updateRowsFrom fuel 0 i w = None.
Proof.
  induction fuel as [|fuel IH]; intros i w [r Hr]; [reflexivity|].
  cbn [updateRowsFrom]. rewrite Hr, Nat.add_0_r. apply IH.
  unfold set, withItem. cbn [data]. eauto.
Qed.

Lemma updateRowsFrom_returns step : 0 < step → ∀ fuel i w,
  NoDup (data w) → length (data w) - i < fuel →
  ∃ w', updateRowsFrom fuel step i w = Some w' ∧ data w' = data w
        ∧ ∀ k r, data w !! k = Some r →
            heap w' !! r
            = (if (i <=? k) && ((k - i) mod step =? 0) then exclaim else λ item, item) <$> heap w !! r.
Proof.
  intros Hstep. induction fuel as [|fuel IH]; intros i w Hnd Hlen; [lia|].
  cbn [updateRowsFrom]. destruct (data w !! i) as [r|] eqn:Hi.
  - destruct (IH (i + step) (set (Some r) (withItem r exclaim) w)) as (w' & Hrun & Hdata & Hheap).
    { exact Hnd. }
    { cbn [set withItem data]. apply lookup_lt_Some in Hi. lia. }
    exists w'. split; [exact Hrun|]. split; [exact Hdata|].
    intros k r' Hk. rewrite (Hheap k r' Hk). cbn [set withItem heap].
    destruct (decide (k = i)) as [->|Hne].
    + assert (r' = r) as -> by congruence.
      rewrite lookup_alter_eq.
      rewrite (proj2 (Nat.leb_gt _ _)) by lia. rewrite Nat.leb_refl, Nat.sub_diag.
      cbn [andb]. rewrite Nat.Div0.mod_0_l. cbn. destruct (heap w !! r); reflexivity.
    + assert (r ≠ r') as Hr.
      { intros ->. apply Hne. exact (NoDup_lookup _ _ _ _ Hnd Hk Hi). }
      rewrite lookup_alter_ne by exact Hr.
      assert ((i + step <=? k) && ((k - (i + step)) mod step =? 0)
              = (i <=? k) && ((k - i) mod step =? 0)) as ->; [|reflexivity].
      destruct (Nat.leb_spec (i + step) k) as [Hge|Hlt].
      * rewrite (proj2 (Nat.leb_le i k)) by lia. cbn [andb].
        replace (k - i) with ((k - (i + step)) + 1 * step) by lia.
        rewrite Nat.Div0.mod_add. reflexivity.
      * cbn [andb]. destruct (Nat.leb_spec i k) as [Hik|]; [|reflexivity].
        cbn [andb]. symmetry. apply Nat.eqb_neq.
        rewrite Nat.mod_small by lia. lia.
  - exists w. split; [reflexivity|]. split; [reflexivity|].
    intros k r Hk. apply lookup_ge_None in Hi. apply lookup_lt_Some in Hk.
    rewrite (proj2 (Nat.leb_gt _ _)) by lia. cbn. destruct (heap w !! r); reflexivity.
Qed.

(** [updateRows(mod)] with [mod] at least one returns, on rows without
    repetition: it leaves [store.data] as it is and appends [" !!!"] to
    the label of the rows at the multiples of [mod], and of no other row.
    With [mod] zero, on a store that is not empty, it never returns: the
    index stays at 0. *)
Theorem updateRows_marks_every_mod_th_row (step fuel : nat) (w : World) :
  (0 < step → NoDup (data w) → length (data w) < fuel →
     ∃ w', updateRows fuel step w = Some w' ∧ data w' = data w
           ∧ ∀ k r, data w !! k = Some r →
               heap w' !! r = (if k mod step =? 0 then exclaim else λ item, item) <$> heap w !! r)
  ∧ (step = 0 → data w ≠ [] → updateRows fuel step w = None).
Proof.
  split.
  - intros Hstep Hnd Hlen.
    destruct (updateRowsFrom_returns step Hstep fuel 0 w Hnd ltac:(lia))
      as (w' & Hrun & Hdata & Hheap).
    exists w'. split; [exact Hrun|]. split; [exact Hdata|].
    intros k r Hk. rewrite (Hheap k r Hk). cbn [Nat.leb andb]. rewrite Nat.sub_0_r.
    reflexivity.
  - intros -> Hne. apply updateRowsFrom_zero.
    destruct (data w); [congruence | eauto].
Qed.

(** *** What every session keeps *)

Lemma consistent_set model update w : consistent (update w) → consistent (set model update w).
Proof. intros H. exact H. Qed.

Lemma consistent_start : consistent start.
Proof.
  unfold consistent, start. cbn [heap data nextId lastSelected].
  repeat split; try (intros *; rewrite lookup_empty; discriminate).
  - intros r Hr. apply elem_of_nil in Hr as [].
  - constructor.
Qed.

Section Building.
Variable rounded : nat → nat.

Lemma newStoreItem_spec w w' r :
  consistent w → newStoreItem rounded w = (w', r) →
  heap w !! r = None
  ∧ (∀ x, x ≠ r → heap w' !! x = heap w !! x) ∧ is_Some (heap w' !! r)
  ∧ data w' = data w ∧ lastSelected w' = lastSelected w
  ∧ consistent w'.
Proof.
  intros (Hlt & Hinj & Hsel & Hrows & Hnd) [= <- <-].
  assert (heap w !! fresh (dom (heap w)) = None) as Hfresh.
  { apply not_elem_of_dom. apply is_fresh. }
  cbn [heap data lastSelected nextId].
  split; [exact Hfresh|]. split; [intros x Hx; apply lookup_insert_ne; congruence|].
  split; [rewrite lookup_insert_eq; eauto|]. split; [reflexivity|]. split; [reflexivity|].
  unfold consistent. cbn [heap data lastSelected nextId].
  split; [|split; [|split; [|split]]].
  - intros x item Hx. destruct (decide (fresh (dom (heap w)) = x)) as [<-|Hne].
    + rewrite lookup_insert_eq in Hx. injection Hx as <-. cbn. lia.
    + rewrite lookup_insert_ne in Hx by exact Hne. specialize (Hlt x item Hx). lia.
  - intros r1 r2 item1 item2 H1 H2 Hid.
    destruct (decide (fresh (dom (heap w)) = r1)) as [<-|Hn1];
      destruct (decide (fresh (dom (heap w)) = r2)) as [<-|Hn2]; try reflexivity.
    + rewrite lookup_insert_eq in H1. rewrite lookup_insert_ne in H2 by exact Hn2.
      injection H1 as <-. cbn in Hid. specialize (Hlt r2 item2 H2). lia.
    + rewrite lookup_insert_eq in H2. rewrite lookup_insert_ne in H1 by exact Hn1.
      injection H2 as <-. cbn in Hid. specialize (Hlt r1 item1 H1). lia.
    + rewrite lookup_insert_ne in H1 by exact Hn1.
      rewrite lookup_insert_ne in H2 by exact Hn2. eauto.
  - intros x item Hx Hs. destruct (decide (fresh (dom (heap w)) = x)) as [<-|Hne].
    + rewrite lookup_insert_eq in Hx. injection Hx as <-. discriminate.
    + rewrite lookup_insert_ne in Hx by exact Hne. eauto.
  - intros x Hx. destruct (decide (fresh (dom (heap w)) = x)) as [<-|Hne].
    + rewrite lookup_insert_eq. eauto.
    + rewrite lookup_insert_ne by exact Hne. auto.
  - exact Hnd.
Qed.

Lemma buildRandomStoreItems_spec count : ∀ rows w w' rows',
  consistent w → buildRandomStoreItems rounded count rows w = (w', rows') →
  ∃ new, rows' = rows ++ new ∧ NoDup new
         ∧ (∀ x, x ∈ new → heap w !! x = None ∧ is_Some (heap w' !! x))
         ∧ (∀ x, is_Some (heap w !! x) → heap w' !! x = heap w !! x)
         ∧ data w' = data w ∧ lastSelected w' = lastSelected w
         ∧ consistent w'.
Proof.
  induction count as [|count IH]; intros rows w w' rows' Hc Hrun.
  - injection Hrun as <- <-. exists []. rewrite app_nil_r.
    split; [reflexivity|]. split; [constructor|].
    split; [intros x Hx; apply elem_of_nil in Hx as []|]. auto.
  - cbn [buildRandomStoreItems] in Hrun.
    destruct (newStoreItem rounded w) as [w1 r] eqn:Hnew.
    destruct (newStoreItem_spec w w1 r Hc Hnew) as (Hr & Hold & Hin & Hd & Hl & Hc1).
    destruct (IH _ _ _ _ Hc1 Hrun) as (new & -> & Hnd & Hnew' & Hold' & Hd' & Hl' & Hc').
    exists (r :: new). rewrite <- app_assoc. split; [reflexivity|].
    split; [|split; [|split; [|split; [|split]]]].
    + apply NoDup_cons. split; [|exact Hnd].
      intros Hx. destruct (Hnew' r Hx) as [Hnone _]. destruct Hin as [? Hin].
      congruence.
    + intros x Hx. apply elem_of_cons in Hx as [->|Hx].
      * split; [exact Hr|]. rewrite (Hold' r Hin). exact Hin.
      * destruct (Hnew' x Hx) as [Hnone Hsome]. split; [|exact Hsome].
        rewrite <- (Hold x); [exact Hnone|]. intros ->. destruct Hin as [? Hin]. congruence.
    + intros x Hx. assert (x ≠ r) as Hne by (intros ->; destruct Hx; congruence).
      rewrite Hold' by (rewrite (Hold x Hne); exact Hx). apply Hold, Hne.
    + congruence.
    + congruence.
    + exact Hc'.
Qed.

Lemma consistent_createNewRows count w :
  consistent w → consistent (createNewRows rounded count w).
Proof.
  intros Hc. unfold createNewRows. apply consistent_set.
  destruct (buildRandomStoreItems rounded count [] w) as [w' rows'] eqn:Hrun.
  destruct (buildRandomStoreItems_spec count [] w w' rows' Hc Hrun)
    as (new & -> & Hnd & Hnew & _ & _ & _ & (Hlt & Hinj & Hsel & _ & _)).
  unfold consistent, withData. cbn [heap data lastSelected nextId app].
  repeat split; auto. intros r Hr. apply Hnew, Hr.
Qed.

Lemma consistent_appendRows count w :
  consistent w → consistent (appendRows rounded count w).
Proof.
  intros Hc. unfold appendRows. apply consistent_set.
  destruct (buildRandomStoreItems rounded count [] w) as [w' rows'] eqn:Hrun.
  destruct (buildRandomStoreItems_spec count [] w w' rows' Hc Hrun)
    as (new & -> & Hnd & Hnew & Hold & Hd & _ & (Hlt & Hinj & Hsel & Hrows & Hndd)).
  unfold consistent, withData. cbn [heap data lastSelected nextId app].
  repeat split; auto.
  - intros r Hr. apply elem_of_app in Hr as [Hr|Hr]; [apply Hrows, Hr | apply Hnew, Hr].
  - apply NoDup_app. split; [exact Hndd|]. split; [|exact Hnd].
    intros x Hx Hx'. destruct (Hnew x Hx') as [Hnone _].
    destruct Hc as (_ & _ & _ & Hrows0 & _). rewrite Hd in Hx.
    destruct (Hrows0 x Hx) as [? ?]. congruence.
Qed.

End Building.

Lemma consistent_withData rows w :
  consistent w → NoDup rows → (∀ r, r ∈ rows → r ∈ data w) →
  consistent (withData rows w).
Proof.
  intros (Hlt & Hinj & Hsel & Hrows & _) Hnd Hsub.
  unfold consistent, withData. cbn [heap data lastSelected nextId].
  repeat split; auto.
Qed.

Lemma consistent_swapRows w : consistent w → consistent (swapRows w).
Proof.
  intros Hc. unfold swapRows. destruct (10 <? length (data w)); [|exact Hc].
  apply consistent_set.
  destruct (data w !! 4) as [a|] eqn:Ha; [|exact Hc].
  destruct (data w !! 9) as [b|] eqn:Hb; [|exact Hc].
  pose proof Hc as (_ & _ & _ & _ & Hnd).
  assert (∀ i x, <[9 := a]> (<[4 := b]> (data w)) !! i = Some x →
                 ∃ j, data w !! j = Some x
                      ∧ j = (if decide (i = 9) then 4 else if decide (i = 4) then 9 else i))
    as Hlook.
  { intros i x Hx. destruct (decide (i = 9)) as [->|H9].
    - rewrite list_lookup_insert_eq in Hx
        by (rewrite length_insert; apply lookup_lt_Some in Hb; exact Hb).
      exists 4. split; congruence.
    - rewrite list_lookup_insert_ne in Hx by congruence.
      destruct (decide (i = 4)) as [->|H4].
      + rewrite list_lookup_insert_eq in Hx by (apply lookup_lt_Some in Ha; exact Ha).
        exists 9. split; congruence.
      + rewrite list_lookup_insert_ne in Hx by congruence. eauto. }
  apply consistent_withData; [exact Hc| |].
  - apply NoDup_alt. intros i j x Hi Hj.
    destruct (Hlook i x Hi) as (i' & Hi' & Ei). destruct (Hlook j x Hj) as (j' & Hj' & Ej).
    pose proof (NoDup_lookup _ _ _ _ Hnd Hi' Hj') as E. subst i' j'.
    repeat destruct (decide _); congruence.
  - intros r Hr. apply list_elem_of_lookup in Hr as [i Hi].
    destruct (Hlook i r Hi) as (j & Hj & _). apply list_elem_of_lookup. eauto.
Qed.

Lemma consistent_clear w : consistent w → consistent (clear w).
Proof.
  intros Hc. unfold clear. apply consistent_set, consistent_withData; [exact Hc|constructor|].
  intros r Hr. apply elem_of_nil in Hr as [].
Qed.

Lemma consistent_remove item w : consistent w → consistent (remove item w).
Proof.
  intros Hc. unfold remove. apply consistent_set.
  destruct (indexOf item (data w)) as [idx|]; [|exact Hc].
  pose proof Hc as (_ & _ & _ & _ & Hnd).
  apply consistent_withData; [exact Hc| |].
  - eapply sublist_NoDup; [exact Hnd|apply sublist_delete].
  - intros r Hr. exact (elem_of_sublist _ _ _ Hr (sublist_delete _ _)).
Qed.

Lemma consistent_select item w : consistent w → consistent (select item w).
Proof.
  intros (Hlt & Hinj & Hsel & Hrows & Hnd).
  assert (∀ r (h : gmap nat StoreItem) b x it,
            alter (setSelected b) r h !! x = Some it →
            ∃ it0, h !! x = Some it0 ∧ id it = id it0
                   ∧ (selected it = true → (x = r ∧ b = true) ∨ (x ≠ r ∧ selected it0 = true)))
    as Halter.
  { intros r h b x it Hx. destruct (decide (r = x)) as [->|Hne].
    - rewrite lookup_alter_eq in Hx. destruct (h !! x) as [it0|]; [|discriminate].
      injection Hx as <-. exists it0. split; [reflexivity|]. split; [reflexivity|].
      cbn. intros ->. left. auto.
    - rewrite lookup_alter_ne in Hx by exact Hne. exists it. split; [exact Hx|].
      split; [reflexivity|]. intros Hs. right. split; [congruence | exact Hs]. }
  set (w1 := match lastSelected w with
             | Some last => set (Some last) (withItem last (setSelected false)) w
             | None => w
             end).
  assert (∀ x it, heap w1 !! x = Some it →
            ∃ it0, heap w !! x = Some it0 ∧ id it = id it0 ∧ selected it = false) as H1.
  { intros x it Hx. subst w1. destruct (lastSelected w) as [last|] eqn:Hlast.
    - cbn [set withItem heap] in Hx. destruct (Halter _ _ _ _ _ Hx) as (it0 & H0 & Hid & Hs).
      exists it0. split; [exact H0|]. split; [exact Hid|].
      destruct (selected it) eqn:E; [|reflexivity].
      destruct (Hs eq_refl) as [[_ ?]|[Hne Hs0]]; [discriminate|].
      specialize (Hsel x it0 H0 Hs0). congruence.
    - exists it. split; [exact Hx|]. split; [reflexivity|].
      destruct (selected it) eqn:E; [|reflexivity].
      specialize (Hsel x it Hx E). congruence. }
  assert (data w1 = data w ∧ nextId w1 = nextId w) as [Hd1 Hn1].
  { subst w1. destruct (lastSelected w); split; reflexivity. }
  unfold select. fold w1. unfold consistent.
  cbn [set withItem heap data lastSelected nextId]. rewrite Hd1, Hn1.
  split; [|split; [|split; [|split]]].
  - intros x it Hx. destruct (Halter _ _ _ _ _ Hx) as (it1 & Hx1 & Hid & _).
    destruct (H1 _ _ Hx1) as (it0 & Hx0 & Hid0 & _). specialize (Hlt _ _ Hx0). lia.
  - intros r1 r2 it1 it2 Hr1 Hr2 Hid.
    destruct (Halter _ _ _ _ _ Hr1) as (a1 & Ha1 & Hi1 & _).
    destruct (Halter _ _ _ _ _ Hr2) as (a2 & Ha2 & Hi2 & _).
    destruct (H1 _ _ Ha1) as (b1 & Hb1 & Hj1 & _).
    destruct (H1 _ _ Ha2) as (b2 & Hb2 & Hj2 & _).
    apply (Hinj r1 r2 b1 b2 Hb1 Hb2). congruence.
  - intros x it Hx Hs. destruct (Halter _ _ _ _ _ Hx) as (it1 & Hx1 & _ & Hcase).
    destruct (Hcase Hs) as [[-> _]|[_ Hs1]]; [reflexivity|].
    destruct (H1 _ _ Hx1) as (_ & _ & _ & Hf). congruence.
  - intros r Hr. rewrite lookup_alter_is_Some.
    subst w1. destruct (lastSelected w); [cbn [set withItem heap];
      rewrite lookup_alter_is_Some|]; apply Hrows, Hr.
  - exact Hnd.
Qed.

Lemma consistent_session rounded actions : consistent (session rounded actions).
Proof.
  unfold session. generalize consistent_start. generalize start.
  induction actions as [|a rest IH]; intros w Hc; [exact Hc|].
  cbn [fold_left]. apply IH.
  destruct a; cbn [perform];
    auto using consistent_createNewRows, consistent_appendRows, consistent_swapRows,
      consistent_clear, consistent_remove, consistent_select.
Qed.

Lemma rowKey_inj item1 item2 : rowKey item1 = rowKey item2 → id item1 = id item2.
Proof.
  unfold rowKey. intros H. apply MarkerFacts.decimal_inj.
  apply (f_equal (TreeComparator.stripPrefix "item-")) in H.
  rewrite !PatchFacts.stripPrefix_append in H. congruence.
Qed.

Lemma rows_keys w : ∀ l,
  consistent w → NoDup l →
  NoDup (rowKey <$> omap (λ r, heap w !! r) l).
Proof.
  intros l (_ & Hinj & _) Hnd. induction l as [|r l IH]; [constructor|].
  apply NoDup_cons in Hnd as [Hr Hnd]. cbn [omap list_omap].
  destruct (heap w !! r) as [item|] eqn:Hitem; [|exact (IH Hnd)].
  rewrite fmap_cons. apply NoDup_cons. split; [|exact (IH Hnd)].
  intros Hin. apply list_elem_of_fmap in Hin as (item' & Hkey & Hin).
  apply list_elem_of_omap in Hin as (r' & Hr' & Hitem').
  apply rowKey_inj in Hkey.
  rewrite (Hinj r r' item item' Hitem Hitem' Hkey) in Hr. contradiction.
Qed.

(** Whatever the user does (run, add, swap rows, clear, remove a row,
    select a row, in any order and number), the rows of the store carry
    distinct keys: every entry of [store.data] is an item, and no two of
    them give the same ['item-' + id], the [key] attribute that
    [DataItemComponent.renderer] writes and that the child-list
    reconciliation relies on. *)
Theorem rows_carry_distinct_keys (rounded : nat → nat) (actions : list action) :
  length (rows (session rounded actions)) = length (data (session rounded actions))
  ∧ NoDup (rowKey <$> rows (session rounded actions)).
Proof.
  pose proof (consistent_session rounded actions) as Hc.
  split; [|apply rows_keys; [exact Hc | apply Hc]].
  destruct Hc as (_ & _ & _ & Hrows & _). unfold rows.
  induction (data (session rounded actions)) as [|r l IH]; [reflexivity|].
  cbn [omap list_omap]. destruct (Hrows r (list_elem_of_here _ _)) as [item ->].
  cbn [length]. f_equal. apply IH. intros x Hx. apply Hrows, list_elem_of_further, Hx.
Qed.

(** Whatever the user does, at most one item is selected, and it is the
    one [store.lastSelected] refers to: a click on a label unselects the
    item selected before. *)
Theorem at_most_one_item_is_selected (rounded : nat → nat) (actions : list action)
    (r : nat) (item : StoreItem) :
  heap (session rounded actions) !! r = Some item → selected item = true →
  lastSelected (session rounded actions) = Some r.
Proof.
  destruct (consistent_session rounded actions) as (_ & _ & Hsel & _). apply Hsel.
Qed.

Lemma at_most_one_item_is_selected_witness :
  lastSelected (session (λ _, 0) [Run 2; Select 0; Select 1]) = Some 1.
Proof.
  apply (at_most_one_item_is_selected (λ _, 0) [Run 2; Select 0; Select 1] 1
           (mkStoreItem 2 "pretty red table" true)).
  - vm_compute. reflexivity.
  - reflexivity.
Defined.

Lemma swapRows_twice_restores_the_rows_witness :
  data (swapRows (swapRows (session (λ _, 0) [Run 11])))
  = data (session (λ _, 0) [Run 11])
  ∧ swapRows (session (λ _, 0) [Run 10]) = session (λ _, 0) [Run 10].
Proof.
  split.
  - apply (proj1 (swapRows_twice_restores_the_rows (session (λ _, 0) [Run 11]))).
    vm_compute. lia.
  - apply (proj2 (swapRows_twice_restores_the_rows (session (λ _, 0) [Run 10]))).
    vm_compute. lia.
Defined.

Lemma updateRows_marks_every_mod_th_row_witness :
  (∃ w', updateRows 4 2 (session (λ _, 0) [Run 3]) = Some w'
         ∧ data w' = data (session (λ _, 0) [Run 3])
         ∧ ∀ k r, data (session (λ _, 0) [Run 3]) !! k = Some r →
             heap w' !! r
             = (if k mod 2 =? 0 then exclaim else λ item, item)
                 <$> heap (session (λ _, 0) [Run 3]) !! r)
  ∧ updateRows 1000 0 (session (λ _, 0) [Run 3]) = None.
Proof.
  split.
  - apply (proj1 (updateRows_marks_every_mod_th_row 2 4 (session (λ _, 0) [Run 3]))).
    + lia.
    + apply (consistent_session (λ _, 0) [Run 3]).
    + vm_compute. lia.
  - apply (proj2 (updateRows_marks_every_mod_th_row 0 1000 (session (λ _, 0) [Run 3]))).
    + reflexivity.
    + vm_compute. discriminate.
Defined.

End BenchmarkFacts.
